(** * Code-block extraction and ordered reconstruction of a model reply

    A shallow embedding of [extractCodeBlocks], [extractConfig] and
    [preserveOrderedContent] (the agent class of the repository), with the
    regular expressions of the source given as syntax trees and run by a
    backtracking matcher that follows the ECMAScript semantics of the
    constructs they use. *)

From Stdlib Require Import List NArith Arith Lia Bool String Ascii Sorted.
From Stdlib Require Import DecimalString DecimalNat.
Import ListNotations.

(* [length] is the length of lists throughout. *)
Abbreviation length := Datatypes.length (only parsing).

(** ** Strings as sequences of UTF-16 code units *)

Definition cu := N.
Definition str := list cu.

(** [u] turns ASCII text into the JS string of the same characters. *)
Definition u (s : string) : str :=
  map N_of_ascii (list_ascii_of_string s).

Definition nl : cu := 10%N.
Definition dq : cu := 34%N.

Module Cls.
Open Scope N_scope.

Definition between (lo hi x : cu) : bool := (lo <=? x) && (x <=? hi).

(** [\s]: WhiteSpace and LineTerminator of ECMAScript; the same set is
    what [String.prototype.trim] removes. *)
Definition space (x : cu) : bool :=
  between 9 13 x || (x =? 32) || (x =? 160) || (x =? 5760)
  || between 8192 8202 x || (x =? 8232) || (x =? 8233) || (x =? 8239)
  || (x =? 8287) || (x =? 12288) || (x =? 65279).

(** [\w] without the unicode flag. *)
Definition word (x : cu) : bool :=
  between 97 122 x || between 65 90 x || between 48 57 x || (x =? 95).

(** [[\s\S]] *)
Definition any (_ : cu) : bool := true.

Definition only (c x : cu) : bool := x =? c.

(** ASCII lower-casing of one unit. *)
Definition lower (x : cu) : cu := if between 65 90 x then x + 32 else x.

(** A pattern character under the [i] flag.  For an ASCII pattern
    character, Canonicalize identifies exactly its two ASCII cases. *)
Definition ci (c x : cu) : bool := lower x =? lower c.

(** The class of every unit but the double quote. *)
Definition notQuote (x : cu) : bool := negb (x =? 34).

(** [[^\*\n]] *)
Definition notStarNl (x : cu) : bool := negb ((x =? 42) || (x =? 10)).

(** [[a-zA-Z0-9_\-\.\/]] *)
Definition pathChar (x : cu) : bool :=
  between 97 122 x || between 65 90 x || between 48 57 x
  || (x =? 95) || (x =? 45) || (x =? 46) || (x =? 47).

(** [[\s:]] *)
Definition spaceOrColon (x : cu) : bool := space x || (x =? 58).
End Cls.

(** ** Regular expressions *)

(** The constructs used by the patterns of the source.  Every starred atom
    in them is a single character class, so [Star] and [StarLazy] take a
    class. *)
Inductive regex : Type :=
| Eps
| Chr (p : cu -> bool)
| Seq (r1 r2 : regex)
| Alt (r1 r2 : regex)
| Opt (r : regex)
| Star (p : cu -> bool)
| StarLazy (p : cu -> bool)
| Group (n : nat) (r : regex).

Definition Plus (p : cu -> bool) : regex := Seq (Chr p) (Star p).

Fixpoint Lit (s : str) : regex :=
  match s with
  | [] => Eps
  | c :: s' => Seq (Chr (Cls.only c)) (Lit s')
  end.

Fixpoint LitCi (s : str) : regex :=
  match s with
  | [] => Eps
  | c :: s' => Seq (Chr (Cls.ci c)) (LitCi s')
  end.

Fixpoint seqs (rs : list regex) : regex :=
  match rs with
  | [] => Eps
  | [r] => r
  | r :: rs' => Seq r (seqs rs')
  end.

Fixpoint alts (r : regex) (rs : list regex) : regex :=
  match rs with
  | [] => r
  | r' :: rs' => Alt r (alts r' rs')
  end.

(** Captures: the most recent binding of a group comes first. *)
Definition captures := list (nat * str).

Fixpoint lookup (n : nat) (c : captures) : option str :=
  match c with
  | [] => None
  | (k, v) :: c' => if Nat.eqb k n then Some v else lookup n c'
  end.

Section Matcher.
Variable A : Type.

(** Greedy [C*]: longest run first, then shorter ones. *)
Fixpoint starG (p : cu -> bool) (s : str) (k : str -> option A) : option A :=
  match s with
  | x :: s' =>
      if p x then
        match starG p s' k with
        | Some a => Some a
        | None => k s
        end
      else k s
  | [] => k []
  end.

(** Lazy [C*?]: shortest run first. *)
Fixpoint starL (p : cu -> bool) (s : str) (k : str -> option A) : option A :=
  match k s with
  | Some a => Some a
  | None =>
      match s with
      | x :: s' => if p x then starL p s' k else None
      | [] => None
      end
  end.

(** The backtracking matcher, in continuation-passing style: [run r s c k]
    matches [r] at the front of [s] and hands the rest of the input and the
    captures to [k]; when [k] fails the next alternative is tried.  The
    order of alternatives is that of ECMAScript. *)
Fixpoint run (r : regex) (s : str) (c : captures)
         (k : str -> captures -> option A) : option A :=
  match r with
  | Eps => k s c
  | Chr p =>
      match s with
      | x :: s' => if p x then k s' c else None
      | [] => None
      end
  | Seq r1 r2 => run r1 s c (fun s' c' => run r2 s' c' k)
  | Alt r1 r2 =>
      match run r1 s c k with
      | Some a => Some a
      | None => run r2 s c k
      end
  | Opt r1 =>
      match run r1 s c k with
      | Some a => Some a
      | None => k s c
      end
  | Star p => starG p s (fun s' => k s' c)
  | StarLazy p => starL p s (fun s' => k s' c)
  | Group n r1 =>
      run r1 s c
          (fun s' c' => k s' ((n, firstn (length s - length s') s) :: c'))
  end.
End Matcher.

Arguments starG {A} p s k.
Arguments starL {A} p s k.
Arguments run {A} r s c k.

(** The match object: [index], [match[0]] and the numbered groups. *)
Record MatchResult : Type := mkMatch {
  index : nat;
  whole : str;
  groups : captures
}.

Definition group (m : MatchResult) (n : nat) : option str := lookup n (groups m).

(** One attempt, anchored at the front of [s]. *)
Definition matchAt (r : regex) (s : str) : option (str * captures) :=
  run r s [] (fun s' c => Some (s', c)).

(** Scan forward from position [i], whose suffix is [s]. *)
Fixpoint search (r : regex) (s : str) (i : nat) : option MatchResult :=
  match matchAt r s with
  | Some (s', c) => Some (mkMatch i (firstn (length s - length s') s) c)
  | None =>
      match s with
      | [] => None
      | _ :: s' => search r s' (S i)
      end
  end.

(** [regex.exec(text)] for a pattern with the [g] flag whose [lastIndex]
    is [lastIndex]; the new [lastIndex] is the end of the match. *)
Definition exec (r : regex) (text : str) (lastIndex : nat) : option MatchResult :=
  if Nat.ltb (length text) lastIndex then None
  else search r (skipn lastIndex text) lastIndex.

Definition endIndex (m : MatchResult) : nat := index m + length (whole m).

(** [text.match(regex)] for a pattern without the [g] flag. *)
Definition jsMatch (r : regex) (text : str) : option MatchResult :=
  search r text 0.

(** [s.replace(regex, empty)] without the [g] flag: the first match goes. *)
Definition replaceFirst (r : regex) (s : str) : str :=
  match jsMatch r s with
  | Some m => firstn (index m) s ++ skipn (endIndex m) s
  | None => s
  end.

(** [s.replace(regex, empty)] with the [g] flag: every match goes, scanning
    left to right; [skip] counts the units of the current match still to
    drop.  An empty match removes nothing and the scan moves on by one. *)
Fixpoint replaceAllFrom (r : regex) (s : str) (skip : nat) : str :=
  match s with
  | [] => []
  | x :: s' =>
      match skip with
      | S n => replaceAllFrom r s' n
      | O =>
          match matchAt r s with
          | Some (rest, _) =>
              match length s - length rest with
              | S n => replaceAllFrom r s' n
              | O => x :: replaceAllFrom r s' 0
              end
          | None => x :: replaceAllFrom r s' 0
          end
      end
  end.

Definition replaceAll (r : regex) (s : str) : str := replaceAllFrom r s 0.

(** ** String operations of the source *)

Fixpoint dropSpace (s : str) : str :=
  match s with
  | x :: s' => if Cls.space x then dropSpace s' else s
  | [] => []
  end.

(** [s.trim()] *)
Definition trim (s : str) : str := rev (dropSpace (rev (dropSpace s))).

Fixpoint prefixb (p s : str) : bool :=
  match p, s with
  | [], _ => true
  | a :: p', b :: s' => N.eqb b a && prefixb p' s'
  | _ :: _, [] => false
  end.

(** [s.includes(p)] *)
Fixpoint includes (p s : str) : bool :=
  prefixb p s ||
  match s with
  | [] => false
  | _ :: s' => includes p s'
  end.

(** [s.substring(a, b)] for [a <= b]; [s.substring(a)]. *)
Definition substring (s : str) (a b : nat) : str := firstn (b - a) (skipn a s).
Definition substringFrom (s : str) (a : nat) : str := skipn a s.

(** [s.toLowerCase()] on ASCII letters.  The source only asks whether the
    result includes 'wrangler'; no unit outside ASCII lower-cases to one of
    the letters of that word, so the answer is that of the full function. *)
Definition toLowerCase (s : str) : str := map Cls.lower s.

Definition fence : str := u "```".

(** ** The patterns of the source *)

(** [(ts|js|json|toml|md|txt)], under the [i] flag. *)
Definition extAlt : regex :=
  alts (LitCi (u "ts"))
       [LitCi (u "js"); LitCi (u "json"); LitCi (u "toml");
        LitCi (u "md"); LitCi (u "txt")].

(** [([a-zA-Z0-9_\-\.\/]+\.(ts|js|json|toml|md|txt))], groups 1 and 2. *)
Definition pathName : regex :=
  Group 1 (seqs [Plus Cls.pathChar; LitCi (u "."); Group 2 extAlt]).

(** [/```(\w+)?\s*(?:filename=Q([^Q]+)Q)?\n([\s\S]*?)```/g], where [Q]
    stands for the double quote. *)
Definition codeBlockRegex : regex :=
  seqs [Lit fence;
        Opt (Group 1 (Plus Cls.word));
        Star Cls.space;
        Opt (seqs [Lit (u "filename=" ++ [dq]);
                   Group 2 (Plus Cls.notQuote);
                   Lit [dq]]);
        Chr (Cls.only nl);
        Group 3 (StarLazy Cls.any);
        Lit fence].

(** [/\*\*([^\*\n]+\.(ts|js|json|toml|md|txt))\*\*/i] *)
Definition boldNamePattern : regex :=
  seqs [LitCi (u "**");
        Group 1 (seqs [Plus Cls.notStarNl; LitCi (u "."); Group 2 extAlt]);
        LitCi (u "**")].

(** [/([a-zA-Z0-9_\-\.\/]+\.(ts|js|json|toml|md|txt)):/i] *)
Definition colonNamePattern : regex :=
  seqs [pathName; LitCi (u ":")].

(** [/(?:create|add|generate|write|save)\s+(...)/i] *)
Definition verbNamePattern : regex :=
  seqs [alts (LitCi (u "create"))
             [LitCi (u "add"); LitCi (u "generate");
              LitCi (u "write"); LitCi (u "save")];
        Plus Cls.space;
        pathName].

(** [/(?:file|file name|filename)[\s:]+(...)/i] *)
Definition fileLabelPattern : regex :=
  seqs [alts (LitCi (u "file"))
             [LitCi (u "file name"); LitCi (u "filename")];
        Plus Cls.spaceOrColon;
        pathName].

Definition filenamePatterns : list regex :=
  [boldNamePattern; colonNamePattern; verbNamePattern; fileLabelPattern].

(** [/```[\s\S]*?```/] *)
Definition fallbackRegex : regex :=
  seqs [Lit fence; StarLazy Cls.any; Lit fence].

(** [/```\w*\n?/g] and [/```/g] *)
Definition openTokenRegex : regex :=
  seqs [Lit fence; Star Cls.word; Opt (Chr (Cls.only nl))].
Definition fenceRegex : regex := Lit fence.

(** [/wrangler\.toml[\s\S]*?```[\s\S]*?```/i] and its head
    [/wrangler\.toml[\s\S]*?```/i] *)
Definition configHeadRegex : regex :=
  seqs [LitCi (u "wrangler.toml"); StarLazy Cls.any; LitCi fence].
Definition configRegex : regex :=
  seqs [LitCi (u "wrangler.toml"); StarLazy Cls.any; LitCi fence;
        StarLazy Cls.any; LitCi fence].

(** ** Results and errors *)

Inductive error : Type :=
| TypeError   (* a method called on [undefined] *)
| OutOfFuel.  (* the loop did not end within its bound *)

Inductive result (A : Type) : Type :=
| Ok (a : A)
| Err (e : error).
Arguments Ok {A} a.
Arguments Err {A} e.

Definition bind {A B : Type} (x : result A) (f : A -> result B) : result B :=
  match x with
  | Ok a => f a
  | Err e => Err e
  end.

Notation "x <- e1 ;; e2" := (bind e1 (fun x => e2))
  (at level 61, e1 at next level, right associativity).

(** ** extractCodeBlocks *)

Record Block : Type := mkBlock {
  language : str;
  filename : str;
  code : str;
  order : nat
}.

Fixpoint strEqb (a b : str) : bool :=
  match a, b with
  | [], [] => true
  | x :: a', y :: b' => N.eqb x y && strEqb a' b'
  | _, _ => false
  end.

Definition isEmpty (s : str) : bool :=
  match s with [] => true | _ :: _ => false end.

(** [o || d] for an optional string [o]: undefined and the empty string
    are falsy. *)
Definition orElse (o : option str) (d : str) : str :=
  match o with
  | Some (x :: s) => x :: s
  | _ => d
  end.

(** The [for (const pattern of filenamePatterns)] loop: the first pattern
    that matches [beforeBlock] gives the name and ends the loop. *)
Fixpoint firstPattern (ps : list regex) (beforeBlock : str) : str :=
  match ps with
  | [] => []
  | p :: ps' =>
      match jsMatch p beforeBlock with
      | Some m => orElse (group m 1) []
      | None => firstPattern ps' beforeBlock
      end
  end.

(** The body of [if (!filename) { ... }], as a function of [beforeBlock]
    and of the language tag. *)
Definition inferFrom (beforeBlock language : str) : str :=
  let filename := firstPattern filenamePatterns beforeBlock in
  let filename :=
    if isEmpty filename
       && (includes (u "wrangler") (toLowerCase beforeBlock)
           || strEqb language (u "toml"))
    then u "wrangler.toml" else filename in
  if isEmpty filename then
    if strEqb language (u "typescript") || strEqb language (u "ts")
    then u "src/index.ts"
    else if strEqb language (u "json") then u "package.json"
    else filename
  else filename.

(** [const beforeBlock = text.substring(0, match.index)] *)
Definition inferFilename (text : str) (m : MatchResult) (language : str) : str :=
  inferFrom (substring text 0 (index m)) language.

(** One iteration of the [while] loop: the block pushed for match [m]. *)
Definition blockOf (text : str) (m : MatchResult) (ord : nat) : result Block :=
  let language := orElse (group m 1) (u "typescript") in
  let filename := orElse (group m 2) [] in
  let filename :=
    if isEmpty filename then inferFilename text m language else filename in
  match group m 3 with
  | None => Err TypeError
  | Some body => Ok (mkBlock language filename (trim body) ord)
  end.

(** [while ((match = codeBlockRegex.exec(text)) !== null) { ... }] *)
Fixpoint blocksLoop (fuel : nat) (text : str) (lastIndex ord : nat)
         (blocks : list Block) : result (list Block) :=
  match fuel with
  | O => Err OutOfFuel
  | S fuel' =>
      match exec codeBlockRegex text lastIndex with
      | None => Ok blocks
      | Some m =>
          b <- blockOf text m ord ;;
          blocksLoop fuel' text (endIndex m) (S ord) (blocks ++ [b])
      end
  end.

(** The token stripping of the fallback:
    two global replacements by the empty string, of [/```\w*\n?/g] and then
    of [/```/g], and a [trim]. *)
Definition stripFences (s : str) : str :=
  trim (replaceAll fenceRegex (replaceAll openTokenRegex s)).

Definition fallbackBlocks (text : str) (blocks : list Block) : list Block :=
  if Nat.eqb (length blocks) 0 && includes fence text then
    match jsMatch fallbackRegex text with
    | Some fallbackMatch =>
        blocks ++ [mkBlock (u "typescript") (u "src/index.ts")
                           (stripFences (whole fallbackMatch)) 0]
    | None => blocks
    end
  else blocks.

Definition extractCodeBlocks (text : str) : result (list Block) :=
  blocks <- blocksLoop (S (length text)) text 0 0 [] ;;
  Ok (fallbackBlocks text blocks).

(** ** extractConfig *)

Definition extractConfig (text : str) : option str :=
  match jsMatch configRegex text with
  | Some configMatch =>
      Some (trim (replaceAll fenceRegex
                    (replaceFirst configHeadRegex (whole configMatch))))
  | None => None
  end.

(** ** preserveOrderedContent *)

Inductive Part : Type :=
| TextPart (content : str)
| CodePart (ord : nat).

Definition pushText (parts : list Part) (t : str) : list Part :=
  if isEmpty t then parts else parts ++ [TextPart t].

(** The splitting loop.  The variable [lastIndex] of the source and the
    [lastIndex] of the pattern hold the same number after every iteration
    (the end of the match), so one argument carries both. *)
Fixpoint partsLoop (fuel : nat) (text : str) (nblocks : nat)
         (lastIndex codeIndex : nat) (parts : list Part)
  : result (nat * list Part) :=
  match fuel with
  | O => Err OutOfFuel
  | S fuel' =>
      match exec codeBlockRegex text lastIndex with
      | None => Ok (lastIndex, parts)
      | Some m =>
          let parts :=
            if Nat.ltb lastIndex (index m)
            then pushText parts (trim (substring text lastIndex (index m)))
            else parts in
          let '(parts, codeIndex) :=
            if Nat.ltb codeIndex nblocks
            then (parts ++ [CodePart codeIndex], S codeIndex)
            else (parts, codeIndex) in
          partsLoop fuel' text nblocks (endIndex m) codeIndex parts
      end
  end.

Definition splitParts (text : str) (codeBlocks : list Block)
  : result (list Part) :=
  r <- partsLoop (S (length text)) text (length codeBlocks) 0 0 [] ;;
  let '(lastIndex, parts) := r in
  Ok (if Nat.ltb lastIndex (length text)
      then pushText parts (trim (substringFrom text lastIndex))
      else parts).

Definition sep : str := [nl; nl].

Definition renderBlock (block : Block) : str :=
  let filename := if isEmpty (filename block) then u "File" else filename block in
  (if negb (isEmpty filename) && negb (strEqb filename (u "File"))
      && negb (strEqb filename (u "src/index.ts"))
   then u "**" ++ filename ++ u "**" ++ sep else [])
  ++ fence ++ language block ++ [nl] ++ code block ++ [nl] ++ fence.

(** The [for] loop that rebuilds the text; [rest] is what follows part [i],
    so [i < parts.length - 1] reads "[rest] is not empty". *)
Fixpoint renderParts (codeBlocks : list Block) (parts : list Part) : str :=
  match parts with
  | [] => []
  | part :: rest =>
      (match part with
       | TextPart content =>
           content ++
           match rest with
           | CodePart _ :: _ => sep
           | _ :: _ => sep
           | [] => []
           end
       | CodePart ord =>
           match nth_error codeBlocks ord with
           | Some block =>
               renderBlock block ++
               match rest with
               | _ :: _ => sep
               | [] => []
               end
           | None => []
           end
       end) ++ renderParts codeBlocks rest
  end.

Definition preserveOrderedContent (text : str) (codeBlocks : list Block)
  : result str :=
  if Nat.eqb (length codeBlocks) 0 then Ok (trim text)
  else
    parts <- splitParts text codeBlocks ;;
    Ok (trim (renderParts codeBlocks parts)).

(** ** extract: the three calls of the handlers *)

Record ExtractionResult : Type := mkResult {
  artifacts : list Block;
  configText : option str;
  explanation : str
}.

Definition extract (text : str) : result ExtractionResult :=
  codeBlocks <- extractCodeBlocks text ;;
  let config := extractConfig text in
  explanation <- preserveOrderedContent text codeBlocks ;;
  Ok (mkResult codeBlocks config explanation).


(** ** The fenced blocks of a text *)

(** The successive matches of a global pattern, as the [exec] loops of the
    source meet them. *)
Fixpoint execAll (fuel : nat) (r : regex) (text : str) (lastIndex : nat)
  : list MatchResult :=
  match fuel with
  | O => []
  | S fuel' =>
      match exec r text lastIndex with
      | None => []
      | Some m => m :: execAll fuel' r text (endIndex m)
      end
  end.

(** The well-formed fenced blocks of [text], in order. *)
Definition fenceMatches (text : str) : list MatchResult :=
  execAll (S (length text)) codeBlockRegex text 0.

(** The orders of the code segments of a list of parts, in order. *)
Fixpoint codeOrders (parts : list Part) : list nat :=
  match parts with
  | [] => []
  | TextPart _ :: rest => codeOrders rest
  | CodePart ord :: rest => ord :: codeOrders rest
  end.

(** [s.indexOf(p, from)] *)
Fixpoint findFrom (p s : str) (i : nat) : option nat :=
  if prefixb p s then Some i
  else match s with
       | [] => None
       | _ :: s' => findFrom p s' (S i)
       end.

Definition indexOf (p s : str) (from : nat) : option nat :=
  if Nat.ltb (length s) from then None
  else findFrom p (skipn from s) from.

(** ** Definitions used to state and prove the properties *)

(** A trimmed string is empty or starts and ends with a unit that is not
    white space. *)
Definition trimmed (s : str) : Prop :=
  s = [] \/
  (exists x t, s = x :: t /\ Cls.space x = false) /\
  (exists t y, s = t ++ [y] /\ Cls.space y = false).

(** The text of an optional piece of the opening marker, and the capture
    it leaves. *)
Definition optStr (o : option str) : str :=
  match o with Some s => s | None => [] end.

Definition capOpt (n : nat) (o : option str) : captures :=
  match o with Some s => [(n, s)] | None => [] end.

(** The opening of a filename attribute, up to and with its first quote,
    and the whole attribute. *)
Definition attrOpen : str := u "filename=" ++ [dq].

Definition attrText (o : option str) : str :=
  match o with Some n => attrOpen ++ n ++ [dq] | None => [] end.

(** The parts of a match of [codeBlockRegex]: language tag, white space,
    filename attribute and body, the last one as short as possible. *)
Record FenceShape (s t : str) (c : captures)
       (olang : option str) (ws : str) (oname : option str) (body : str)
  : Prop := {
  shape_text :
    s = fence ++ optStr olang ++ ws ++ attrText oname ++ nl :: body ++ fence ++ t;
  shape_caps : c = (3, body) :: capOpt 2 oname ++ capOpt 1 olang;
  shape_lang :
    forall l, olang = Some l -> l <> [] /\ forallb Cls.word l = true;
  shape_ws : forallb Cls.space ws = true;
  shape_name :
    forall n, oname = Some n -> n <> [] /\ forallb Cls.notQuote n = true;
  shape_body :
    forall l1 l2, body = l1 ++ l2 -> l2 <> [] ->
                  prefixb fence (l2 ++ fence ++ t) = false
}.

(** The blocks pushed for a list of matches, numbered from [ord]. *)
Fixpoint blocksOf (text : str) (ms : list MatchResult) (ord : nat)
  : result (list Block) :=
  match ms with
  | [] => Ok []
  | m :: ms' =>
      b <- blockOf text m ord ;;
      bs <- blocksOf text ms' (S ord) ;;
      Ok (b :: bs)
  end.

(** The parts pushed for a list of matches. *)
Fixpoint partsOf (text : str) (nblocks : nat) (ms : list MatchResult)
         (lastIndex codeIndex : nat) (parts : list Part) : nat * list Part :=
  match ms with
  | [] => (lastIndex, parts)
  | m :: ms' =>
      let parts :=
        if Nat.ltb lastIndex (index m)
        then pushText parts (trim (substring text lastIndex (index m)))
        else parts in
      let '(parts, codeIndex) :=
        if Nat.ltb codeIndex nblocks
        then (parts ++ [CodePart codeIndex], S codeIndex)
        else (parts, codeIndex) in
      partsOf text nblocks ms' (endIndex m) codeIndex parts
  end.

(** A chain of matches: each one is what [exec] finds from the end of the
    one before, and [exec] finds nothing after the last. *)
Inductive Chain (text : str) : nat -> list MatchResult -> Prop :=
| Chain_nil (i : nat) :
    exec codeBlockRegex text i = None -> Chain text i []
| Chain_cons (i : nat) (m : MatchResult) (ms : list MatchResult) :
    exec codeBlockRegex text i = Some m ->
    Chain text (endIndex m) ms ->
    Chain text i (m :: ms).

(** Fuel [fuel] is enough from position [i]. *)
Definition enough (text : str) (i fuel : nat) : Prop :=
  length text < i + fuel /\ 0 < fuel.

(** ** Inputs used as examples *)

(** [name="x"] *)
Definition nameX : str := u "name=" ++ [dq] ++ u "x" ++ [dq].

(** The text of the filename-priority scenario: [Create config.toml], then
    a [toml] block holding [name="x"]. *)
Definition createConfigText : str :=
  u "Create config.toml" ++ [nl] ++ u "```toml" ++ [nl] ++ nameX ++ [nl]
  ++ u "```".

(** The keyword [wrangler.toml], then a [toml] block holding [name="x"]. *)
Definition wranglerText : str :=
  u "wrangler.toml" ++ [nl] ++ u "```toml" ++ [nl] ++ nameX ++ [nl]
  ++ u "```".

(** One block with an explicit [filename="x.ts"] attribute, after a line
    that would name it [other.ts] by inference. *)
Definition explicitNameText : str :=
  u "Create other.ts:" ++ [nl] ++ u "```ts filename=" ++ [dq] ++ u "x.ts"
  ++ [dq; nl] ++ u "let a = 1;" ++ [nl] ++ u "```".

(** Two blocks; only the text before the first one names a file. *)
Definition twoBlocksText : str :=
  u "Create a.ts" ++ [nl] ++ u "```js" ++ [nl] ++ u "x" ++ [nl] ++ u "```"
  ++ [nl] ++ u "```js" ++ [nl] ++ u "y" ++ [nl] ++ u "```".

(** Three markers, none of them opening a well-formed block. *)
Definition threeMarkersText : str := u "```a b``` x ```".

(** A single opening marker. *)
Definition unclosedText : str := u "```ts".

(** One block with an explicit attribute, whose body starts with a line
    that reads like an attribute. *)
Definition attrBodyText : str :=
  u "```js filename=" ++ [dq] ++ u "b" ++ [dq; nl]
  ++ u "filename=" ++ [dq] ++ u "a" ++ [dq; nl] ++ u "rest" ++ [nl] ++ u "```".

(** ** The inference window and the fallback span, as stated *)

(** Where the window of the [i]-th match would start: at the end of the
    match before it, or at the start of the text. *)
Definition windowStart (ms : list MatchResult) (i : nat) : nat :=
  match i with
  | O => 0
  | S j => match nth_error ms j with
           | Some p => endIndex p
           | None => 0
           end
  end.

(** The filename of a block without attribute is the inference run on the
    text between the previous fence and this one. *)
Definition inferenceUsesWindow (text : str) : Prop :=
  forall blocks i m b,
    extractCodeBlocks text = Ok blocks ->
    nth_error (fenceMatches text) i = Some m ->
    nth_error blocks i = Some b ->
    group m 2 = None ->
    filename b =
    inferFrom (substring text (windowStart (fenceMatches text) i) (index m))
              (language b).

(** [s.lastIndexOf(p)] *)
Fixpoint findLastFrom (p s : str) (i : nat) : option nat :=
  match
    match s with
    | [] => None
    | _ :: s' => findLastFrom p s' (S i)
    end
  with
  | Some j => Some j
  | None => if prefixb p s then Some i else None
  end.

Definition lastIndexOf (p s : str) : option nat := findLastFrom p s 0.

(** The fallback gives one artifact, from the first marker to the last,
    with an empty filename. *)
Definition fallbackSpansToLast (text : str) : Prop :=
  exec codeBlockRegex text 0 = None ->
  includes fence text = true ->
  exists i j,
    indexOf fence text 0 = Some i /\
    lastIndexOf fence text = Some j /\
    extractCodeBlocks text =
    Ok [mkBlock (u "typescript") []
                (stripFences (substring text i (j + 3))) 0].

(** The second match and the two blocks of [twoBlocksText]. *)
Definition twoBlocksSecond : MatchResult :=
  Eval vm_compute in nth 1 (fenceMatches twoBlocksText) (mkMatch 0 [] []).

Definition twoBlocksBlocks : list Block :=
  Eval vm_compute in
    match extractCodeBlocks twoBlocksText with
    | Ok bs => bs
    | Err _ => []
    end.

(** The match of [explicitNameText]. *)
Definition explicitNameMatch : MatchResult :=
  Eval vm_compute in nth 0 (fenceMatches explicitNameText) (mkMatch 0 [] []).

(** ** Round trip through the explanation *)

(** The pieces of the fence pattern after the opening marker. *)
Definition langOpt : regex := Opt (Group 1 (Plus Cls.word)).
Definition attrOpt : regex :=
  Opt (seqs [Lit (u "filename=" ++ [dq]); Group 2 (Plus Cls.notQuote); Lit [dq]]).
Definition bodyRegex : regex :=
  Seq (Chr (Cls.only nl)) (Seq (Group 3 (StarLazy Cls.any)) (Lit fence)).

(** No fence marker occurs in [s]. *)
Definition noFence (s : str) : Prop := includes fence s = false.

(** The text between the matches: before the first, between two
    consecutive ones, and after the last. *)
Fixpoint gapsFrom (text : str) (lastIndex : nat) (ms : list MatchResult)
  : list str :=
  match ms with
  | [] => [substringFrom text lastIndex]
  | m :: ms' =>
      substring text lastIndex (index m) :: gapsFrom text (endIndex m) ms'
  end.

(** A well-formed input: every fence marker outside the matched blocks is
    absent, and no artifact is given a filename that holds a marker. *)
Definition wellFormed (text : str) : Prop :=
  Forall noFence (gapsFrom text 0 (fenceMatches text)) /\
  forall blocks, extractCodeBlocks text = Ok blocks ->
                 Forall (fun b => noFence (filename b)) blocks.

(** Feeding the explanation back gives as many artifacts, with the same
    contents. *)
Definition roundTrips (text : str) : Prop :=
  exists r1 r2,
    extract text = Ok r1 /\
    extract (explanation r1) = Ok r2 /\
    map code (artifacts r2) = map code (artifacts r1).

(** No artifact content starts like a filename attribute. *)
Definition noAttrLikeBody (text : str) : Prop :=
  forall blocks, extractCodeBlocks text = Ok blocks ->
                 Forall (fun b => prefixb attrOpen (code b) = false) blocks.

(** What the reconstruction needs of a block. *)
Record goodBlock (b : Block) : Prop := {
  good_lang_nonempty : language b <> [];
  good_lang_word : forallb Cls.word (language b) = true;
  good_code_fence : noFence (code b);
  good_code_trimmed : trimmed (code b);
  good_name_fence : noFence (filename b);
  good_code_attr : prefixb attrOpen (code b) = false
}.

(** Parts whose code segments are [n], [n+1], ... up to the last block, and
    whose text segments are trimmed, not empty and free of markers. *)
Inductive goodParts (blocks : list Block) : nat -> list Part -> Prop :=
| good_nil : goodParts blocks (length blocks) []
| good_text (n : nat) (t : str) (rest : list Part) :
    noFence t -> trimmed t -> t <> [] ->
    goodParts blocks n rest ->
    goodParts blocks n (TextPart t :: rest)
| good_code (n : nat) (b : Block) (rest : list Part) :
    nth_error blocks n = Some b ->
    goodParts blocks (S n) rest ->
    goodParts blocks n (CodePart n :: rest).

(** The separator written after a part that is not the last. *)
Definition sepIf (rest : list Part) : str :=
  match rest with
  | [] => []
  | _ :: _ => sep
  end.

(** The fenced part of a rendered block. *)
Definition fencedOf (b : Block) : str :=
  fence ++ language b ++ [nl] ++ code b ++ [nl] ++ fence.

(** The parts after the splitting loop and the trailing text. *)
Definition finalParts (text : str) (r : nat * list Part) : list Part :=
  let '(lastIndex, parts) := r in
  if Nat.ltb lastIndex (length text)
  then pushText parts (trim (substringFrom text lastIndex))
  else parts.

(** The first unit, and the last unit, is not white space. *)
Definition startsOk (s : str) : Prop :=
  exists x t, s = x :: t /\ Cls.space x = false.

Definition endsOk (s : str) : Prop :=
  exists t y, s = t ++ [y] /\ Cls.space y = false.

(** ** extractExplanation *)

(** The same pattern with the [g] flag, [/```[\s\S]*?```/g], is what
    [extractExplanation] removes. *)
Definition defaultExplanation : str := u "Code generated successfully.".

Definition extractExplanation (text : str) : str :=
  let withoutCode := trim (replaceAll fallbackRegex text) in
  if isEmpty withoutCode then defaultExplanation else withoutCode.

(** ** The first version of the extractor (src/agent.ts of the worker) *)

Module Basic.

Record Block : Type := mkBlock {
  language : str;
  filename : str;
  code : str
}.

(** One iteration of the [while] loop. *)
Definition blockOf (m : MatchResult) : result Block :=
  match group m 3 with
  | None => Err TypeError
  | Some body =>
      Ok (mkBlock (orElse (group m 1) (u "typescript"))
                  (orElse (group m 2) [])
                  (trim body))
  end.

Fixpoint blocksLoop (fuel : nat) (text : str) (lastIndex : nat)
         (blocks : list Block) : result (list Block) :=
  match fuel with
  | O => Err OutOfFuel
  | S fuel' =>
      match exec codeBlockRegex text lastIndex with
      | None => Ok blocks
      | Some m =>
          b <- blockOf m ;;
          blocksLoop fuel' text (endIndex m) (blocks ++ [b])
      end
  end.

Definition fallbackBlocks (text : str) (blocks : list Block) : list Block :=
  if Nat.eqb (length blocks) 0 && includes fence text then
    match jsMatch fallbackRegex text with
    | Some fallbackMatch =>
        blocks ++ [mkBlock (u "typescript") []
                           (stripFences (whole fallbackMatch))]
    | None => blocks
    end
  else blocks.

Definition extractCodeBlocks (text : str) : result (list Block) :=
  blocks <- blocksLoop (S (length text)) text 0 [] ;;
  Ok (fallbackBlocks text blocks).

(** The blocks pushed for a list of matches. *)
Fixpoint blocksOf (ms : list MatchResult) : result (list Block) :=
  match ms with
  | [] => Ok []
  | m :: ms' =>
      b <- blockOf m ;;
      bs <- blocksOf ms' ;;
      Ok (b :: bs)
  end.

End Basic.

(** What the two versions of the extractor agree on, block by block: the
    language and the code, and the filename whenever the first version has
    one. *)
Definition sameBlock (b : Basic.Block) (b' : Block) : Prop :=
  language b' = Basic.language b /\
  code b' = Basic.code b /\
  (Basic.filename b <> [] -> filename b' = Basic.filename b).

(** No suffix of [s] starts a match of [r]. *)
Definition noMatchIn (r : regex) (s : str) : Prop :=
  forall a b, s = a ++ b -> matchAt r b = None.

(** One block in a language for which no filename is inferred. *)
Definition pythonText : str :=
  u "Run this:" ++ [nl] ++ u "```py" ++ [nl] ++ u "print(1)" ++ [nl] ++ u "```".

Definition pythonBlocks : list Block :=
  Eval vm_compute in
    match extractCodeBlocks pythonText with
    | Ok bs => bs
    | Err _ => []
    end.

(** ** Truncation of long context strings *)

(** [s.length > max ? s.substring(0, max) + '...' : s], the form used for
    the documentation context, the project state and each search result. *)
Definition truncate (max : nat) (s : str) : str :=
  if Nat.ltb max (length s) then substring s 0 max ++ u "..." else s.

(** ** The files saved with the project state *)

(** The decimal digits of a number, as string interpolation writes it. *)
Definition natToStr (n : nat) : str :=
  u (NilEmpty.string_of_uint (Nat.to_uint n)).

Record SavedFile : Type := mkFile {
  path : str;
  content : str
}.

(** [block.filename || `file${i + 1}.ts`] *)
Definition filePath (block : Block) (i : nat) : str :=
  if isEmpty (filename block)
  then u "file" ++ natToStr (i + 1) ++ u ".ts"
  else filename block.

(** [codeBlocks.map((block, i) => ({ path: ..., content: block.code }))],
    from index [i] on. *)
Fixpoint savedFilesFrom (i : nat) (codeBlocks : list Block) : list SavedFile :=
  match codeBlocks with
  | [] => []
  | block :: rest =>
      mkFile (filePath block i) (code block) :: savedFilesFrom (S i) rest
  end.

Definition savedFiles (codeBlocks : list Block) : list SavedFile :=
  savedFilesFrom 0 codeBlocks.

(** ** The single-slot project state *)

Module ProjectState.

(** A row of the table [project_state]. *)
Record Row : Type := mkRow {
  id : nat;
  state : str;
  updated_at : nat
}.

(** The table and the counter of its AUTOINCREMENT key. *)
Record Table : Type := mkTable {
  rows : list Row;
  nextId : nat
}.

Definition empty : Table := mkTable [] 1.

(** [ORDER BY updated_at DESC LIMIT 1] is a choice [select] of the SQL
    engine: no row of an empty table, and otherwise a row that no other
    row exceeds in [updated_at].  Which one it is among equal ones is left
    to the engine. *)
Definition isLatest (select : list Row -> option Row) : Prop :=
  forall rs,
    match select rs with
    | Some r => In r rs /\ Forall (fun r' => updated_at r' <= updated_at r) rs
    | None => rs = []
    end.

(** One such choice: the earliest row among those with the greatest
    [updated_at]. *)
Fixpoint latest (rs : list Row) : option Row :=
  match rs with
  | [] => None
  | r :: rs' =>
      match latest rs' with
      | Some r' => if Nat.ltb (updated_at r) (updated_at r') then Some r' else Some r
      | None => Some r
      end
  end.

(** [saveProjectState], given [JSON.stringify(state)] and [Date.now()]:
    update the selected row when there is one, insert otherwise.  The
    statements are taken to succeed (a failing one is logged and
    dropped by the source). *)
Definition saveProjectState (select : list Row -> option Row) (t : Table)
           (stateJson : str) (timestamp : nat) : Table :=
  match select (rows t) with
  | Some existing =>
      mkTable (map (fun r => if Nat.eqb (id r) (id existing)
                             then mkRow (id r) stateJson timestamp
                             else r)
                   (rows t))
              (nextId t)
  | None =>
      mkTable (rows t ++ [mkRow (nextId t) stateJson timestamp])
              (S (nextId t))
  end.

(** [getProjectState], up to [JSON.parse]: the text of the selected row;
    [None] stands for the empty record returned when there is no row. *)
Definition getProjectState (select : list Row -> option Row) (t : Table)
  : option str :=
  option_map state (select (rows t)).

(** A run of saves, oldest first. *)
Definition saveAll (select : list Row -> option Row) (t : Table)
           (saves : list (str * nat)) : Table :=
  fold_left (fun t s => saveProjectState select t (fst s) (snd s)) saves t.

End ProjectState.

(** ** The Worker entry point *)

Module Worker.

(** A header list; names compare without regard to ASCII case. *)
Definition Headers : Type := list (str * str).

Definition sameName (a b : str) : bool := strEqb (toLowerCase a) (toLowerCase b).

Fixpoint join (sepr : str) (vs : list str) : str :=
  match vs with
  | [] => []
  | [v] => v
  | v :: vs' => v ++ sepr ++ join sepr vs'
  end.

Fixpoint valuesOf (name : str) (hs : Headers) : list str :=
  match hs with
  | [] => []
  | (k, v) :: hs' =>
      if sameName k name then v :: valuesOf name hs' else valuesOf name hs'
  end.

(** [headers.get(name)]: the values under the name, joined by a comma and
    a space; [None] for null. *)
Definition get (name : str) (hs : Headers) : option str :=
  match valuesOf name hs with
  | [] => None
  | vs => Some (join (u ", ") vs)
  end.

Fixpoint remove (name : str) (hs : Headers) : Headers :=
  match hs with
  | [] => []
  | (k, v) :: hs' =>
      if sameName k name then remove name hs' else (k, v) :: remove name hs'
  end.

(** [headers.set(name, value)]: the first header of that name takes the
    value and the others go; without one, the header is appended. *)
Fixpoint set (name value : str) (hs : Headers) : Headers :=
  match hs with
  | [] => [(name, value)]
  | (k, v) :: hs' =>
      if sameName k name then (k, value) :: remove name hs'
      else (k, v) :: set name value hs'
  end.

Definition corsHeaders : Headers :=
  [(u "Access-Control-Allow-Origin", u "*");
   (u "Access-Control-Allow-Methods", u "GET, POST, OPTIONS");
   (u "Access-Control-Allow-Headers", u "Content-Type")].

(** [{ ...corsHeaders, "Content-Type": "application/json" }] *)
Definition jsonHeaders : Headers :=
  corsHeaders ++ [(u "Content-Type", u "application/json")].

(** The headers of the 404 answer: its body is a string and no content
    type is given, so the constructor of the response adds one. *)
Definition notFoundHeaders : Headers :=
  corsHeaders ++ [(u "content-type", u "text/plain;charset=UTF-8")].

Inductive Body : Type :=
| NoBody
| NotFoundText
| PopulatedJson
| PopulateFailedJson (message : str)
| HealthJson
| AgentBody (n : nat).

(** A response; its body is [NoBody] when it is null. *)
Record Response : Type := mkResponse {
  status : nat;
  headers : Headers;
  body : Body
}.

(** How a call ends without a response: what was thrown. *)
Inductive Exception : Type :=
| InvalidURL
| ForwardFailed
| StatusOutOfRange
| BodyNotAllowed.

Inductive Outcome : Type :=
| Returns (response : Response)
| Throws (e : Exception).

(** The statuses that admit no body. *)
Definition nullBodyStatus (status : nat) : bool :=
  Nat.eqb status 101 || Nat.eqb status 103 || Nat.eqb status 204
  || Nat.eqb status 205 || Nat.eqb status 304.

Definition isNull (b : Body) : bool :=
  match b with NoBody => true | _ => false end.

(** [new Response(body, { status, headers })] with no WebSocket: a
    RangeError unless the status lies between 200 and 599, a TypeError
    for a body with a status that admits none. *)
Definition newResponse (status : nat) (headers : Headers) (body : Body)
  : Outcome :=
  if negb (Nat.leb 200 status && Nat.leb status 599) then
    Throws StatusOutOfRange
  else if nullBodyStatus status && negb (isNull body) then
    Throws BodyNotAllowed
  else Returns (mkResponse status headers body).

(** What the Worker reads of a request: the method, and the origin, the
    path and the query string of its URL. *)
Record Request : Type := mkRequest {
  method : str;
  origin : str;
  pathname : str;
  query : str
}.

(** The request handed to the Durable Object: the method and the URL,
    as [agentUrl.toString()] gives it. *)
Record Forwarded : Type := mkForwarded {
  fwdMethod : str;
  target : str
}.

(** [s.replace(p, r)] for a string pattern [p]: the first occurrence. *)
Definition replaceFirstStr (p r s : str) : str :=
  match findFrom p s 0 with
  | Some i => firstn i s ++ r ++ skipn (i + length p) s
  | None => s
  end.

Definition agentPath (pathname : str) : str :=
  if strEqb pathname (u "/agent") then u "/"
  else replaceFirstStr (u "/agent") [] pathname.

(** [Object.entries(corsHeaders).forEach(([key, value]) => newHeaders.set(key, value))] *)
Definition withCors (hs : Headers) : Headers :=
  fold_left (fun h kv => set (fst kv) (snd kv) h) corsHeaders hs.

(** [fetch].  The platform is given by three arguments:
    - [populate] is how [populateVectorize] ended: [None] when it
      resolved, the error message when it threw;
    - [newURL input base] is [new URL(input, base).toString()], [None]
      when the constructor throws: the input is parsed as a reference
      relative to the base, so that an input starting with two slashes
      names a host of its own, or no valid one;
    - [agent] is the construction of the request and the call of the
      stub, [stub.fetch(new Request(...))], which gives the response of
      the Durable Object or throws. *)
Definition fetch (request : Request) (populate : option str)
           (newURL : str -> str -> option str)
           (agent : Forwarded -> Outcome) : Outcome :=
  if strEqb (method request) (u "OPTIONS") then
    newResponse 200 corsHeaders NoBody
  else if strEqb (pathname request) (u "/populate")
          && strEqb (method request) (u "POST") then
    match populate with
    | None => newResponse 200 jsonHeaders PopulatedJson
    | Some message => newResponse 500 jsonHeaders (PopulateFailedJson message)
    end
  else if strEqb (pathname request) (u "/agent")
          || prefixb (u "/agent/") (pathname request) then
    match newURL (agentPath (pathname request) ++ query request)
                 (origin request) with
    | None => Throws InvalidURL
    | Some agentUrl =>
        match agent (mkForwarded (method request) agentUrl) with
        | Throws e => Throws e
        | Returns response =>
            newResponse (status response) (withCors (headers response))
                        (body response)
        end
    end
  else if strEqb (pathname request) (u "/health") then
    newResponse 200 jsonHeaders HealthJson
  else
    newResponse 404 notFoundHeaders NotFoundText.

End Worker.

(** ** The chat view of the frontend *)

(** [s.replace(regex, f)] with the [g] flag: every match is replaced by
    what [f] makes of its captures, scanning left to right; [skip] counts
    the units of the current match still to drop.  After an empty match
    the scan moves on by one unit. *)
Fixpoint replaceWithFrom (r : regex) (f : captures -> str) (s : str)
         (skip : nat) : str :=
  match s with
  | [] =>
      match skip with
      | S _ => []
      | O =>
          match matchAt r [] with
          | Some (_, c) => f c
          | None => []
          end
      end
  | x :: s' =>
      match skip with
      | S n => replaceWithFrom r f s' n
      | O =>
          match matchAt r s with
          | Some (rest, c) =>
              match length s - length rest with
              | S n => f c ++ replaceWithFrom r f s' n
              | O => f c ++ x :: replaceWithFrom r f s' 0
              end
          | None => x :: replaceWithFrom r f s' 0
          end
      end
  end.

Definition replaceWith (r : regex) (f : captures -> str) (s : str) : str :=
  replaceWithFrom r f s 0.

Module Frontend.

(** [/\n/g] *)
Definition lineBreakRegex : regex := Chr (Cls.only nl).

(** [/```(\w+)?\n?([\s\S]*?)```/g] *)
Definition codeBlockRegex : regex :=
  seqs [Lit fence;
        Opt (Group 1 (Plus Cls.word));
        Opt (Chr (Cls.only nl));
        Group 2 (StarLazy Cls.any);
        Lit fence].

(** [[^`]] *)
Definition notBacktick (x : cu) : bool := negb (N.eqb x 96).

(** [/`([^`]+)`/g] *)
Definition inlineCodeRegex : regex :=
  seqs [Chr (Cls.only 96%N); Group 1 (Plus notBacktick);
        Chr (Cls.only 96%N)].

(** What the serialisation of a text node makes of one unit. *)
Definition escapeUnit (x : cu) : str :=
  if N.eqb x 38 then u "&amp;"
  else if N.eqb x 60 then u "&lt;"
  else if N.eqb x 62 then u "&gt;"
  else if N.eqb x 160 then u "&nbsp;"
  else [x].

(** [escapeHtml]: the text is made the text content of an element, whose
    [innerHTML] is read back. *)
Definition escapeHtml (text : str) : str := flat_map escapeUnit text.

(** The callback of the code block replacement; an unset group reads as
    the empty string where the source calls a method on it (the second
    group always takes part in a match). *)
Definition renderCodeBlock (c : captures) : str :=
  u "<pre><code class=" ++ [dq] ++ u "language-"
    ++ orElse (lookup 1 c) (u "typescript") ++ [dq] ++ u ">"
    ++ escapeHtml (trim (optStr (lookup 2 c)))
    ++ u "</code></pre>".

(** The replacement pattern of the inline code: the first group between
    the tags. *)
Definition renderInlineCode (c : captures) : str :=
  u "<code>" ++ optStr (lookup 1 c) ++ u "</code>".

Definition formatMessage (content : str) : str :=
  let formatted := replaceWith lineBreakRegex (fun _ => u "<br>") content in
  let formatted := replaceWith codeBlockRegex renderCodeBlock formatted in
  let formatted := replaceWith inlineCodeRegex renderInlineCode formatted in
  u "<p>" ++ formatted ++ u "</p>".

End Frontend.

(** The line breaks of a text written as [<br>] tags. *)
Definition lineBreaks (s : str) : str :=
  flat_map (fun x => if Cls.only nl x then u "<br>" else [x]) s.


(** Every captured string is made of units with the property [P]. *)
Definition capturesIn (P : cu -> Prop) (c : captures) : Prop :=
  Forall (fun kv => Forall P (snd kv)) c.

(** ** The explanation, segment by segment *)

(** Segments written one after the other, with one blank line between
    two consecutive ones and none before the first or after the last. *)
Fixpoint joinSegments (segments : list str) : str :=
  match segments with
  | [] => []
  | s :: rest =>
      match rest with
      | [] => s
      | _ :: _ => s ++ sep ++ joinSegments rest
      end
  end.

(** A prose segment: the text trimmed, dropped when nothing is left. *)
Definition proseSegment (g : str) : list str :=
  if isEmpty (trim g) then [] else [trim g].

(** A code segment: a header line with the file name between two pairs
    of stars and a blank line (left out for an empty name, for the
    placeholder name and for the default entry point), then a fenced block
    with the language and the content of the artifact. *)
Definition canonicalRendering (b : Block) : str :=
  (if isEmpty (filename b) || strEqb (filename b) (u "File")
      || strEqb (filename b) (u "src/index.ts")
   then []
   else u "**" ++ filename b ++ u "**" ++ [nl; nl])
  ++ u "```" ++ language b ++ [nl] ++ code b ++ [nl] ++ u "```".

(** The segments of an input, from the texts around its blocks and its
    artifacts: the prose before a block, the rendering of the artifact of
    that block, and so on in the order of the artifacts, then the prose
    after the last block. *)
Fixpoint segmentsOf (gaps : list str) (blocks : list Block) : list str :=
  match gaps with
  | [] => []
  | g :: gaps' =>
      match blocks with
      | [] => proseSegment g
      | b :: blocks' =>
          proseSegment g ++ canonicalRendering b :: segmentsOf gaps' blocks'
      end
  end.

(** What the rebuilding loop writes for one part, the separator apart. *)
Definition segmentOf (codeBlocks : list Block) (part : Part) : str :=
  match part with
  | TextPart content => content
  | CodePart ord =>
      match nth_error codeBlocks ord with
      | Some block => renderBlock block
      | None => []
      end
  end.

(** The parts pushed from a list of matches on, the trailing text
    included. *)
Fixpoint partsFrom (text : str) (lastIndex codeIndex : nat)
         (ms : list MatchResult) : list Part :=
  match ms with
  | [] =>
      if Nat.ltb lastIndex (length text)
      then pushText [] (trim (substringFrom text lastIndex))
      else []
  | m :: ms' =>
      (if Nat.ltb lastIndex (index m)
       then pushText [] (trim (substring text lastIndex (index m)))
       else [])
      ++ CodePart codeIndex :: partsFrom text (endIndex m) (S codeIndex) ms'
  end.

(** The code parts of a list refer to artifacts of the list. *)
Definition validParts (codeBlocks : list Block) (parts : list Part) : Prop :=
  Forall (fun part =>
            match part with
            | TextPart _ => True
            | CodePart ord => ord < length codeBlocks
            end) parts.

(** The explanation of the two-block example. *)
Definition twoBlocksExplanation : str :=
  u "Create a.ts" ++ sep
    ++ u "**a.ts**" ++ sep ++ u "```js" ++ [nl] ++ u "x" ++ [nl] ++ u "```"
    ++ sep
    ++ u "**a.ts**" ++ sep ++ u "```js" ++ [nl] ++ u "y" ++ [nl] ++ u "```".

(** * Properties *)

(** ** Lists and prefixes *)

Lemma firstn_consumed (A : Type) (l t : list A) :
  firstn (length (l ++ t) - length t) (l ++ t) = l.
Proof.
  rewrite length_app.
  replace (length l + length t - length t) with (length l) by lia.
  rewrite firstn_app, Nat.sub_diag, firstn_all. simpl.
  apply app_nil_r.
Qed.

Lemma skipn_length_app (A : Type) (l t : list A) :
  skipn (length l) (l ++ t) = t.
Proof.
  rewrite skipn_app, Nat.sub_diag, skipn_all. reflexivity.
Qed.

Lemma prefixb_app (p t : str) : prefixb p (p ++ t) = true.
Proof.
  induction p as [|a p IH]; simpl; [reflexivity|].
  rewrite N.eqb_refl. exact IH.
Qed.

Lemma prefixb_true (p s : str) :
  prefixb p s = true -> s = p ++ skipn (length p) s.
Proof.
  revert s; induction p as [|a p IH]; intros s H; simpl in *.
  - reflexivity.
  - destruct s as [|b s]; [discriminate|].
    apply andb_true_iff in H as [Hab Hp].
    apply N.eqb_eq in Hab. subst b.
    simpl. f_equal. apply IH, Hp.
Qed.

Lemma prefixb_weaken (p s t : str) :
  prefixb p s = true -> prefixb p (s ++ t) = true.
Proof.
  intros H. apply prefixb_true in H. rewrite H.
  rewrite <- app_assoc. apply prefixb_app.
Qed.

Lemma includes_split (p a b : str) :
  prefixb p b = true -> includes p (a ++ b) = true.
Proof.
  intros H. induction a as [|x a IH]; simpl.
  - destruct b; simpl in *; rewrite H; reflexivity.
  - rewrite IH. apply orb_true_r.
Qed.

Lemma includes_true (p s : str) :
  includes p s = true -> exists a b, s = a ++ b /\ prefixb p b = true.
Proof.
  induction s as [|x s IH]; simpl; intros H.
  - rewrite orb_false_r in H. exists [], []. split; [reflexivity|exact H].
  - apply orb_true_iff in H as [H|H].
    + exists [], (x :: s). split; [reflexivity|exact H].
    + destruct (IH H) as (a & b & -> & Hb).
      exists (x :: a), b. split; [reflexivity|exact Hb].
Qed.

Lemma includes_false_split (p a b : str) :
  includes p (a ++ b) = false -> prefixb p b = false.
Proof.
  intros H. destruct (prefixb p b) eqn:E; [|reflexivity].
  rewrite (includes_split p a b E) in H. discriminate.
Qed.

Lemma includes_false_mid (p a b c : str) :
  includes p (a ++ b ++ c) = false -> includes p b = false.
Proof.
  intros H. destruct (includes p b) eqn:E; [|reflexivity].
  apply includes_true in E as (b1 & b2 & -> & Hp).
  assert (includes p (a ++ (b1 ++ b2) ++ c) = true); [|congruence].
  replace (a ++ (b1 ++ b2) ++ c) with ((a ++ b1) ++ (b2 ++ c))
    by (rewrite <- !app_assoc; reflexivity).
  apply includes_split, prefixb_weaken, Hp.
Qed.

(** A fence cannot start inside or at the end of fence-free text that is
    followed by a newline. *)
Lemma no_fence_before_nl (g s : str) :
  includes fence g = false -> prefixb fence (g ++ nl :: s) = false.
Proof.
  intros H.
  destruct g as [|a [|b [|c g]]]; simpl in *.
  - reflexivity.
  - destruct (N.eqb a 96); reflexivity.
  - destruct (N.eqb a 96), (N.eqb b 96); reflexivity.
  - apply orb_false_iff in H as [H _].
    destruct (N.eqb a 96), (N.eqb b 96), (N.eqb c 96);
      simpl in *; try reflexivity; discriminate.
Qed.

Lemma includes_tail (p : str) (x : cu) (s : str) :
  includes p (x :: s) = false -> includes p s = false.
Proof.
  simpl. intros H. apply orb_false_iff in H as [_ H]. exact H.
Qed.

(** ** trim *)

Lemma dropSpace_head (s : str) :
  dropSpace s = [] \/ exists x t, dropSpace s = x :: t /\ Cls.space x = false.
Proof.
  induction s as [|x s IH]; simpl.
  - left; reflexivity.
  - destruct (Cls.space x) eqn:E; [exact IH|].
    right. exists x, s. split; [reflexivity|exact E].
Qed.

Lemma dropSpace_fix (x : cu) (t : str) :
  Cls.space x = false -> dropSpace (x :: t) = x :: t.
Proof. intros H. simpl. rewrite H. reflexivity. Qed.

Lemma dropSpace_app_last (a : str) (x : cu) :
  Cls.space x = false -> exists a', dropSpace (a ++ [x]) = a' ++ [x].
Proof.
  intros Hx. induction a as [|y a IH]; simpl.
  - rewrite Hx. exists []. reflexivity.
  - destruct (Cls.space y); [exact IH|].
    exists (y :: a). reflexivity.
Qed.


Lemma trim_trimmed (s : str) : trimmed (trim s).
Proof.
  unfold trim, trimmed.
  destruct (dropSpace_head s) as [E|(x & t & E & Hx)]; rewrite E.
  - left. reflexivity.
  - destruct (dropSpace_head (rev (x :: t))) as [E'|(y & t' & E' & Hy)].
    + simpl in E'. destruct (dropSpace_app_last (rev t) x Hx) as (a' & Ha).
      rewrite Ha in E'. destruct a'; discriminate.
    + right. rewrite E'. split.
      * simpl rev in E'.
        destruct (dropSpace_app_last (rev t) x Hx) as (a' & Ha).
        rewrite Ha in E'. rewrite <- E', rev_app_distr. simpl.
        exists x, (rev a'). split; [reflexivity|exact Hx].
      * exists (rev t'), y. split; [reflexivity|exact Hy].
Qed.

Lemma trim_of_trimmed (s : str) : trimmed s -> trim s = s.
Proof.
  unfold trim. intros [->|[(x & t & E & Hx) (t' & y & E' & Hy)]].
  - reflexivity.
  - rewrite E at 1. rewrite (dropSpace_fix x t Hx), <- E, E'.
    rewrite rev_app_distr. simpl. rewrite Hy.
    simpl. rewrite rev_involutive. reflexivity.
Qed.

Lemma trim_idempotent (s : str) : trim (trim s) = trim s.
Proof. apply trim_of_trimmed, trim_trimmed. Qed.

Lemma dropSpace_suffix (s : str) : exists a, s = a ++ dropSpace s.
Proof.
  induction s as [|x s (a & IH)]; simpl.
  - exists []. reflexivity.
  - destruct (Cls.space x).
    + exists (x :: a). simpl. f_equal. exact IH.
    + exists []. reflexivity.
Qed.

(** [trim] keeps a contiguous part of its argument. *)
Lemma trim_infix (s : str) : exists a b, s = a ++ trim s ++ b.
Proof.
  unfold trim.
  destruct (dropSpace_suffix s) as (a & Ha).
  destruct (dropSpace_suffix (rev (dropSpace s))) as (b & Hb).
  exists a, (rev b).
  rewrite <- rev_app_distr, <- Hb, rev_involutive. exact Ha.
Qed.

Lemma trim_no_fence (p s : str) :
  includes p s = false -> includes p (trim s) = false.
Proof.
  intros H. destruct (trim_infix s) as (a & b & E).
  rewrite E in H. eapply includes_false_mid, H.
Qed.

(** ** The matcher *)

Section MatcherFacts.
Variable A : Type.
Implicit Types (k : str -> captures -> option A) (j : str -> option A).

Lemma run_Lit (l s : str) (c : captures) k :
  run (Lit l) s c k =
  if prefixb l s then k (skipn (length l) s) c else None.
Proof.
  revert s; induction l as [|a l IH]; intros s; simpl.
  - reflexivity.
  - destruct s as [|x s]; [reflexivity|]. simpl.
    unfold Cls.only. destruct (N.eqb x a); simpl; [apply IH|reflexivity].
Qed.

Lemma starG_inv (p : cu -> bool) (s : str) j (a : A) :
  starG p s j = Some a ->
  exists l t, s = l ++ t /\ forallb p l = true /\ j t = Some a.
Proof.
  induction s as [|x s IH]; simpl; intros H.
  - exists [], []. auto.
  - destruct (p x) eqn:Hp.
    + destruct (starG p s j) eqn:E.
      * injection H as ->. destruct (IH eq_refl) as (l & t & -> & Hl & Hj).
        exists (x :: l), t. simpl. rewrite Hp. auto.
      * exists [], (x :: s). auto.
    + exists [], (x :: s). auto.
Qed.

Lemma starG_app_some (p : cu -> bool) (l t : str) j (a : A) :
  forallb p l = true -> starG p t j = Some a -> starG p (l ++ t) j = Some a.
Proof.
  induction l as [|x l IH]; simpl; intros Hl H; [exact H|].
  apply andb_true_iff in Hl as [Hx Hl].
  rewrite Hx, (IH Hl H). reflexivity.
Qed.

Lemma starG_stop (p : cu -> bool) (x : cu) (t : str) j :
  p x = false -> starG p (x :: t) j = j (x :: t).
Proof. intros H. simpl. rewrite H. reflexivity. Qed.

Lemma starL_inv (p : cu -> bool) (s : str) j (a : A) :
  starL p s j = Some a ->
  exists l t, s = l ++ t /\ forallb p l = true /\ j t = Some a /\
    forall l1 l2, l = l1 ++ l2 -> l2 <> [] -> j (l2 ++ t) = None.
Proof.
  induction s as [|x s IH]; simpl; intros H.
  - destruct (j []) eqn:E; [|discriminate]. injection H as ->.
    exists [], []. repeat split; auto.
    intros l1 l2 E' Hn. destruct l1, l2; try discriminate. congruence.
  - destruct (j (x :: s)) eqn:E.
    + injection H as ->. exists [], (x :: s). repeat split; auto.
      intros l1 l2 E' Hn. destruct l1, l2; try discriminate. congruence.
    + destruct (p x) eqn:Hp; [|discriminate].
      destruct (IH H) as (l & t & -> & Hl & Hj & Hmin).
      exists (x :: l), t. simpl. rewrite Hp. repeat split; auto.
      intros l1 l2 E' Hn. destruct l1 as [|y l1]; simpl in E'.
      * subst l2. exact E.
      * injection E' as _ E'. eapply Hmin; eauto.
Qed.

Lemma starL_first (p : cu -> bool) (l t : str) j (a : A) :
  forallb p l = true -> j t = Some a ->
  (forall l1 l2, l = l1 ++ l2 -> l2 <> [] -> j (l2 ++ t) = None) ->
  starL p (l ++ t) j = Some a.
Proof.
  induction l as [|x l IH]; intros Hl Hj Hmin.
  - simpl. destruct t; simpl; rewrite Hj; reflexivity.
  - simpl in Hl. apply andb_true_iff in Hl as [Hx Hl].
    assert (E0 : j (x :: l ++ t) = None)
      by (apply (Hmin [] (x :: l) eq_refl); discriminate).
    simpl. rewrite E0, Hx. apply IH; auto.
    intros l1 l2 E Hn. apply (Hmin (x :: l1) l2); [rewrite E; reflexivity|exact Hn].
Qed.

(** Whatever a pattern does, the continuation is entered on a suffix of
    the input. *)
Lemma run_inv (r : regex) :
  forall (s : str) (c : captures) k (a : A),
    run r s c k = Some a ->
    exists l t c', s = l ++ t /\ k t c' = Some a.
Proof.
  induction r as [|p|r1 IH1 r2 IH2|r1 IH1 r2 IH2|r1 IH1|p|p|n r1 IH1];
    intros s c k a H; simpl in H.
  - exists [], s, c. auto.
  - destruct s as [|x s]; [discriminate|].
    destruct (p x); [|discriminate]. exists [x], s, c. auto.
  - apply IH1 in H as (l1 & t1 & c1 & -> & H).
    apply IH2 in H as (l2 & t2 & c2 & -> & H).
    exists (l1 ++ l2), t2, c2. rewrite <- app_assoc. auto.
  - destruct (run r1 s c k) eqn:E.
    + injection H as ->. apply IH1 in E. exact E.
    + apply IH2 in H. exact H.
  - destruct (run r1 s c k) eqn:E.
    + injection H as ->. apply IH1 in E. exact E.
    + exists [], s, c. auto.
  - apply starG_inv in H as (l & t & -> & _ & H). exists l, t, c. auto.
  - apply starL_inv in H as (l & t & -> & _ & H & _). exists l, t, c. auto.
  - apply IH1 in H as (l & t & c' & -> & H). eauto.
Qed.
End MatcherFacts.

Lemma ci_backtick (x : cu) : Cls.ci 96%N x = Cls.only 96%N x.
Proof.
  unfold Cls.ci, Cls.only, Cls.lower, Cls.between.
  destruct (65 <=? x)%N eqn:E1, (x <=? 90)%N eqn:E2; simpl; try reflexivity.
  apply N.leb_le in E1, E2.
  change (Cls.lower 96%N) with 96%N.
  destruct (N.eqb_spec (x + 32) 96), (N.eqb_spec x 96); try reflexivity; lia.
Qed.

Lemma run_LitCi_fence (A : Type) (s : str) (c : captures)
      (k : str -> captures -> option A) :
  run (LitCi fence) s c k = run (Lit fence) s c k.
Proof.
  simpl.
  destruct s as [|x s]; [reflexivity|]. rewrite ci_backtick.
  destruct (Cls.only 96%N x); [|reflexivity].
  destruct s as [|y s]; [reflexivity|]. rewrite ci_backtick.
  destruct (Cls.only 96%N y); [|reflexivity].
  destruct s as [|z s]; [reflexivity|]. rewrite ci_backtick.
  reflexivity.
Qed.

(** ** search and exec *)

Lemma matchAt_suffix (r : regex) (s t : str) (c : captures) :
  matchAt r s = Some (t, c) -> exists l, s = l ++ t.
Proof.
  unfold matchAt. intros H.
  apply run_inv in H as (l & t' & c' & -> & H).
  injection H as -> ->. eauto.
Qed.

Lemma search_eq (r : regex) (s : str) (i : nat) :
  search r s i =
  match matchAt r s with
  | Some (s', c) => Some (mkMatch i (firstn (length s - length s') s) c)
  | None => match s with
            | [] => None
            | _ :: s' => search r s' (S i)
            end
  end.
Proof. destruct s; reflexivity. Qed.

Lemma search_inv (r : regex) :
  forall (s : str) (i : nat) (m : MatchResult),
    search r s i = Some m ->
    exists pre t, s = pre ++ whole m ++ t /\ index m = i + length pre /\
      matchAt r (whole m ++ t) = Some (t, groups m) /\
      forall p1 p2, pre = p1 ++ p2 -> p2 <> [] ->
                    matchAt r (p2 ++ whole m ++ t) = None.
Proof.
  assert (Hnil : forall (p1 p2 : str), [] = p1 ++ p2 -> p2 <> [] -> False).
  { intros p1 p2 E Hn. destruct p1, p2; try discriminate. congruence. }
  induction s as [|x s IH]; intros i m H; rewrite search_eq in H.
  - destruct (matchAt r []) as [[t c]|] eqn:E; [|discriminate].
    destruct (matchAt_suffix _ _ _ _ E) as (l & El).
    destruct l, t; try discriminate.
    injection H as <-. simpl.
    exists [], []. repeat split; auto.
    intros p1 p2 E' Hn. destruct (Hnil _ _ E' Hn).
  - destruct (matchAt r (x :: s)) as [[t c]|] eqn:E.
    + destruct (matchAt_suffix _ _ _ _ E) as (l & El).
      rewrite El in H, E. rewrite firstn_consumed in H.
      injection H as <-. simpl.
      exists [], t. repeat split; auto.
      intros p1 p2 E' Hn. destruct (Hnil _ _ E' Hn).
    + destruct (IH _ _ H) as (pre & t & Es & Hi & Hm & Hmin).
      exists (x :: pre), t. simpl. repeat split.
      * f_equal. exact Es.
      * rewrite Hi. lia.
      * exact Hm.
      * intros p1 p2 E' Hn. destruct p1 as [|y p1]; simpl in E'.
        -- subst p2. simpl. rewrite <- Es. exact E.
        -- injection E' as _ E'. eapply Hmin; eauto.
Qed.

Lemma search_hit (r : regex) (l t : str) (c : captures) (i : nat) :
  matchAt r (l ++ t) = Some (t, c) ->
  search r (l ++ t) i = Some (mkMatch i l c).
Proof.
  intros H. rewrite search_eq, H, firstn_consumed. reflexivity.
Qed.

Lemma search_skip (r : regex) :
  forall (pre s : str) (i : nat),
    (forall p1 p2, pre = p1 ++ p2 -> p2 <> [] -> matchAt r (p2 ++ s) = None) ->
    search r (pre ++ s) i = search r s (i + length pre).
Proof.
  induction pre as [|x pre IH]; intros s i H.
  - simpl. f_equal. lia.
  - rewrite search_eq.
    rewrite (H [] (x :: pre) eq_refl) by discriminate.
    simpl. rewrite IH.
    + f_equal. lia.
    + intros p1 p2 E Hn. apply (H (x :: p1) p2); [rewrite E; reflexivity|exact Hn].
Qed.

Lemma search_none (r : regex) (s : str) (i : nat) :
  (forall a b, s = a ++ b -> matchAt r b = None) -> search r s i = None.
Proof.
  revert i; induction s as [|x s IH]; intros i H; rewrite search_eq.
  - rewrite (H [] [] eq_refl). reflexivity.
  - rewrite (H [] (x :: s) eq_refl). apply IH.
    intros a b E. apply (H (x :: a) b). rewrite E. reflexivity.
Qed.

Lemma exec_app (r : regex) (a s : str) :
  exec r (a ++ s) (length a) = search r s (length a).
Proof.
  unfold exec. rewrite length_app.
  destruct (Nat.ltb_spec (length a + length s) (length a)); [lia|].
  rewrite skipn_length_app. reflexivity.
Qed.

(** What a successful [exec] says about the text. *)
Lemma exec_inv (r : regex) (text : str) (i : nat) (m : MatchResult) :
  exec r text i = Some m ->
  exists a pre t,
    text = a ++ pre ++ whole m ++ t /\ length a = i /\
    index m = i + length pre /\
    matchAt r (whole m ++ t) = Some (t, groups m) /\
    forall p1 p2, pre = p1 ++ p2 -> p2 <> [] ->
                  matchAt r (p2 ++ whole m ++ t) = None.
Proof.
  unfold exec. intros H.
  destruct (Nat.ltb_spec (length text) i) as [|Hle]; [discriminate|].
  apply search_inv in H as (pre & t & Es & Hi & Hm & Hmin).
  exists (firstn i text), pre, t. repeat split; auto.
  - rewrite <- Es. symmetry. apply firstn_skipn.
  - apply firstn_length_le, Hle.
Qed.

(** ** Shape of a match of the fence pattern *)

Section RunEquations.
Variable A : Type.
Implicit Types (k : str -> captures -> option A).

Lemma run_Seq (r1 r2 : regex) (s : str) (c : captures) k :
  run (Seq r1 r2) s c k = run r1 s c (fun s' c' => run r2 s' c' k).
Proof. reflexivity. Qed.

Lemma run_Opt (r : regex) (s : str) (c : captures) k :
  run (Opt r) s c k =
  match run r s c k with Some a => Some a | None => k s c end.
Proof. reflexivity. Qed.

Lemma run_Group (n : nat) (r : regex) (s : str) (c : captures) k :
  run (Group n r) s c k =
  run r s c (fun s' c' => k s' ((n, firstn (length s - length s') s) :: c')).
Proof. reflexivity. Qed.

Lemma run_Chr (p : cu -> bool) (s : str) (c : captures) k :
  run (Chr p) s c k =
  match s with
  | x :: s' => if p x then k s' c else None
  | [] => None
  end.
Proof. reflexivity. Qed.

Lemma run_Star (p : cu -> bool) (s : str) (c : captures) k :
  run (Star p) s c k = starG p s (fun s' => k s' c).
Proof. reflexivity. Qed.

Lemma run_StarLazy (p : cu -> bool) (s : str) (c : captures) k :
  run (StarLazy p) s c k = starL p s (fun s' => k s' c).
Proof. reflexivity. Qed.

Lemma run_Plus_inv (p : cu -> bool) (s : str) (c : captures) k (a : A) :
  run (Plus p) s c k = Some a ->
  exists l t, s = l ++ t /\ l <> [] /\ forallb p l = true /\ k t c = Some a.
Proof.
  unfold Plus. rewrite run_Seq, run_Chr. intros H.
  destruct s as [|x s]; [discriminate|].
  destruct (p x) eqn:Hp; [|discriminate].
  rewrite run_Star in H.
  apply starG_inv in H as (l & t & -> & Hl & H).
  exists (x :: l), t. simpl. rewrite Hp. repeat split; auto. discriminate.
Qed.

Lemma run_Lit_inv (l s : str) (c : captures) k (a : A) :
  run (Lit l) s c k = Some a ->
  exists t, s = l ++ t /\ k t c = Some a.
Proof.
  rewrite run_Lit. destruct (prefixb l s) eqn:E; [|discriminate].
  intros H. exists (skipn (length l) s). split; [|exact H].
  apply prefixb_true, E.
Qed.

Lemma run_Lit_app (l t : str) (c : captures) k :
  run (Lit l) (l ++ t) c k = k t c.
Proof. rewrite run_Lit, prefixb_app, skipn_length_app. reflexivity. Qed.
End RunEquations.






Lemma codeBlock_inv (s t : str) (c : captures) :
  matchAt codeBlockRegex s = Some (t, c) ->
  exists olang ws oname body, FenceShape s t c olang ws oname body.
Proof.
  unfold matchAt, codeBlockRegex. cbn [seqs]. intros H.
  rewrite run_Seq in H. apply run_Lit_inv in H as (s1 & -> & H).
  (* language tag *)
  rewrite run_Seq, run_Opt in H.
  assert (Hlang : exists olang s2,
             s1 = optStr olang ++ s2 /\
             (forall l, olang = Some l -> l <> [] /\ forallb Cls.word l = true) /\
             run (Seq (Star Cls.space)
                      (Seq (Opt (seqs [Lit (u "filename=" ++ [dq]);
                                       Group 2 (Plus Cls.notQuote); Lit [dq]]))
                           (Seq (Chr (Cls.only nl))
                                (Seq (Group 3 (StarLazy Cls.any)) (Lit fence)))))
                 s2 (capOpt 1 olang) (fun s' c' => Some (s', c')) = Some (t, c)).
  { match type of H with
    | match ?e with _ => _ end = _ => destruct e as [r|] eqn:E
    end.
    - injection H as ->. rewrite run_Group in E.
      apply run_Plus_inv in E as (l & s2 & -> & Hn & Hl & E).
      rewrite firstn_consumed in E.
      exists (Some l), s2. split; [reflexivity|]. split; [|exact E].
      intros l' [= <-]. split; assumption.
    - exists None, s1. split; [reflexivity|]. split; [|exact H].
      intros l' Hl'. discriminate. }
  clear H. destruct Hlang as (olang & s2 & -> & Hlang & H).
  (* white space *)
  rewrite run_Seq, run_Star in H.
  apply starG_inv in H as (ws & s3 & -> & Hws & H).
  (* filename attribute *)
  rewrite run_Seq, run_Opt in H.
  assert (Hname : exists oname s4,
             s3 = attrText oname ++ s4 /\
             (forall n, oname = Some n -> n <> [] /\ forallb Cls.notQuote n = true) /\
             run (Seq (Chr (Cls.only nl))
                      (Seq (Group 3 (StarLazy Cls.any)) (Lit fence)))
                 s4 (capOpt 2 oname ++ capOpt 1 olang)
                 (fun s' c' => Some (s', c')) = Some (t, c)).
  { match type of H with
    | match ?e with _ => _ end = _ => destruct e as [r|] eqn:E
    end.
    - injection H as ->. cbn [seqs] in E.
      rewrite run_Seq in E. apply run_Lit_inv in E as (s3' & -> & E).
      rewrite run_Seq, run_Group in E.
      apply run_Plus_inv in E as (n & s3'' & -> & Hn & Hq & E).
      rewrite firstn_consumed in E.
      apply run_Lit_inv in E as (s4 & -> & E).
      exists (Some n), s4. split; [|split; [|exact E]].
      + unfold attrText, attrOpen. rewrite <- !app_assoc. reflexivity.
      + intros n' [= <-]. split; assumption.
    - exists None, s3. split; [reflexivity|]. split; [|exact H].
      intros n' Hn'. discriminate. }
  clear H. destruct Hname as (oname & s4 & -> & Hname & H).
  (* newline, body, closing fence *)
  rewrite run_Seq, run_Chr in H.
  destruct s4 as [|x s5]; [discriminate|].
  destruct (Cls.only nl x) eqn:Hx; [|discriminate].
  apply N.eqb_eq in Hx. subst x.
  rewrite run_Seq, run_Group, run_StarLazy in H.
  apply starL_inv in H as (body & s6 & -> & _ & H & Hmin).
  rewrite firstn_consumed in H.
  apply run_Lit_inv in H as (t' & -> & H). injection H as -> <-.
  exists olang, ws, oname, body. constructor; auto.
  intros l1 l2 E Hn. specialize (Hmin l1 l2 E Hn). cbv beta in Hmin.
  rewrite run_Lit in Hmin.
  destruct (prefixb fence (l2 ++ fence ++ t)); [discriminate|reflexivity].
Qed.

Lemma codeBlock_needs_fence (s : str) :
  prefixb fence s = false -> matchAt codeBlockRegex s = None.
Proof.
  intros H. unfold matchAt, codeBlockRegex. cbn [seqs].
  rewrite run_Seq, run_Lit, H. reflexivity.
Qed.

Lemma FenceShape_group3 s t c olang ws oname body :
  FenceShape s t c olang ws oname body -> lookup 3 c = Some body.
Proof. intros [_ -> _ _ _ _]. reflexivity. Qed.

Lemma FenceShape_group2 s t c olang ws oname body :
  FenceShape s t c olang ws oname body -> lookup 2 c = oname.
Proof. intros [_ -> _ _ _ _]. destruct oname, olang; reflexivity. Qed.

Lemma FenceShape_group1 s t c olang ws oname body :
  FenceShape s t c olang ws oname body -> lookup 1 c = olang.
Proof. intros [_ -> _ _ _ _]. destruct oname, olang; reflexivity. Qed.

Lemma FenceShape_body_no_fence s t c olang ws oname body :
  FenceShape s t c olang ws oname body -> includes fence body = false.
Proof.
  intros [_ _ _ _ _ Hmin].
  destruct (includes fence body) eqn:E; [|reflexivity].
  apply includes_true in E as (a & b & -> & Hp).
  assert (Hb : b <> []) by (destruct b; [discriminate|discriminate]).
  pose proof (Hmin a b eq_refl Hb) as H0.
  rewrite (prefixb_weaken _ _ (fence ++ t) Hp) in H0.
  discriminate.
Qed.

(** A match of the fence pattern is never empty. *)
Lemma codeBlock_match_length (l t : str) (c : captures) :
  matchAt codeBlockRegex (l ++ t) = Some (t, c) -> 7 <= length l.
Proof.
  intros H. apply codeBlock_inv in H as (olang & ws & oname & body & [E _ _ _ _ _]).
  apply (f_equal (@length cu)) in E.
  rewrite !length_app in E. simpl in E. rewrite !length_app in E. simpl in E.
  lia.
Qed.

(** ** The loops, seen through the list of matches *)




Lemma exec_codeBlock_bounds (text : str) (i : nat) (m : MatchResult) :
  exec codeBlockRegex text i = Some m ->
  i <= index m /\ index m + 7 <= endIndex m /\ endIndex m <= length text.
Proof.
  intros H. apply exec_inv in H as (a & pre & t & E & Ha & Hi & Hm & _).
  apply codeBlock_match_length in Hm.
  apply (f_equal (@length cu)) in E. rewrite !length_app in E.
  unfold endIndex. lia.
Qed.

Lemma exec_codeBlock_group3 (text : str) (i : nat) (m : MatchResult) :
  exec codeBlockRegex text i = Some m -> exists body, group m 3 = Some body.
Proof.
  intros H. apply exec_inv in H as (a & pre & t & _ & _ & _ & Hm & _).
  apply codeBlock_inv in Hm as (olang & ws & oname & body & Hs).
  exists body. eapply FenceShape_group3, Hs.
Qed.


Lemma enough_start (text : str) : enough text 0 (S (length text)).
Proof. unfold enough. lia. Qed.

Lemma enough_step (text : str) (i fuel : nat) (m : MatchResult) :
  enough text i (S fuel) ->
  exec codeBlockRegex text i = Some m ->
  enough text (endIndex m) fuel.
Proof.
  unfold enough. intros [H _] E.
  apply exec_codeBlock_bounds in E. lia.
Qed.

Lemma execAll_chain (text : str) :
  forall fuel i, enough text i fuel ->
                 Chain text i (execAll fuel codeBlockRegex text i).
Proof.
  induction fuel as [|fuel IH]; intros i H.
  - destruct H; lia.
  - simpl. destruct (exec codeBlockRegex text i) as [m|] eqn:E.
    + apply Chain_cons; [exact E|]. apply IH. eapply enough_step; eauto.
    + apply Chain_nil, E.
Qed.

Lemma fenceMatches_chain (text : str) : Chain text 0 (fenceMatches text).
Proof. apply execAll_chain, enough_start. Qed.

Lemma blocksLoop_execAll (text : str) :
  forall fuel i ord acc,
    enough text i fuel ->
    blocksLoop fuel text i ord acc =
    (bs <- blocksOf text (execAll fuel codeBlockRegex text i) ord ;;
     Ok (acc ++ bs)).
Proof.
  induction fuel as [|fuel IH]; intros i ord acc H.
  - destruct H; lia.
  - simpl. destruct (exec codeBlockRegex text i) as [m|] eqn:E.
    + simpl. destruct (blockOf text m ord) as [b|e]; simpl; [|reflexivity].
      rewrite IH by (eapply enough_step; eauto).
      destruct (blocksOf text _ (S ord)) as [bs|e]; simpl; [|reflexivity].
      rewrite <- app_assoc. reflexivity.
    + simpl. rewrite app_nil_r. reflexivity.
Qed.

Lemma partsLoop_execAll (text : str) (n : nat) :
  forall fuel i ci parts,
    enough text i fuel ->
    partsLoop fuel text n i ci parts =
    Ok (partsOf text n (execAll fuel codeBlockRegex text i) i ci parts).
Proof.
  induction fuel as [|fuel IH]; intros i ci parts H.
  - destruct H; lia.
  - simpl. destruct (exec codeBlockRegex text i) as [m|] eqn:E.
    + simpl. destruct (Nat.ltb ci n);
        apply IH; eapply enough_step; eauto.
    + reflexivity.
Qed.

(** Along a chain no block fails: group 3 always took part. *)
Lemma blocksOf_ok (text : str) :
  forall ms i ord, Chain text i ms ->
    exists bs, blocksOf text ms ord = Ok bs /\
               length bs = length ms /\
               map order bs = seq ord (length ms).
Proof.
  induction ms as [|m ms IH]; intros i ord H.
  - exists []. auto.
  - inversion H as [|? ? ? E Hc]; subst.
    destruct (exec_codeBlock_group3 _ _ _ E) as (body & Hb).
    destruct (IH _ (S ord) Hc) as (bs & Hbs & Hlen & Hord).
    simpl. unfold blockOf at 1. rewrite Hb. simpl. rewrite Hbs. simpl.
    eexists. split; [reflexivity|]. simpl. rewrite Hlen, Hord. auto.
Qed.

Lemma extractCodeBlocks_eq (text : str) :
  exists bs,
    blocksOf text (fenceMatches text) 0 = Ok bs /\
    length bs = length (fenceMatches text) /\
    map order bs = seq 0 (length bs) /\
    extractCodeBlocks text = Ok (fallbackBlocks text bs).
Proof.
  destruct (blocksOf_ok text _ 0 0 (fenceMatches_chain text)) as (bs & Hbs & Hlen & Hord).
  exists bs. repeat split; auto.
  - rewrite Hlen. exact Hord.
  - unfold extractCodeBlocks.
    rewrite blocksLoop_execAll by apply enough_start.
    fold (fenceMatches text). rewrite Hbs. reflexivity.
Qed.

Lemma splitParts_eq (text : str) (codeBlocks : list Block) :
  splitParts text codeBlocks =
  Ok (let '(lastIndex, parts) :=
        partsOf text (length codeBlocks) (fenceMatches text) 0 0 [] in
      if Nat.ltb lastIndex (length text)
      then pushText parts (trim (substringFrom text lastIndex))
      else parts).
Proof.
  unfold splitParts. rewrite partsLoop_execAll by apply enough_start.
  fold (fenceMatches text). simpl.
  destruct (partsOf _ _ _ _ _ _). reflexivity.
Qed.

(** ** Texts without a fence marker *)

Lemma no_fence_exec (text : str) (i : nat) :
  includes fence text = false -> exec codeBlockRegex text i = None.
Proof.
  intros H. unfold exec.
  destruct (Nat.ltb (length text) i); [reflexivity|].
  apply search_none. intros a b E. apply codeBlock_needs_fence.
  apply (includes_false_split fence (firstn i text ++ a) b).
  rewrite <- app_assoc, <- E, firstn_skipn. exact H.
Qed.

Lemma fenceMatches_nil (text : str) :
  exec codeBlockRegex text 0 = None -> fenceMatches text = [].
Proof. intros H. unfold fenceMatches. simpl. rewrite H. reflexivity. Qed.

Lemma configRegex_needs_fence (s t : str) (c : captures) :
  matchAt configRegex s = Some (t, c) -> includes fence s = true.
Proof.
  unfold matchAt, configRegex. cbn [seqs]. intros H.
  rewrite run_Seq in H. apply run_inv in H as (l1 & t1 & c1 & -> & H).
  rewrite run_Seq, run_StarLazy in H.
  apply starL_inv in H as (l2 & t2 & -> & _ & H & _).
  rewrite run_Seq, run_LitCi_fence in H.
  apply run_Lit_inv in H as (t3 & -> & _).
  rewrite app_assoc. apply includes_split, prefixb_app.
Qed.

Lemma no_fence_config (text : str) :
  includes fence text = false -> extractConfig text = None.
Proof.
  intros H. unfold extractConfig, jsMatch.
  rewrite search_none; [reflexivity|].
  intros a b E. destruct (matchAt configRegex b) as [[t c]|] eqn:Em; [|reflexivity].
  apply configRegex_needs_fence in Em.
  apply includes_true in Em as (b1 & b2 & -> & Hp).
  rewrite E, app_assoc in H.
  rewrite (includes_split fence _ _ Hp) in H. discriminate.
Qed.

Lemma no_fence_blocks (text : str) :
  includes fence text = false -> extractCodeBlocks text = Ok [].
Proof.
  intros H. destruct (extractCodeBlocks_eq text) as (bs & Hbs & _ & _ & ->).
  rewrite (fenceMatches_nil text (no_fence_exec text 0 H)) in Hbs.
  injection Hbs as <-.
  unfold fallbackBlocks. rewrite H. reflexivity.
Qed.

(** C1.  A text without any fence marker gives no artifact, no config
    text, and an explanation that is the text trimmed. *)
Theorem C1_no_fence_marker (text : str) :
  includes fence text = false ->
  extract text = Ok (mkResult [] None (trim text)).
Proof.
  intros H. unfold extract.
  rewrite (no_fence_blocks text H), (no_fence_config text H). reflexivity.
Qed.

Lemma C1_no_fence_marker_witness :
  includes fence (u "  hello  ") = false /\
  extract (u "  hello  ") = Ok (mkResult [] None (u "hello")).
Proof.
  split; [reflexivity|].
  exact (C1_no_fence_marker (u "  hello  ") eq_refl).
Defined.

(** ** Totality *)

Lemma preserveOrderedContent_total (text : str) (codeBlocks : list Block) :
  exists e, preserveOrderedContent text codeBlocks = Ok e.
Proof.
  unfold preserveOrderedContent.
  destruct (Nat.eqb (length codeBlocks) 0); [eauto|].
  rewrite splitParts_eq. simpl. eauto.
Qed.

(** C4.  On every string the three functions return: the block loop and
    the splitting loop end within their bound, the body group is always
    there to be trimmed, and [extract] yields a result. *)
Theorem C4_extract_total (text : str) :
  exists blocks explanation,
    extractCodeBlocks text = Ok blocks /\
    (forall codeBlocks, exists e, preserveOrderedContent text codeBlocks = Ok e) /\
    preserveOrderedContent text blocks = Ok explanation /\
    extract text = Ok (mkResult blocks (extractConfig text) explanation).
Proof.
  destruct (extractCodeBlocks_eq text) as (bs & _ & _ & _ & Hb).
  destruct (preserveOrderedContent_total text (fallbackBlocks text bs)) as (e & He).
  exists (fallbackBlocks text bs), e. repeat split; auto.
  - intros codeBlocks. apply preserveOrderedContent_total.
  - unfold extract. rewrite Hb. simpl. rewrite He. reflexivity.
Qed.

(** ** The fallback and the explanation *)

Lemma partsOf_nil_split (text : str) (codeBlocks : list Block) :
  fenceMatches text = [] ->
  splitParts text codeBlocks =
  Ok (if Nat.ltb 0 (length text) then pushText [] (trim text) else []).
Proof.
  intros H. rewrite splitParts_eq, H. reflexivity.
Qed.

Lemma render_single_text (codeBlocks : list Block) (t : str) :
  trim (renderParts codeBlocks (pushText [] (trim t))) = trim t.
Proof.
  unfold pushText. destruct (trim t) eqn:E; simpl.
  - reflexivity.
  - rewrite !app_nil_r. rewrite <- E. apply trim_idempotent.
Qed.

(** C10.  When no well-formed fence is found but a marker is present, the
    explanation is the text trimmed, whatever the fallback put in the
    artifacts list. *)
Theorem C10_fallback_explanation (text : str) :
  exec codeBlockRegex text 0 = None ->
  includes fence text = true ->
  exists blocks,
    extractCodeBlocks text = Ok blocks /\
    preserveOrderedContent text blocks = Ok (trim text).
Proof.
  intros Hno Hinc.
  destruct (extractCodeBlocks_eq text) as (bs & Hbs & _ & _ & Hb).
  pose proof (fenceMatches_nil text Hno) as Hms.
  rewrite Hms in Hbs. injection Hbs as <-.
  exists (fallbackBlocks text []). split; [exact Hb|].
  unfold preserveOrderedContent.
  destruct (Nat.eqb (length (fallbackBlocks text [])) 0); [reflexivity|].
  rewrite (partsOf_nil_split text _ Hms). cbn [bind].
  destruct text as [|x text]; [discriminate|].
  change (Nat.ltb 0 (length (x :: text))) with true. cbv iota.
  rewrite render_single_text. reflexivity.
Qed.

Lemma C10_fallback_explanation_witness :
  exists blocks,
    extractCodeBlocks threeMarkersText = Ok blocks /\
    preserveOrderedContent threeMarkersText blocks = Ok (trim threeMarkersText).
Proof.
  apply (C10_fallback_explanation threeMarkersText); reflexivity.
Defined.

(** ** Concrete scenarios *)

(** C8.  On the text [Create config.toml] followed by a [toml] block, the
    bold-name and colon rules find nothing, the imperative-verb rule finds
    [config.toml], and that is the filename of the one artifact. *)
Theorem C8_create_config_toml :
  extractCodeBlocks createConfigText =
    Ok [mkBlock (u "toml") (u "config.toml") nameX 0] /\
  (let beforeBlock := u "Create config.toml" ++ [nl] in
   jsMatch boldNamePattern beforeBlock = None /\
   jsMatch colonNamePattern beforeBlock = None /\
   option_map (fun m => group m 1) (jsMatch verbNamePattern beforeBlock)
     = Some (Some (u "config.toml"))).
Proof. vm_compute. repeat split; reflexivity. Qed.

(** C6, at the input where the code departs from it.  For the keyword
    followed by a [toml] block, the returned text starts with the language
    tag of the opening marker. *)
Theorem C6_config_keeps_language_tag :
  extractConfig wranglerText = Some (u "toml" ++ [nl] ++ nameX) /\
  extractCodeBlocks wranglerText =
    Ok [mkBlock (u "toml") (u "wrangler.toml") nameX 0].
Proof. vm_compute. split; reflexivity. Qed.

(** ** Blocks and matches, one to one *)

Lemma exec_shape (text : str) (i : nat) (m : MatchResult) :
  exec codeBlockRegex text i = Some m ->
  exists a pre t olang ws oname body,
    text = a ++ pre ++ whole m ++ t /\ length a = i /\
    index m = i + length pre /\
    FenceShape (whole m ++ t) t (groups m) olang ws oname body.
Proof.
  intros H. apply exec_inv in H as (a & pre & t & E & Ha & Hi & Hm & _).
  apply codeBlock_inv in Hm as (olang & ws & oname & body & Hs).
  exists a, pre, t, olang, ws, oname, body. auto.
Qed.

Lemma blockOf_order (text : str) (m : MatchResult) (ord : nat) (b : Block) :
  blockOf text m ord = Ok b -> order b = ord.
Proof.
  unfold blockOf. destruct (group m 3); [|discriminate].
  intros [= <-]. reflexivity.
Qed.

Lemma blocksOf_nth (text : str) :
  forall ms ord bs i m b,
    blocksOf text ms ord = Ok bs ->
    nth_error ms i = Some m -> nth_error bs i = Some b ->
    blockOf text m (ord + i) = Ok b.
Proof.
  induction ms as [|m0 ms IH]; intros ord bs i m b H Hm Hb.
  - destruct i; discriminate.
  - simpl in H.
    destruct (blockOf text m0 ord) as [b0|] eqn:E0; [|discriminate].
    simpl in H.
    destruct (blocksOf text ms (S ord)) as [bs'|] eqn:E1; [|discriminate].
    injection H as <-.
    destruct i as [|i]; simpl in Hm, Hb.
    + injection Hm as <-. injection Hb as <-.
      rewrite Nat.add_0_r. exact E0.
    + replace (ord + S i) with (S ord + i) by lia.
      eapply IH; eauto.
Qed.

Lemma blocksOf_Forall2 (text : str) :
  forall ms ord bs,
    blocksOf text ms ord = Ok bs ->
    Forall2 (fun m b => blockOf text m (order b) = Ok b) ms bs.
Proof.
  induction ms as [|m0 ms IH]; intros ord bs H; simpl in H.
  - injection H as <-. constructor.
  - destruct (blockOf text m0 ord) as [b0|] eqn:E0; [|discriminate].
    simpl in H.
    destruct (blocksOf text ms (S ord)) as [bs'|] eqn:E1; [|discriminate].
    injection H as <-. constructor; [|eapply IH; eauto].
    rewrite (blockOf_order _ _ _ _ E0). exact E0.
Qed.

Lemma fallbackBlocks_nonempty (text : str) (bs : list Block) :
  bs <> [] -> fallbackBlocks text bs = bs.
Proof. intros H. destruct bs; [congruence|reflexivity]. Qed.

(** With at least one match the artifacts are the blocks of the matches. *)
Lemma extractCodeBlocks_matches (text : str) :
  fenceMatches text <> [] ->
  exists bs,
    blocksOf text (fenceMatches text) 0 = Ok bs /\
    length bs = length (fenceMatches text) /\
    extractCodeBlocks text = Ok bs.
Proof.
  intros Hne. destruct (extractCodeBlocks_eq text) as (bs & Hbs & Hlen & _ & He).
  exists bs. repeat split; auto.
  rewrite He, fallbackBlocks_nonempty; [reflexivity|].
  destruct bs; [|discriminate].
  destruct (fenceMatches text); [congruence|discriminate].
Qed.

(** C3.  When the text has exactly one well-formed fenced block and its
    opening marker carries an explicit filename attribute, there is exactly
    one artifact; its filename is the attribute and its order is 0. *)
Theorem C3_explicit_filename (text : str) (m : MatchResult) (name : str) :
  fenceMatches text = [m] ->
  group m 2 = Some name ->
  exists b, extractCodeBlocks text = Ok [b] /\ filename b = name /\ order b = 0.
Proof.
  intros Hms Hname.
  assert (Hne : fenceMatches text <> []) by (rewrite Hms; discriminate).
  destruct (extractCodeBlocks_matches text Hne) as (bs & Hbs & Hlen & He).
  rewrite Hms in Hbs, Hlen.
  destruct bs as [|b [|b' bs]]; try discriminate.
  exists b. split; [exact He|].
  pose proof (blocksOf_nth text [m] 0 [b] 0 m b Hbs eq_refl eq_refl) as Hb.
  split; [|eapply blockOf_order, Hb].
  (* the name captured by group 2 is not empty *)
  pose proof (fenceMatches_chain text) as Hc. rewrite Hms in Hc.
  inversion Hc as [|? ? ? E _]; subst.
  apply exec_shape in E as (a & pre & t & olang & ws & oname & body & _ & _ & _ & Hs).
  pose proof (FenceShape_group2 _ _ _ _ _ _ _ Hs) as H2.
  unfold group in Hname. rewrite Hname in H2. symmetry in H2.
  destruct (shape_name _ _ _ _ _ _ _ Hs name H2) as [Hn _].
  unfold blockOf, group in Hb. rewrite Hname in Hb.
  destruct (lookup 3 (groups m)); [|discriminate]. injection Hb as <-. simpl.
  destruct name; [congruence|reflexivity].
Qed.

Lemma C3_explicit_filename_witness :
  exists b, extractCodeBlocks explicitNameText = Ok [b] /\
            filename b = u "x.ts" /\ order b = 0.
Proof.
  apply (C3_explicit_filename explicitNameText explicitNameMatch (u "x.ts"));
    reflexivity.
Defined.

(** ** Order of artifacts and of code segments *)

Lemma Chain_sorted (text : str) (i : nat) (ms : list MatchResult) :
  Chain text i ms ->
  Forall (fun m => i <= index m) ms /\ StronglySorted lt (map index ms).
Proof.
  induction 1 as [|i m ms E Hc [IHb IHs]].
  - split; constructor.
  - apply exec_codeBlock_bounds in E as (H1 & H2 & _).
    split.
    + constructor; [exact H1|].
      eapply Forall_impl; [|exact IHb]. simpl. intros m' H. lia.
    + simpl. constructor; [exact IHs|].
      apply Forall_map. eapply Forall_impl; [|exact IHb].
      simpl. intros m' H. lia.
Qed.

Lemma codeOrders_app (p q : list Part) :
  codeOrders (p ++ q) = codeOrders p ++ codeOrders q.
Proof.
  induction p as [|[t|o] p IH]; simpl; [reflexivity|exact IH|].
  rewrite IH. reflexivity.
Qed.

Lemma codeOrders_pushText (parts : list Part) (t : str) :
  codeOrders (pushText parts t) = codeOrders parts.
Proof.
  unfold pushText. destruct (isEmpty t); [reflexivity|].
  rewrite codeOrders_app. simpl. apply app_nil_r.
Qed.

Lemma partsOf_codeOrders (text : str) (n : nat) :
  forall ms i ci parts,
    codeOrders (snd (partsOf text n ms i ci parts)) =
    codeOrders parts ++ seq ci (Nat.min (length ms) (n - ci)).
Proof.
  induction ms as [|m ms IH]; intros i ci parts; simpl.
  - rewrite app_nil_r. reflexivity.
  - set (parts' := if Nat.ltb i (index m)
                   then pushText parts (trim (substring text i (index m)))
                   else parts).
    assert (Hp : codeOrders parts' = codeOrders parts).
    { unfold parts'. destruct (Nat.ltb i (index m)); [|reflexivity].
      apply codeOrders_pushText. }
    destruct (Nat.ltb_spec ci n) as [Hlt|Hge].
    + rewrite IH, codeOrders_app, Hp. simpl. rewrite <- app_assoc. simpl.
      replace (n - ci) with (S (n - S ci)) by lia. reflexivity.
    + rewrite IH, Hp. replace (n - ci) with 0 by lia.
      rewrite !Nat.min_0_r. reflexivity.
Qed.

Lemma splitParts_codeOrders (text : str) (codeBlocks : list Block) (parts : list Part) :
  splitParts text codeBlocks = Ok parts ->
  codeOrders parts =
  seq 0 (Nat.min (length (fenceMatches text)) (length codeBlocks)).
Proof.
  rewrite splitParts_eq. intros [= <-].
  pose proof (partsOf_codeOrders text (length codeBlocks)
                                 (fenceMatches text) 0 0 []) as H.
  destruct (partsOf _ _ _ _ _ _) as [li ps]. simpl in H.
  rewrite Nat.sub_0_r in H.
  destruct (Nat.ltb li (length text)); [rewrite codeOrders_pushText|]; exact H.
Qed.

(** ** The explanation as a sequence of segments *)

Lemma pushText_acc (acc : list Part) (t : str) :
  pushText acc t = acc ++ pushText [] t.
Proof.
  unfold pushText. destruct (isEmpty t); [symmetry; apply app_nil_r|reflexivity].
Qed.

Lemma partsOf_partsFrom (text : str) (n : nat) :
  forall ms i ci acc,
    ci + length ms <= n ->
    finalParts text (partsOf text n ms i ci acc)
    = acc ++ partsFrom text i ci ms.
Proof.
  induction ms as [|m ms IH]; intros i ci acc Hn.
  - cbn [partsOf finalParts partsFrom].
    destruct (Nat.ltb i (length text)).
    + apply pushText_acc.
    + symmetry. apply app_nil_r.
  - cbn [partsOf partsFrom]. cbn [length] in Hn.
    assert (Hlt : Nat.ltb ci n = true) by (apply Nat.ltb_lt; lia).
    rewrite Hlt. rewrite IH by lia.
    rewrite <- !app_assoc. cbn [app].
    destruct (Nat.ltb i (index m)).
    + rewrite pushText_acc, <- app_assoc. reflexivity.
    + reflexivity.
Qed.

Lemma partsFrom_valid (text : str) (blocks : list Block) :
  forall ms i ci,
    ci + length ms <= length blocks ->
    validParts blocks (partsFrom text i ci ms).
Proof.
  unfold validParts.
  induction ms as [|m ms IH]; intros i ci Hn; cbn [partsFrom].
  - destruct (Nat.ltb i (length text)); [|constructor].
    unfold pushText. destruct (isEmpty _); repeat constructor.
  - cbn [length] in Hn. apply Forall_app. split.
    + destruct (Nat.ltb i (index m)); [|constructor].
      unfold pushText. destruct (isEmpty _); repeat constructor.
    + constructor; [lia|]. apply IH. lia.
Qed.

Lemma renderParts_join (blocks : list Block) (parts : list Part) :
  validParts blocks parts ->
  renderParts blocks parts = joinSegments (map (segmentOf blocks) parts).
Proof.
  unfold validParts.
  induction 1 as [|part rest Hpart _ IH]; [reflexivity|].
  assert (Hseg : (match part with
                  | TextPart content => content ++ sepIf rest
                  | CodePart ord =>
                      match nth_error blocks ord with
                      | Some block => renderBlock block ++ sepIf rest
                      | None => []
                      end
                  end) = segmentOf blocks part ++ sepIf rest).
  { destruct part as [content|ord]; [reflexivity|]. cbn [segmentOf].
    destruct (nth_error blocks ord) eqn:E; [reflexivity|].
    apply nth_error_None in E. lia. }
  transitivity ((segmentOf blocks part ++ sepIf rest) ++ renderParts blocks rest).
  { rewrite <- Hseg. destruct part; destruct rest as [|[]]; reflexivity. }
  rewrite IH. destruct rest as [|p rest].
  - cbn [map joinSegments sepIf]. rewrite !app_nil_r. reflexivity.
  - cbn [map joinSegments sepIf]. rewrite <- app_assoc. reflexivity.
Qed.

Lemma skipn_head (blocks : list Block) :
  forall ci k,
    length (skipn ci blocks) = S k ->
    exists b, nth_error blocks ci = Some b /\
              skipn ci blocks = b :: skipn (S ci) blocks.
Proof.
  induction blocks as [|b blocks IH]; intros [|ci] k H; try discriminate.
  - exists b. split; reflexivity.
  - cbn [skipn] in H. destruct (IH ci k H) as (b' & Hb & Hs).
    exists b'. split; [exact Hb|]. cbn [skipn]. exact Hs.
Qed.

Lemma map_pushText (blocks : list Block) (cond : bool) (g : str) :
  (cond = false -> g = []) ->
  map (segmentOf blocks) (if cond then pushText [] (trim g) else [])
  = proseSegment g.
Proof.
  intros H. unfold proseSegment, pushText. destruct cond.
  - destruct (isEmpty (trim g)); reflexivity.
  - rewrite (H eq_refl). reflexivity.
Qed.

Lemma renderBlock_canonicalRendering (b : Block) :
  renderBlock b = canonicalRendering b.
Proof.
  unfold renderBlock, canonicalRendering.
  destruct (filename b) as [|x name]; [reflexivity|].
  cbn [isEmpty negb andb orb].
  destruct (strEqb (x :: name) (u "File"));
    destruct (strEqb (x :: name) (u "src/index.ts")); reflexivity.
Qed.

Lemma partsFrom_segments (text : str) (blocks : list Block) :
  forall ms i ci,
    length (skipn ci blocks) = length ms ->
    map (segmentOf blocks) (partsFrom text i ci ms)
    = segmentsOf (gapsFrom text i ms) (skipn ci blocks).
Proof.
  induction ms as [|m ms IH]; intros i ci Hlen;
    cbn [partsFrom gapsFrom segmentsOf].
  - destruct (skipn ci blocks); [|discriminate].
    apply map_pushText. intros H. apply Nat.ltb_ge in H.
    unfold substringFrom. apply skipn_all2, H.
  - cbn [length] in Hlen.
    destruct (skipn_head blocks ci _ Hlen) as (b & Hb & Hs).
    rewrite Hs in *. cbn [length] in Hlen.
    rewrite map_app. cbn [map segmentOf]. rewrite Hb.
    rewrite IH by lia. rewrite renderBlock_canonicalRendering. f_equal.
    apply map_pushText. intros H. apply Nat.ltb_ge in H.
    unfold substring. replace (index m - i) with 0 by lia. reflexivity.
Qed.

(** With as many artifacts as matches, the explanation is the segments of
    the input joined and trimmed. *)
Lemma preserveOrderedContent_segments (text : str) (blocks : list Block) :
  fenceMatches text <> [] ->
  length blocks = length (fenceMatches text) ->
  preserveOrderedContent text blocks
  = Ok (trim (joinSegments
                (segmentsOf (gapsFrom text 0 (fenceMatches text)) blocks))).
Proof.
  intros Hne Hlen. unfold preserveOrderedContent.
  destruct (Nat.eqb_spec (length blocks) 0) as [E|_].
  { rewrite E in Hlen. destruct (fenceMatches text); [congruence|discriminate]. }
  rewrite splitParts_eq. cbn [bind].
  change (let '(lastIndex, parts) :=
            partsOf text (length blocks) (fenceMatches text) 0 0 [] in
          if Nat.ltb lastIndex (length text)
          then pushText parts (trim (substringFrom text lastIndex))
          else parts)
    with (finalParts text
            (partsOf text (length blocks) (fenceMatches text) 0 0 [])).
  rewrite partsOf_partsFrom by (rewrite Hlen; apply Nat.le_refl).
  cbn [app].
  rewrite renderParts_join
    by (apply partsFrom_valid; rewrite Hlen; apply Nat.le_refl).
  rewrite partsFrom_segments by (cbn [skipn]; exact Hlen).
  reflexivity.
Qed.

(** C2.  The [order] fields of the artifacts count up from 0; the matches
    they are built from start at strictly increasing offsets, block [i]
    being built from match [i]; the code segments of the explanation refer
    to artifacts 0, 1, 2, ... in that order, one per match; and, when a
    block is found, the explanation returned is the string made of the
    prose before the first block, the rendering of artifact 0, the prose
    before the second block, the rendering of artifact 1, and so on up to
    the prose after the last block, joined with blank lines and trimmed. *)
Theorem C2_sequence_order (text : str) :
  exists blocks parts,
    extractCodeBlocks text = Ok blocks /\
    splitParts text blocks = Ok parts /\
    map order blocks = seq 0 (length blocks) /\
    StronglySorted lt (map index (fenceMatches text)) /\
    (fenceMatches text <> [] ->
     Forall2 (fun m b => blockOf text m (order b) = Ok b)
             (fenceMatches text) blocks) /\
    codeOrders parts = seq 0 (length (fenceMatches text)) /\
    (blocks <> [] ->
     preserveOrderedContent text blocks = Ok (trim (renderParts blocks parts))) /\
    (fenceMatches text <> [] ->
     preserveOrderedContent text blocks
     = Ok (trim (joinSegments
                   (segmentsOf (gapsFrom text 0 (fenceMatches text)) blocks)))).
Proof.
  destruct (extractCodeBlocks_eq text) as (bs & Hbs & Hlen & Hord & He).
  pose proof (splitParts_eq text (fallbackBlocks text bs)) as Hsp.
  eexists. eexists. split; [exact He|]. split; [exact Hsp|].
  assert (Hcases : (fenceMatches text = [] /\ bs = []) \/
                   (fenceMatches text <> [] /\ fallbackBlocks text bs = bs)).
  { destruct (fenceMatches text) eqn:E.
    - left. destruct bs; [auto|discriminate].
    - right. split; [discriminate|]. apply fallbackBlocks_nonempty.
      destruct bs; discriminate. }
  split; [|split; [|split; [|split; [|split]]]].
  - destruct Hcases as [[_ ->]|[_ ->]]; [|exact Hord].
    unfold fallbackBlocks. destruct (_ && _); [|reflexivity].
    destruct (jsMatch fallbackRegex text); reflexivity.
  - apply (Chain_sorted text 0), fenceMatches_chain.
  - intros Hne. destruct Hcases as [[E _]|[_ ->]]; [congruence|].
    eapply blocksOf_Forall2, Hbs.
  - rewrite (splitParts_codeOrders text _ _ Hsp).
    destruct Hcases as [[-> _]|[_ ->]]; [reflexivity|].
    rewrite Hlen, Nat.min_id. reflexivity.
  - intros Hne. unfold preserveOrderedContent.
    destruct (fallbackBlocks text bs); [congruence|].
    simpl Nat.eqb. cbv iota. rewrite Hsp. reflexivity.
  - intros Hne. destruct Hcases as [[E _]|[_ ->]]; [congruence|].
    apply preserveOrderedContent_segments; assumption.
Qed.

Lemma C2_sequence_order_witness :
  exists blocks parts,
    extractCodeBlocks twoBlocksText = Ok blocks /\
    splitParts twoBlocksText blocks = Ok parts /\
    map order blocks = [0; 1] /\
    codeOrders parts = [0; 1] /\
    preserveOrderedContent twoBlocksText blocks = Ok twoBlocksExplanation.
Proof.
  destruct (C2_sequence_order twoBlocksText)
    as (blocks & parts & He & Hs & Ho & _ & _ & Hc & _ & Hx).
  exists blocks, parts. repeat split; auto.
  - rewrite Ho. vm_compute in He. injection He as <-. reflexivity.
  - rewrite Hx by (vm_compute; discriminate).
    vm_compute in He. injection He as <-. vm_compute. reflexivity.
Defined.

(** ** Filename inference *)

Lemma firstPattern_first (ps pre post : list regex) (p : regex)
      (w : str) (pm : MatchResult) :
  ps = pre ++ p :: post ->
  Forall (fun q => jsMatch q w = None) pre ->
  jsMatch p w = Some pm ->
  firstPattern ps w = orElse (group pm 1) [].
Proof.
  intros -> Hpre Hp. induction Hpre as [|q pre Hq _ IH]; simpl.
  - rewrite Hp. reflexivity.
  - rewrite Hq. exact IH.
Qed.

Lemma blockOf_inferred (text : str) (m : MatchResult) (ord : nat) (b : Block) :
  blockOf text m ord = Ok b ->
  group m 2 = None ->
  filename b = inferFrom (firstn (index m) text) (language b).
Proof.
  unfold blockOf. intros H H2. rewrite H2 in H.
  destruct (group m 3); [|discriminate]. injection H as <-. simpl.
  unfold inferFilename, substring. rewrite Nat.sub_0_r. reflexivity.
Qed.

(** C7, as the code has it.  For a block without a filename attribute the
    rules run on the whole text before the fence, from the start of the
    input, and the first rule that matches there gives the filename. *)
Theorem C7_inference_scans_whole_prefix
        (text : str) (blocks : list Block) (i : nat)
        (m : MatchResult) (b : Block) :
  extractCodeBlocks text = Ok blocks ->
  nth_error (fenceMatches text) i = Some m ->
  nth_error blocks i = Some b ->
  group m 2 = None ->
  filename b = inferFrom (firstn (index m) text) (language b) /\
  forall pre p post pm name,
    filenamePatterns = pre ++ p :: post ->
    Forall (fun q => jsMatch q (firstn (index m) text) = None) pre ->
    jsMatch p (firstn (index m) text) = Some pm ->
    group pm 1 = Some name -> name <> [] ->
    filename b = name.
Proof.
  intros He Hm Hb H2.
  assert (Hne : fenceMatches text <> [])
    by (intros E; rewrite E in Hm; destruct i; discriminate).
  destruct (extractCodeBlocks_matches text Hne) as (bs & Hbs & _ & He').
  rewrite He in He'. injection He' as ->.
  pose proof (blocksOf_nth text _ 0 bs i m b Hbs Hm Hb) as Hblock.
  pose proof (blockOf_inferred text m _ b Hblock H2) as Hf.
  split; [exact Hf|].
  intros pre p post pm name Hps Hpre Hp Hg Hn.
  rewrite Hf. unfold inferFrom.
  rewrite (firstPattern_first filenamePatterns pre post p _ pm Hps Hpre Hp), Hg.
  destruct name; [congruence|reflexivity].
Qed.

Lemma C7_inference_scans_whole_prefix_witness :
  filename (nth 1 twoBlocksBlocks (mkBlock [] [] [] 0)) = u "a.ts".
Proof.
  refine (proj2 (C7_inference_scans_whole_prefix
                   twoBlocksText twoBlocksBlocks 1 twoBlocksSecond
                   (nth 1 twoBlocksBlocks (mkBlock [] [] [] 0))
                   eq_refl eq_refl eq_refl eq_refl)
                [boldNamePattern; colonNamePattern] verbNamePattern
                [fileLabelPattern]
                (mkMatch 0 (u "Create a.ts") [(1, u "a.ts"); (2, u "ts")])
                (u "a.ts") eq_refl _ eq_refl eq_refl _).
  - repeat constructor.
  - discriminate.
Defined.

(** C7, as stated, fails on [twoBlocksText]: for the second block the
    window between the two fences holds a newline only, so the inference on
    the window gives no name, while the code names the block [a.ts], taken
    by the imperative-verb rule from the text before the first fence. *)
Lemma C7_window_counterexample :
  ~ inferenceUsesWindow twoBlocksText /\
  (let window :=
     substring twoBlocksText (windowStart (fenceMatches twoBlocksText) 1)
               (index twoBlocksSecond) in
   window = [nl] /\
   firstPattern filenamePatterns window = [] /\
   map filename twoBlocksBlocks = [u "a.ts"; u "a.ts"]).
Proof.
  split; [|vm_compute; repeat split; reflexivity].
  intros H.
  specialize (H twoBlocksBlocks 1 twoBlocksSecond
                (nth 1 twoBlocksBlocks (mkBlock [] [] [] 0))
                eq_refl eq_refl eq_refl eq_refl).
  vm_compute in H. discriminate.
Qed.

(** ** The fallback for malformed fences *)

Lemma findFrom_some (p : str) :
  forall (s : str) (k i : nat),
    findFrom p s k = Some i ->
    exists a rest, s = a ++ p ++ rest /\ i = k + length a /\
      forall a1 a2, a = a1 ++ a2 -> a2 <> [] ->
                    prefixb p (a2 ++ p ++ rest) = false.
Proof.
  assert (Hnil : forall (a1 a2 : str), [] = a1 ++ a2 -> a2 <> [] -> False).
  { intros a1 a2 E Hn. destruct a1, a2; try discriminate. congruence. }
  induction s as [|x s IH]; intros k i H; simpl in H.
  - destruct (prefixb p []) eqn:E; [|discriminate]. injection H as <-.
    exists [], []. apply prefixb_true in E. simpl in E.
    rewrite E at 1. rewrite app_nil_r. repeat split; auto.
    + destruct p; [reflexivity|discriminate].
    + intros a1 a2 E' Hn. destruct (Hnil _ _ E' Hn).
  - destruct (prefixb p (x :: s)) eqn:E.
    + injection H as <-. exists [], (skipn (length p) (x :: s)).
      repeat split; auto.
      * apply prefixb_true, E.
      * intros a1 a2 E' Hn. destruct (Hnil _ _ E' Hn).
    + destruct (IH _ _ H) as (a & rest & -> & -> & Hmin).
      exists (x :: a), rest. repeat split.
      * simpl. lia.
      * intros a1 a2 E' Hn. destruct a1 as [|y a1]; simpl in E'.
        -- subst a2. exact E.
        -- injection E' as _ E'. eapply Hmin; eauto.
Qed.

Lemma findFrom_none (p : str) :
  forall (s : str) (k : nat), findFrom p s k = None -> includes p s = false.
Proof.
  induction s as [|x s IH]; intros k H; simpl in *.
  - destruct (prefixb p []); [discriminate|reflexivity].
  - destruct (prefixb p (x :: s)); [discriminate|]. simpl. eapply IH, H.
Qed.

Lemma fallback_needs_fence (s : str) :
  prefixb fence s = false -> matchAt fallbackRegex s = None.
Proof.
  intros H. unfold matchAt, fallbackRegex. cbn [seqs].
  rewrite run_Seq, run_Lit, H. reflexivity.
Qed.

(** A match of the fallback pattern runs from a marker to the next one. *)
Lemma fallback_hit (b rest : str) :
  (forall b1 b2, b = b1 ++ b2 -> b2 <> [] ->
                 prefixb fence (b2 ++ fence ++ rest) = false) ->
  matchAt fallbackRegex ((fence ++ b ++ fence) ++ rest) = Some (rest, []).
Proof.
  intros Hmin. unfold matchAt, fallbackRegex. cbn [seqs].
  rewrite <- !app_assoc.
  rewrite run_Seq, run_Lit_app, run_Seq, run_StarLazy.
  apply starL_first.
  - clear. induction b; simpl; auto.
  - apply run_Lit_app.
  - intros b1 b2 E Hn. rewrite run_Lit, (Hmin b1 b2 E Hn). reflexivity.
Qed.

Lemma fallback_inv (s t : str) (c : captures) :
  matchAt fallbackRegex s = Some (t, c) ->
  exists b, s = fence ++ b ++ fence ++ t.
Proof.
  unfold matchAt, fallbackRegex. cbn [seqs]. intros H.
  rewrite run_Seq in H. apply run_Lit_inv in H as (s1 & -> & H).
  rewrite run_Seq, run_StarLazy in H.
  apply starL_inv in H as (b & s2 & -> & _ & H & _).
  apply run_Lit_inv in H as (t' & -> & H). injection H as -> _.
  exists b. reflexivity.
Qed.

(** After the first marker, with no marker further on, nothing matches. *)
Lemma fallback_none_after (rest x s : str) :
  includes fence rest = false ->
  fence ++ rest = x ++ s ->
  matchAt fallbackRegex s = None.
Proof.
  intros Hno E.
  destruct (matchAt fallbackRegex s) as [[t c]|] eqn:Em; [|reflexivity].
  apply fallback_inv in Em as (b & ->).
  assert (Hin : exists r1, rest = r1 ++ fence ++ t).
  { replace (x ++ fence ++ b ++ fence ++ t)
      with ((x ++ fence ++ b) ++ fence ++ t) in E
      by (rewrite <- !app_assoc; reflexivity).
    apply app_eq_app in E as (l & [[E1 E2]|[E1 E2]]).
    - apply (f_equal (@length cu)) in E1.
      rewrite !length_app in E1. simpl in E1.
      assert (Hl : length l = 0) by lia.
      destruct l; [|discriminate]. exists []. symmetry. exact E2.
    - exists l. exact E2. }
  destruct Hin as (r1 & ->).
  rewrite (includes_split fence r1 (fence ++ t) (prefixb_app _ _)) in Hno.
  discriminate.
Qed.

Lemma skipn_add_app (a f rest : str) :
  skipn (length a + length f) (a ++ f ++ rest) = rest.
Proof.
  rewrite app_assoc, <- length_app. apply skipn_length_app.
Qed.

(** C5, as the code has it.  With no well-formed fence and a marker at
    offset [i] (the first one): when another marker follows at [j], the one
    artifact holds the text from [i] to the end of that next marker, with
    the marker tokens stripped and trimmed, under the name [src/index.ts],
    language [typescript] and order 0; when no marker follows, there is no
    artifact. *)
Theorem C5_fallback_artifact (text : str) :
  exec codeBlockRegex text 0 = None ->
  includes fence text = true ->
  exists i,
    indexOf fence text 0 = Some i /\
    extractCodeBlocks text =
    Ok match indexOf fence text (i + 3) with
       | Some j =>
           [mkBlock (u "typescript") (u "src/index.ts")
                    (stripFences (substring text i (j + 3))) 0]
       | None => []
       end.
Proof.
  intros Hno Hinc.
  destruct (extractCodeBlocks_eq text) as (bs & Hbs & _ & _ & He).
  rewrite (fenceMatches_nil text Hno) in Hbs. injection Hbs as <-.
  rewrite He. unfold fallbackBlocks. rewrite Hinc. simpl andb. cbv iota.
  unfold indexOf at 1. simpl Nat.ltb. cbv iota. simpl skipn.
  destruct (findFrom fence text 0) as [i|] eqn:Ei;
    [|apply findFrom_none in Ei; congruence].
  exists i. split; [reflexivity|].
  apply findFrom_some in Ei as (a & rest & -> & -> & Hmin).
  change (0 + length a) with (length a).
  assert (Hskip : forall p1 p2 : str, a = p1 ++ p2 -> p2 <> [] ->
            matchAt fallbackRegex (p2 ++ (fence ++ rest)) = None).
  { intros p1 p2 E Hn. apply fallback_needs_fence. eapply Hmin; eauto. }
  unfold indexOf.
  assert (Hlen : Nat.ltb (length (a ++ fence ++ rest)) (length a + 3) = false).
  { apply Nat.ltb_ge. rewrite !length_app. simpl. lia. }
  rewrite Hlen. change 3 with (length fence) at 1. rewrite skipn_add_app.
  unfold jsMatch. rewrite search_skip by (intros p1 p2 E Hn; eauto).
  destruct (findFrom fence rest (length a + 3)) as [j|] eqn:Ej.
  - apply findFrom_some in Ej as (b & rest2 & -> & -> & Hminb).
    replace (fence ++ b ++ fence ++ rest2)
      with ((fence ++ b ++ fence) ++ rest2)
      by (rewrite <- !app_assoc; reflexivity).
    rewrite (search_hit _ _ _ [] _ (fallback_hit b rest2 Hminb)).
    simpl whole. do 3 f_equal.
    unfold substring.
    replace (length a + 3 + length b + 3 - length a)
      with (length (fence ++ b ++ fence))
      by (rewrite !length_app; simpl; lia).
    rewrite skipn_length_app, firstn_app, Nat.sub_diag, firstn_all.
    simpl firstn. rewrite app_nil_r. reflexivity.
  - apply findFrom_none in Ej.
    rewrite search_none; [reflexivity|].
    intros x s E. eapply fallback_none_after; eauto.
Qed.

Lemma C5_fallback_artifact_witness :
  exists i,
    indexOf fence threeMarkersText 0 = Some i /\
    extractCodeBlocks threeMarkersText =
    Ok match indexOf fence threeMarkersText (i + 3) with
       | Some j =>
           [mkBlock (u "typescript") (u "src/index.ts")
                    (stripFences (substring threeMarkersText i (j + 3))) 0]
       | None => []
       end.
Proof.
  apply (C5_fallback_artifact threeMarkersText); reflexivity.
Defined.

(** C5, as stated, fails: on [threeMarkersText] the artifact is named
    [src/index.ts] and stops at the second marker, and on [unclosedText]
    there is no artifact at all. *)
Lemma C5_fallback_counterexample :
  ~ fallbackSpansToLast threeMarkersText /\ ~ fallbackSpansToLast unclosedText.
Proof.
  split; intros H; destruct (H eq_refl eq_refl) as (i & j & _ & _ & He);
    vm_compute in He; discriminate.
Qed.

(** ** Reading back a rendered block *)

Lemma starG_cons_true (A : Type) (p : cu -> bool) (x : cu) (s : str)
      (j : str -> option A) :
  p x = true ->
  starG p (x :: s) j =
  match starG p s j with Some a => Some a | None => j (x :: s) end.
Proof. intros H. simpl. rewrite H. reflexivity. Qed.

Lemma codeBlockRegex_eq :
  codeBlockRegex =
  Seq (Lit fence) (Seq langOpt (Seq (Star Cls.space) (Seq attrOpt bodyRegex))).
Proof. reflexivity. Qed.

Lemma space_not_nl (x : cu) : Cls.space x = false -> Cls.only nl x = false.
Proof.
  intros H. unfold Cls.only. destruct (N.eqb_spec x nl) as [->|]; [|reflexivity].
  discriminate.
Qed.

(** A proper prefix of the attribute opener cannot be completed across a
    newline. *)
Lemma prefixb_app_nl (p : str) :
  forallb (fun a => negb (N.eqb nl a)) p = true ->
  forall s rest, prefixb p s = false -> prefixb p (s ++ nl :: rest) = false.
Proof.
  induction p as [|a p IH]; intros Hp s rest H; simpl in *; [discriminate|].
  apply andb_true_iff in Hp as [Ha Hp].
  destruct s as [|y s]; simpl.
  - apply negb_true_iff in Ha. rewrite Ha. reflexivity.
  - destruct (N.eqb y a); simpl in *; [|reflexivity]. apply IH; auto.
Qed.

Lemma attrOpt_skip (A : Type) (s : str) (c : captures)
      (k : str -> captures -> option A) :
  prefixb attrOpen s = false -> run attrOpt s c k = k s c.
Proof.
  intros H. unfold attrOpt. cbn [seqs].
  rewrite run_Opt, run_Seq, run_Lit.
  change (u "filename=" ++ [dq]) with attrOpen. rewrite H. reflexivity.
Qed.

Lemma snoc_split (A : Type) (l1 l2 c : list A) (y : A) :
  l1 ++ l2 = c ++ [y] -> l2 <> [] ->
  exists c2, l2 = c2 ++ [y] /\ c = l1 ++ c2.
Proof.
  intros E Hn. destruct l2 as [|z l2] using rev_ind; [congruence|].
  clear IHl2. rewrite app_assoc in E. apply app_inj_tail in E as [E ->].
  exists l2. auto.
Qed.

Lemma includes_false_suffix (p a b : str) :
  includes p (a ++ b) = false -> includes p b = false.
Proof.
  intros H. apply (includes_false_mid p a b []). rewrite app_nil_r. exact H.
Qed.

(** The body part of the pattern on a body that holds no marker and ends
    with a newline. *)
Lemma bodyRegex_hit (body tail : str) (c : captures) :
  noFence body ->
  run bodyRegex (nl :: (body ++ [nl]) ++ fence ++ tail) c
      (fun s' c' => Some (s', c')) =
  Some (tail, (3, body ++ [nl]) :: c).
Proof.
  intros Hno. unfold bodyRegex.
  rewrite run_Seq, run_Chr. change (Cls.only nl nl) with true. cbv iota.
  rewrite run_Seq, run_Group, run_StarLazy.
  apply starL_first.
  - clear. induction (body ++ [nl]); simpl; auto.
  - rewrite firstn_consumed. apply run_Lit_app.
  - intros l1 l2 E Hn. rewrite run_Lit.
    symmetry in E. apply snoc_split in E as (c2 & -> & ->); [|exact Hn].
    rewrite <- app_assoc. simpl app.
    rewrite no_fence_before_nl; [reflexivity|].
    eapply includes_false_suffix, Hno.
Qed.

Lemma bodyRegex_hit_empty (tail : str) (c : captures) :
  run bodyRegex (nl :: fence ++ tail) c (fun s' c' => Some (s', c')) =
  Some (tail, (3, []) :: c).
Proof.
  unfold bodyRegex.
  rewrite run_Seq, run_Chr. change (Cls.only nl nl) with true. cbv iota.
  rewrite run_Seq, run_Group, run_StarLazy.
  apply (starL_first _ Cls.any [] (fence ++ tail)).
  - reflexivity.
  - rewrite Nat.sub_diag. simpl firstn. apply run_Lit_app.
  - intros l1 l2 E Hn. destruct l1, l2; try discriminate. congruence.
Qed.

Lemma trim_snoc_nl (s : str) : trimmed s -> trim (s ++ [nl]) = s.
Proof.
  unfold trim. intros [->|[(x & t & E & Hx) (t' & y & E' & Hy)]].
  - reflexivity.
  - rewrite E at 1. simpl app. rewrite (dropSpace_fix x _ Hx).
    change (x :: t ++ [nl]) with ((x :: t) ++ [nl]). rewrite <- E.
    rewrite rev_app_distr. simpl rev at 1. simpl app.
    change (dropSpace (nl :: rev s)) with (dropSpace (rev s)).
    rewrite E', rev_app_distr. simpl app. rewrite (dropSpace_fix y _ Hy).
    change (y :: rev t') with (rev [y] ++ rev t').
    rewrite <- rev_app_distr. apply rev_involutive.
Qed.

(** A rendered block is read back as one match whose body trims to the
    code of the block. *)
Lemma codeBlock_canonical (lang code tail : str) :
  lang <> [] -> forallb Cls.word lang = true ->
  noFence code -> trimmed code -> prefixb attrOpen code = false ->
  exists body,
    matchAt codeBlockRegex
            ((fence ++ lang ++ [nl] ++ code ++ [nl] ++ fence) ++ tail) =
    Some (tail, [(3, body); (1, lang)]) /\
    trim body = code.
Proof.
  intros Hne Hword Hno Htrim Hattr.
  assert (Hopen : forallb (fun a => negb (N.eqb nl a)) attrOpen = true)
    by reflexivity.
  (* what the pattern does after the language tag *)
  assert (Hrest : exists body,
             run (Seq (Star Cls.space) (Seq attrOpt bodyRegex))
                 (nl :: code ++ nl :: fence ++ tail) [(1, lang)]
                 (fun s' c' => Some (s', c')) =
             Some (tail, [(3, body); (1, lang)]) /\ trim body = code).
  { rewrite run_Seq, run_Star.
    rewrite starG_cons_true by reflexivity.
    pose proof Htrim as Htrim'.
    destruct Htrim' as [->|[(x & t & E & Hx) Hlast]].
    - exists []. split; [|reflexivity]. cbn [app].
      rewrite starG_cons_true by reflexivity.
      change (fence ++ tail) with (96%N :: 96%N :: 96%N :: tail).
      rewrite starG_stop by reflexivity.
      rewrite run_Seq, attrOpt_skip by reflexivity.
      unfold bodyRegex at 1. rewrite run_Seq, run_Chr.
      change (Cls.only nl 96%N) with false. cbv iota.
      rewrite run_Seq, attrOpt_skip by reflexivity.
      apply (bodyRegex_hit_empty tail).
    - exists (code ++ [nl]). split; [|apply trim_snoc_nl, Htrim].
      rewrite E at 1. cbn [app]. rewrite starG_stop by exact Hx.
      rewrite run_Seq, attrOpt_skip.
      + unfold bodyRegex at 1. rewrite run_Seq, run_Chr.
        rewrite (space_not_nl x Hx).
        rewrite run_Seq, attrOpt_skip by reflexivity.
        replace (code ++ nl :: fence ++ tail)
          with ((code ++ [nl]) ++ fence ++ tail)
          by (rewrite <- app_assoc; reflexivity).
        apply bodyRegex_hit, Hno.
      + change (x :: t ++ nl :: fence ++ tail)
          with ((x :: t) ++ nl :: fence ++ tail).
        rewrite <- E. apply prefixb_app_nl; assumption. }
  destruct Hrest as (body & Hrun & Hbody).
  exists body. split; [|exact Hbody].
  unfold matchAt. rewrite codeBlockRegex_eq, <- !app_assoc.
  rewrite run_Seq, run_Lit_app, run_Seq.
  unfold langOpt. rewrite run_Opt, run_Group.
  destruct lang as [|x lang]; [congruence|].
  simpl in Hword. apply andb_true_iff in Hword as [Hx Hword].
  unfold Plus. rewrite run_Seq, run_Chr. cbn [app]. rewrite Hx.
  rewrite run_Star.
  rewrite (starG_app_some _ Cls.word lang _ _ (tail, [(3, body); (1, x :: lang)]) Hword);
    [reflexivity|].
  rewrite starG_stop by reflexivity.
  change (x :: lang ++ nl :: code ++ nl :: fence ++ tail)
    with ((x :: lang) ++ nl :: code ++ nl :: fence ++ tail).
  rewrite firstn_consumed. exact Hrun.
Qed.

(** ** Reading back a rendered list of parts *)

Lemma renderParts_cons_text (blocks : list Block) (t : str) (rest : list Part) :
  renderParts blocks (TextPart t :: rest) =
  (t ++ sepIf rest) ++ renderParts blocks rest.
Proof. destruct rest as [|[?|?] ?]; reflexivity. Qed.

Lemma renderParts_cons_code (blocks : list Block) (n : nat) (b : Block)
      (rest : list Part) :
  nth_error blocks n = Some b ->
  renderParts blocks (CodePart n :: rest) =
  (renderBlock b ++ sepIf rest) ++ renderParts blocks rest.
Proof. intros H. simpl. rewrite H. destruct rest; reflexivity. Qed.

Lemma noFence_stars (name : str) :
  noFence name -> noFence (u "**" ++ name ++ u "**").
Proof.
  unfold noFence. intros H.
  change (u "**" ++ name ++ u "**") with (42%N :: 42%N :: name ++ [42%N; 42%N]).
  change (includes fence (42%N :: 42%N :: name ++ [42%N; 42%N]))
    with (includes fence (name ++ [42%N; 42%N])).
  induction name as [|x name IH].
  - reflexivity.
  - cbn [app includes]. rewrite IH by (eapply includes_tail, H).
    rewrite orb_false_r.
    cbn [includes] in H. apply orb_false_iff in H as [H _].
    destruct name as [|y [|z name]]; simpl in *.
    + rewrite andb_false_r. reflexivity.
    + rewrite !andb_false_r. reflexivity.
    + exact H.
Qed.

Lemma nil_split_absurd (A : Type) (p1 p2 : list A) :
  [] = p1 ++ p2 -> p2 <> [] -> False.
Proof. intros E Hn. destruct p1, p2; try discriminate. congruence. Qed.

(** No match starts inside a marker-free stretch followed by the separator,
    nor inside a final marker-free stretch. *)
Lemma gap_then_sep (g p1 p2 s : str) :
  noFence g -> g ++ sep = p1 ++ p2 -> p2 <> [] ->
  matchAt codeBlockRegex (p2 ++ s) = None.
Proof.
  intros Hg E Hn. apply codeBlock_needs_fence.
  change (g ++ sep) with (g ++ [nl] ++ [nl]) in E. rewrite app_assoc in E.
  symmetry in E. apply snoc_split in E as (c2 & -> & E); [|exact Hn].
  destruct c2 as [|z c2] using rev_ind; [reflexivity|]. clear IHc2.
  rewrite app_assoc in E. apply app_inj_tail in E as [E1 E2].
  subst z g.
  rewrite <- !app_assoc. cbn [app].
  apply no_fence_before_nl. eapply includes_false_suffix, Hg.
Qed.

Lemma gap_at_end (g p1 p2 : str) :
  noFence g -> g = p1 ++ p2 -> matchAt codeBlockRegex (p2 ++ []) = None.
Proof.
  intros Hg ->. apply codeBlock_needs_fence. rewrite app_nil_r.
  destruct (prefixb fence p2) eqn:E; [|reflexivity].
  unfold noFence in Hg. rewrite (includes_split fence p1 p2 E) in Hg.
  discriminate.
Qed.

Lemma gap_sepIf (blocks : list Block) (g : str) (rest : list Part) (p1 p2 : str) :
  noFence g -> g ++ sepIf rest = p1 ++ p2 -> p2 <> [] ->
  matchAt codeBlockRegex (p2 ++ renderParts blocks rest) = None.
Proof.
  intros Hg E Hn. destruct rest as [|p rest].
  - simpl in E. rewrite app_nil_r in E. apply (gap_at_end g p1 p2); auto.
  - apply (gap_then_sep g p1 p2); auto.
Qed.

Lemma renderBlock_gap (b : Block) :
  noFence (filename b) ->
  exists hg,
    renderBlock b = hg ++ fencedOf b /\
    forall p1 p2 s, hg = p1 ++ p2 -> p2 <> [] ->
                    matchAt codeBlockRegex (p2 ++ s) = None.
Proof.
  intros Hname. unfold renderBlock.
  destruct (isEmpty (filename b)) eqn:Ee.
  - exists []. split; [reflexivity|].
    intros p1 p2 s E Hn. destruct (nil_split_absurd _ _ _ E Hn).
  - destruct (negb (isEmpty (filename b)) && negb (strEqb (filename b) (u "File"))
              && negb (strEqb (filename b) (u "src/index.ts"))).
    + exists ((u "**" ++ filename b ++ u "**") ++ sep). split.
      * unfold fencedOf. rewrite <- !app_assoc. reflexivity.
      * intros p1 p2 s E Hn.
        apply (gap_then_sep (u "**" ++ filename b ++ u "**") p1 p2 s); auto.
        apply noFence_stars, Hname.
    + exists []. split; [reflexivity|].
      intros p1 p2 s E Hn. destruct (nil_split_absurd _ _ _ E Hn).
Qed.

Lemma exec_skip_gap (r : regex) (done g s : str) :
  (forall p1 p2, g = p1 ++ p2 -> p2 <> [] -> matchAt r (p2 ++ s) = None) ->
  exec r (done ++ g ++ s) (length done) =
  exec r (done ++ g ++ s) (length (done ++ g)).
Proof.
  intros H. rewrite exec_app. rewrite (app_assoc done g s), exec_app.
  rewrite (search_skip r g s _ H), length_app. reflexivity.
Qed.

Lemma execAll_congr (r : regex) (text : str) (i i' fuel : nat) :
  exec r text i = exec r text i' ->
  execAll fuel r text i = execAll fuel r text i'.
Proof. intros H. destruct fuel; simpl; [reflexivity|]. rewrite H. reflexivity. Qed.

Lemma enough_mono (text : str) (i i' fuel : nat) :
  enough text i fuel -> i <= i' -> enough text i' fuel.
Proof. unfold enough. lia. Qed.

Lemma skipn_nth_error (A : Type) (l : list A) (n : nat) (x : A) :
  nth_error l n = Some x -> skipn n l = x :: skipn (S n) l.
Proof.
  revert n; induction l as [|y l IH]; intros [|n] H; simpl in *;
    try discriminate.
  - injection H as ->. reflexivity.
  - apply IH, H.
Qed.

(** The matches found in a rendered text: one per code segment, whose body
    trims to the code of the block it renders. *)
Lemma render_execAll (blocks : list Block) :
  Forall goodBlock blocks ->
  forall n parts,
    goodParts blocks n parts ->
    forall done fuel,
      enough (done ++ renderParts blocks parts) (length done) fuel ->
      Forall2 (fun m b => exists body, group m 3 = Some body /\ trim body = code b)
              (execAll fuel codeBlockRegex (done ++ renderParts blocks parts)
                       (length done))
              (skipn n blocks).
Proof.
  intros Hgood n parts Hparts.
  induction Hparts as [|n t rest Hno Htrim Hne Hrest IH|n b rest Hb Hrest IH];
    intros done fuel Hfuel.
  - destruct fuel as [|fuel]; [destruct Hfuel; lia|].
    simpl. rewrite exec_app, search_eq.
    rewrite codeBlock_needs_fence by reflexivity.
    rewrite skipn_all. constructor.
  - rewrite renderParts_cons_text in *.
    set (g := t ++ sepIf rest) in *.
    rewrite (execAll_congr codeBlockRegex _ (length done) (length (done ++ g)))
      by (apply exec_skip_gap; intros p1 p2 E Hn;
          apply (gap_sepIf blocks t rest p1 p2); auto).
    rewrite (app_assoc done g). apply IH.
    rewrite <- app_assoc. eapply enough_mono; [exact Hfuel|].
    rewrite length_app. lia.
  - rewrite (renderParts_cons_code blocks n b rest Hb) in *.
    pose proof (proj1 (Forall_forall _ _) Hgood b (nth_error_In _ _ Hb)) as Gb.
    destruct (renderBlock_gap b (good_name_fence b Gb)) as (hg & Ehg & Hskip).
    rewrite Ehg in *. clear Ehg.
    destruct (codeBlock_canonical (language b) (code b)
                (sepIf rest ++ renderParts blocks rest)
                (good_lang_nonempty b Gb) (good_lang_word b Gb)
                (good_code_fence b Gb) (good_code_trimmed b Gb)
                (good_code_attr b Gb)) as (body & Hm & Hbody).
    fold (fencedOf b) in Hm.
    set (R := renderParts blocks rest) in *.
    assert (Etext : done ++ ((hg ++ fencedOf b) ++ sepIf rest) ++ R
                    = done ++ hg ++ fencedOf b ++ sepIf rest ++ R)
      by (rewrite <- !app_assoc; reflexivity).
    rewrite Etext in *. clear Etext.
    set (text := done ++ hg ++ fencedOf b ++ sepIf rest ++ R) in *.
    assert (Eexec : exec codeBlockRegex text (length done) =
                    Some (mkMatch (length (done ++ hg)) (fencedOf b)
                                  [(3, body); (1, language b)])).
    { unfold text. rewrite exec_skip_gap by (intros; eapply Hskip; eauto).
      rewrite (app_assoc done hg), exec_app. apply search_hit, Hm. }
    destruct fuel as [|fuel]; [destruct Hfuel; lia|].
    cbn [execAll]. rewrite Eexec.
    rewrite (skipn_nth_error _ _ _ _ Hb).
    constructor; [exists body; split; [reflexivity|exact Hbody]|].
    pose proof (enough_step _ _ _ _ Hfuel Eexec) as Hfuel'.
    unfold endIndex in *. cbn [index whole] in *.
    rewrite <- length_app in *.
    set (done' := (done ++ hg) ++ fencedOf b) in *.
    assert (Etext : text = done' ++ sepIf rest ++ R)
      by (unfold text, done'; rewrite <- !app_assoc; reflexivity).
    rewrite Etext in *.
    rewrite (execAll_congr codeBlockRegex _ (length done')
                           (length (done' ++ sepIf rest)))
      by (apply exec_skip_gap; intros p1 p2 E Hn;
          apply (gap_sepIf blocks [] rest p1 p2); auto; reflexivity).
    rewrite (app_assoc done'). apply IH.
    rewrite <- app_assoc. eapply enough_mono; [exact Hfuel'|].
    rewrite (length_app done'). lia.
Qed.

(** ** The rendered text needs no trimming *)

Lemma startsOk_app (a b : str) : startsOk a -> startsOk (a ++ b).
Proof. intros (x & t & -> & H). exists x, (t ++ b). auto. Qed.

Lemma endsOk_app (a b : str) : endsOk b -> endsOk (a ++ b).
Proof.
  intros (t & y & -> & H). exists (a ++ t), y. rewrite app_assoc. auto.
Qed.

Lemma trimmed_ends (s : str) : startsOk s -> endsOk s -> trimmed s.
Proof. intros H1 H2. right. split; assumption. Qed.

Lemma renderBlock_starts (b : Block) : startsOk (renderBlock b).
Proof.
  unfold renderBlock.
  destruct (_ && _).
  - exists 42%N. eexists. split; [reflexivity|reflexivity].
  - exists 96%N. eexists. split; [reflexivity|reflexivity].
Qed.

Lemma renderBlock_ends (b : Block) : endsOk (renderBlock b).
Proof.
  unfold renderBlock. rewrite !app_assoc.
  apply endsOk_app. exists [96%N; 96%N], 96%N. split; reflexivity.
Qed.

Lemma goodParts_render_starts (blocks : list Block) (n : nat) (parts : list Part) :
  goodParts blocks n parts -> parts <> [] ->
  startsOk (renderParts blocks parts).
Proof.
  intros H Hne. destruct H as [|n t rest Hno Htrim Ht _|n b rest Hb _];
    [congruence| |].
  - rewrite renderParts_cons_text, <- app_assoc. apply startsOk_app.
    destruct Htrim as [->|[H _]]; [congruence|exact H].
  - rewrite (renderParts_cons_code blocks n b rest Hb), <- app_assoc.
    apply startsOk_app, renderBlock_starts.
Qed.

Lemma goodParts_render_ends (blocks : list Block) (n : nat) (parts : list Part) :
  goodParts blocks n parts -> parts <> [] ->
  endsOk (renderParts blocks parts).
Proof.
  induction 1 as [|n t rest Hno Htrim Ht Hrest IH|n b rest Hb Hrest IH];
    intros Hne; [congruence| |].
  - rewrite renderParts_cons_text.
    destruct rest as [|p rest].
    + simpl. rewrite !app_nil_r.
      destruct Htrim as [->|[_ H]]; [congruence|exact H].
    + apply endsOk_app, IH. discriminate.
  - rewrite (renderParts_cons_code blocks n b rest Hb).
    destruct rest as [|p rest].
    + simpl. rewrite !app_nil_r. apply renderBlock_ends.
    + apply endsOk_app, IH. discriminate.
Qed.

Lemma goodParts_render_trim (blocks : list Block) (n : nat) (parts : list Part) :
  goodParts blocks n parts -> parts <> [] ->
  trim (renderParts blocks parts) = renderParts blocks parts.
Proof.
  intros H Hne. apply trim_of_trimmed, trimmed_ends.
  - eapply goodParts_render_starts; eauto.
  - eapply goodParts_render_ends; eauto.
Qed.

(** ** The parts and blocks of a well-formed text *)

Lemma pushText_app (acc : list Part) (t : str) :
  pushText acc t = acc ++ (if isEmpty t then [] else [TextPart t]).
Proof. unfold pushText. destruct (isEmpty t); [symmetry; apply app_nil_r|reflexivity]. Qed.

Lemma goodParts_gap (blocks : list Block) (n : nat) (g : str) (ps : list Part) :
  noFence g -> goodParts blocks n ps ->
  goodParts blocks n ((if isEmpty (trim g) then [] else [TextPart (trim g)]) ++ ps).
Proof.
  intros Hg Hps. destruct (trim g) eqn:E; simpl; [exact Hps|].
  rewrite <- E. apply good_text; auto.
  - apply trim_no_fence, Hg.
  - apply trim_trimmed.
  - rewrite E. discriminate.
Qed.

Lemma finalParts_good (text : str) (blocks : list Block) :
  forall ms i ci acc,
    Forall noFence (gapsFrom text i ms) ->
    ci + length ms = length blocks ->
    exists ps,
      finalParts text (partsOf text (length blocks) ms i ci acc) = acc ++ ps /\
      goodParts blocks ci ps.
Proof.
  induction ms as [|m ms IH]; intros i ci acc Hgaps Hlen; simpl in *.
  - inversion Hgaps as [|g gs Hg _]; subst.
    rewrite Nat.add_0_r in Hlen. subst ci.
    destruct (Nat.ltb i (length text)).
    + rewrite pushText_app. eexists. split; [reflexivity|].
      rewrite <- (app_nil_r (if isEmpty _ then _ else _)).
      apply goodParts_gap; [exact Hg|constructor].
    + exists []. split; [symmetry; apply app_nil_r|constructor].
  - inversion Hgaps as [|g gs Hg Hgs]; subst.
    assert (Hci : Nat.ltb ci (length blocks) = true) by (apply Nat.ltb_lt; lia).
    rewrite Hci.
    destruct (nth_error blocks ci) as [b|] eqn:Eb;
      [|apply nth_error_None in Eb; lia].
    destruct (Nat.ltb i (index m)).
    + destruct (IH (endIndex m) (S ci)
                   (pushText acc (trim (substring text i (index m))) ++ [CodePart ci])
                   Hgs ltac:(lia)) as (ps & Eps & Hps).
      rewrite Eps, pushText_app, <- !app_assoc.
      eexists. split; [reflexivity|].
      apply goodParts_gap; [exact Hg|].
      simpl. eapply good_code; eauto.
    + destruct (IH (endIndex m) (S ci) (acc ++ [CodePart ci]) Hgs ltac:(lia))
        as (ps & Eps & Hps).
      rewrite Eps, <- !app_assoc.
      eexists. split; [reflexivity|].
      simpl. eapply good_code; eauto.
Qed.

Lemma blockOf_shape (text : str) (i : nat) (m : MatchResult) (ord : nat) (b : Block) :
  exec codeBlockRegex text i = Some m ->
  blockOf text m ord = Ok b ->
  language b <> [] /\ forallb Cls.word (language b) = true /\
  noFence (code b) /\ trimmed (code b).
Proof.
  intros E Hb.
  apply exec_shape in E as (a & pre & t & olang & ws & oname & body & _ & _ & _ & Hs).
  unfold blockOf, group in Hb.
  rewrite (FenceShape_group1 _ _ _ _ _ _ _ Hs),
          (FenceShape_group3 _ _ _ _ _ _ _ Hs) in Hb.
  injection Hb as <-. simpl.
  repeat split.
  - destruct olang as [[|x l]|]; simpl; discriminate.
  - destruct olang as [l|]; [|reflexivity].
    destruct (shape_lang _ _ _ _ _ _ _ Hs l eq_refl) as [Hn Hw].
    destruct l; [congruence|exact Hw].
  - apply trim_no_fence. eapply FenceShape_body_no_fence, Hs.
  - apply trim_trimmed.
Qed.

Lemma blocksOf_shape (text : str) :
  forall ms i ord bs,
    Chain text i ms ->
    blocksOf text ms ord = Ok bs ->
    Forall (fun b => language b <> [] /\ forallb Cls.word (language b) = true /\
                     noFence (code b) /\ trimmed (code b)) bs.
Proof.
  induction ms as [|m ms IH]; intros i ord bs Hc H; simpl in H.
  - injection H as <-. constructor.
  - inversion Hc as [|? ? ? E Hc']; subst.
    destruct (blockOf text m ord) as [b|] eqn:Eb; [|discriminate]. simpl in H.
    destruct (blocksOf text ms (S ord)) as [bs'|] eqn:Ebs; [|discriminate].
    injection H as <-. constructor.
    + eapply blockOf_shape; eauto.
    + eapply IH; eauto.
Qed.

Lemma blocksOf_bodies (text : str) :
  forall ms ord bs,
    blocksOf text ms ord = Ok bs ->
    Forall2 (fun m b => exists body, group m 3 = Some body /\ code b = trim body)
            ms bs.
Proof.
  induction ms as [|m ms IH]; intros ord bs H; simpl in H.
  - injection H as <-. constructor.
  - destruct (blockOf text m ord) as [b|] eqn:Eb; [|discriminate]. simpl in H.
    destruct (blocksOf text ms (S ord)) as [bs'|] eqn:Ebs; [|discriminate].
    injection H as <-. constructor; [|eapply IH; eauto].
    unfold blockOf in Eb. destruct (group m 3) as [body|]; [|discriminate].
    injection Eb as <-. exists body. auto.
Qed.

Lemma same_bodies_same_code (ms : list MatchResult) :
  forall bs bs',
    Forall2 (fun m b => exists body, group m 3 = Some body /\ trim body = code b)
            ms bs ->
    Forall2 (fun m b => exists body, group m 3 = Some body /\ code b = trim body)
            ms bs' ->
    map code bs' = map code bs.
Proof.
  induction ms as [|m ms IH]; intros bs bs' H H'; inversion H; inversion H'; subst.
  - reflexivity.
  - simpl. f_equal; [|apply IH; assumption].
    match goal with
    | [ A : exists _, _ /\ trim _ = code ?y, B : exists _, _ /\ code ?y' = trim _ |- _ ] =>
        destruct A as (b1 & A1 & A2); destruct B as (b2 & B1 & B2)
    end.
    congruence.
Qed.

Lemma extract_ok (text : str) (blocks : list Block) :
  extractCodeBlocks text = Ok blocks ->
  exists e, preserveOrderedContent text blocks = Ok e /\
            extract text = Ok (mkResult blocks (extractConfig text) e).
Proof.
  intros H. destruct (preserveOrderedContent_total text blocks) as (e & He).
  exists e. split; [exact He|]. unfold extract. rewrite H. simpl.
  rewrite He. reflexivity.
Qed.

Lemma splitParts_final (text : str) (codeBlocks : list Block) :
  splitParts text codeBlocks =
  Ok (finalParts text (partsOf text (length codeBlocks) (fenceMatches text) 0 0 [])).
Proof. apply splitParts_eq. Qed.

(** ** Round trip *)

Lemma no_fence_round_trip (text : str) : noFence text -> roundTrips text.
Proof.
  intros H. unfold roundTrips, extract.
  rewrite (no_fence_blocks text H). simpl.
  eexists. eexists. split; [reflexivity|]. simpl.
  rewrite (no_fence_blocks (trim text) (trim_no_fence fence text H)).
  simpl. split; reflexivity.
Qed.

(** C9, amended.  For a well-formed input none of whose artifacts has a
    content that starts like a filename attribute, extracting from the
    explanation again gives as many artifacts, with the same contents. *)
Theorem C9_round_trip (text : str) :
  wellFormed text -> noAttrLikeBody text -> roundTrips text.
Proof.
  intros [Hgaps Hnames] Hattr.
  destruct (fenceMatches text) as [|m0 ms0] eqn:Ems.
  { apply no_fence_round_trip.
    inversion Hgaps as [|g gs Hg _]; subst. exact Hg. }
  assert (Hne : fenceMatches text <> []) by (rewrite Ems; discriminate).
  destruct (extractCodeBlocks_matches text Hne) as (bs & Hbs & Hlen & He).
  (* the blocks *)
  assert (Hgood : Forall goodBlock bs).
  { pose proof (blocksOf_shape text _ 0 0 bs (fenceMatches_chain text) Hbs) as Hs.
    specialize (Hnames bs He). specialize (Hattr bs He).
    rewrite Forall_forall in *. intros b Hb.
    destruct (Hs b Hb) as (H1 & H2 & H3 & H4).
    constructor; auto. }
  (* the parts *)
  rewrite <- Ems in Hgaps.
  destruct (finalParts_good text bs (fenceMatches text) 0 0 [] Hgaps
              ltac:(simpl; lia)) as (ps & Eps & Hps).
  simpl in Eps.
  assert (Hpsne : ps <> []).
  { intros ->. inversion Hps. rewrite Ems in Hlen. simpl in Hlen. lia. }
  assert (Hexp : preserveOrderedContent text bs = Ok (renderParts bs ps)).
  { unfold preserveOrderedContent.
    destruct bs as [|b bs']; [rewrite Ems in Hlen; discriminate|].
    simpl Nat.eqb. cbv iota.
    rewrite splitParts_final, Eps. simpl.
    rewrite (goodParts_render_trim _ _ _ Hps Hpsne). reflexivity. }
  set (R := renderParts bs ps) in *.
  (* reading the explanation back *)
  destruct (extractCodeBlocks_eq R) as (bs' & Hbs' & Hlen' & _ & He').
  pose proof (render_execAll bs Hgood 0 ps Hps [] (S (length R))
                             (enough_start R)) as Hback.
  simpl in Hback. fold (fenceMatches R) in Hback.
  pose proof (blocksOf_bodies R _ 0 bs' Hbs') as Hbodies.
  pose proof (same_bodies_same_code _ _ _ Hback Hbodies) as Hcode.
  assert (Hbs'ne : bs' <> []).
  { intros ->. apply (f_equal (@length str)) in Hcode.
    rewrite !length_map in Hcode. simpl in Hcode.
    rewrite <- Hcode, Ems in Hlen. discriminate. }
  rewrite (fallbackBlocks_nonempty R bs' Hbs'ne) in He'.
  destruct (extract_ok R bs' He') as (e' & _ & Hex').
  exists (mkResult bs (extractConfig text) R),
         (mkResult bs' (extractConfig R) e').
  split; [|split; [exact Hex'|exact Hcode]].
  unfold extract. rewrite He. simpl. rewrite Hexp. reflexivity.
Qed.

Lemma C9_round_trip_witness : roundTrips twoBlocksText.
Proof.
  apply (C9_round_trip twoBlocksText).
  - split.
    + vm_compute. repeat constructor.
    + intros blocks H. vm_compute in H. injection H as <-.
      vm_compute. repeat constructor.
  - intros blocks H. vm_compute in H. injection H as <-.
    vm_compute. repeat constructor.
Defined.

(** C9, as stated, fails on [attrBodyText], a single closed block with an
    explicit attribute: its content [filename="a"], newline, [rest] comes
    back as [rest], because on the second reading the first line of the
    content is taken for the attribute. *)
Lemma C9_round_trip_counterexample :
  wellFormed attrBodyText /\ ~ roundTrips attrBodyText /\
  (exists r1 r2,
      extract attrBodyText = Ok r1 /\ extract (explanation r1) = Ok r2 /\
      map code (artifacts r1)
        = [u "filename=" ++ [dq] ++ u "a" ++ [dq; nl] ++ u "rest"] /\
      map code (artifacts r2) = [u "rest"]).
Proof.
  split; [|split].
  - split.
    + vm_compute. repeat constructor.
    + intros blocks H. vm_compute in H. injection H as <-.
      vm_compute. repeat constructor.
  - intros (r1 & r2 & H1 & H2 & H3).
    vm_compute in H1. injection H1 as <-.
    vm_compute in H2. injection H2 as <-.
    vm_compute in H3. discriminate.
  - eexists. eexists. vm_compute. repeat split; reflexivity.
Qed.

(** * Further properties of the code *)

(** ** Global replacement by the empty string *)

Lemma replaceAllFrom_skip (r : regex) :
  forall (s : str) (n : nat),
    replaceAllFrom r s n = replaceAllFrom r (skipn n s) 0.
Proof.
  induction s as [|x s IH]; intros [|n]; try reflexivity.
  simpl. apply IH.
Qed.

Lemma replaceAll_nil (r : regex) : replaceAll r [] = [].
Proof. reflexivity. Qed.

Lemma replaceAll_nomatch (r : regex) (x : cu) (s : str) :
  matchAt r (x :: s) = None ->
  replaceAll r (x :: s) = x :: replaceAll r s.
Proof. intros H. unfold replaceAll. simpl. rewrite H. reflexivity. Qed.

Lemma replaceAll_match (r : regex) (m rest : str) (c : captures) :
  m <> [] ->
  matchAt r (m ++ rest) = Some (rest, c) ->
  replaceAll r (m ++ rest) = replaceAll r rest.
Proof.
  intros Hm H. destruct m as [|x m]; [congruence|].
  unfold replaceAll. cbn [app replaceAllFrom].
  change (x :: m ++ rest) with ((x :: m) ++ rest). rewrite H.
  rewrite length_app.
  replace (length (x :: m) + length rest - length rest) with (S (length m))
    by (cbn [length]; lia).
  rewrite replaceAllFrom_skip, skipn_length_app. reflexivity.
Qed.

Lemma noMatchIn_tail (r : regex) (x : cu) (s : str) :
  noMatchIn r (x :: s) -> noMatchIn r s.
Proof. intros H a b E. apply (H (x :: a) b). rewrite E. reflexivity. Qed.

Lemma replaceAll_id (r : regex) (s : str) :
  noMatchIn r s -> replaceAll r s = s.
Proof.
  induction s as [|x s IH]; intros H; [reflexivity|].
  rewrite replaceAll_nomatch by (apply (H [] (x :: s)); reflexivity).
  f_equal. apply IH. eapply noMatchIn_tail, H.
Qed.

Lemma search_none_inv (r : regex) :
  forall (s : str) (i : nat), search r s i = None -> noMatchIn r s.
Proof.
  induction s as [|x s IH]; intros i H a b E; rewrite search_eq in H.
  - destruct a, b; try discriminate.
    destruct (matchAt r []) as [[? ?]|]; [discriminate|reflexivity].
  - destruct (matchAt r (x :: s)) as [[? ?]|] eqn:Em; [discriminate|].
    destruct a as [|y a]; simpl in E.
    + subst b. exact Em.
    + injection E as _ E. eapply IH; eauto.
Qed.

Section FencePatterns.
(** A pattern every match of which starts with a fence marker. *)
Variable r : regex.
Hypothesis r_fence :
  forall s t c, matchAt r s = Some (t, c) -> exists l, s = fence ++ l ++ t.

Lemma replaceAll_step (s : str) :
  s <> [] ->
  (exists x s', s = x :: s' /\ matchAt r s = None /\
                replaceAll r s = x :: replaceAll r s') \/
  (exists l t, s = fence ++ l ++ t /\ replaceAll r s = replaceAll r t).
Proof.
  intros Hne. destruct s as [|x s']; [congruence|].
  destruct (matchAt r (x :: s')) as [[t c]|] eqn:Em.
  - right. destruct (r_fence _ _ _ Em) as (l & E).
    exists l, t. split; [exact E|].
    rewrite E in Em |- *. rewrite app_assoc in Em |- *.
    eapply replaceAll_match; [|exact Em]. discriminate.
  - left. exists x, s'. repeat split; auto. apply replaceAll_nomatch, Em.
Qed.

(** Removing matches never brings a backtick, or two, to the front. *)
Lemma replaceAll_head1 (s o : str) :
  replaceAll r s = 96%N :: o -> exists s', s = 96%N :: s'.
Proof.
  intros H. destruct s as [|x s0]; [discriminate|].
  destruct (replaceAll_step (x :: s0)) as [(y & s' & E & _ & Eo)|(l & t & E & _)];
    try discriminate.
  - rewrite Eo in H. injection E as <- <-. injection H as -> _. eauto.
  - rewrite E. exists (96%N :: 96%N :: l ++ t). reflexivity.
Qed.

Lemma replaceAll_head2 (s o : str) :
  replaceAll r s = 96%N :: 96%N :: o -> exists s', s = 96%N :: 96%N :: s'.
Proof.
  intros H. destruct s as [|x s0]; [discriminate|].
  destruct (replaceAll_step (x :: s0)) as [(y & s' & E & _ & Eo)|(l & t & E & _)];
    try discriminate.
  - rewrite Eo in H. injection E as <- <-. injection H as -> H.
    apply replaceAll_head1 in H as (s' & ->). eauto.
  - rewrite E. exists (96%N :: l ++ t). reflexivity.
Qed.
End FencePatterns.

Lemma fenceRegex_fence (s t : str) (c : captures) :
  matchAt fenceRegex s = Some (t, c) -> exists l, s = fence ++ l ++ t.
Proof.
  unfold matchAt, fenceRegex. intros H.
  apply run_Lit_inv in H as (t' & -> & H). injection H as -> _.
  exists []. reflexivity.
Qed.

Lemma fallbackRegex_fence (s t : str) (c : captures) :
  matchAt fallbackRegex s = Some (t, c) -> exists l, s = fence ++ l ++ t.
Proof.
  intros H. apply fallback_inv in H as (b & ->).
  exists (b ++ fence). rewrite <- !app_assoc. reflexivity.
Qed.

Lemma fenceRegex_none (s : str) :
  matchAt fenceRegex s = None -> prefixb fence s = false.
Proof.
  unfold matchAt, fenceRegex. rewrite run_Lit.
  destruct (prefixb fence s); [discriminate|reflexivity].
Qed.

(** After [.replace(/```/g, "")] no fence marker is left. *)
Lemma replaceAll_fence_clean :
  forall (n : nat) (s : str),
    length s <= n -> noFence (replaceAll fenceRegex s).
Proof.
  unfold noFence.
  induction n as [|n IH]; intros s Hlen.
  - destruct s; [reflexivity|simpl in Hlen; lia].
  - destruct s as [|x s0]; [reflexivity|].
    destruct (replaceAll_step fenceRegex fenceRegex_fence (x :: s0))
      as [(y & s' & E & Hnone & Eo)|(l & t & E & Eo)]; try discriminate.
    + injection E as <- <-. rewrite Eo. cbn [includes].
      rewrite (IH s0) by (simpl in Hlen; lia). rewrite orb_false_r.
      destruct (prefixb fence (x :: replaceAll fenceRegex s0)) eqn:Ep;
        [|reflexivity].
      apply prefixb_true in Ep. simpl in Ep. injection Ep as -> Ep.
      apply (replaceAll_head2 fenceRegex fenceRegex_fence) in Ep as (s' & ->).
      apply fenceRegex_none in Hnone. discriminate.
    + rewrite Eo. apply IH.
      apply (f_equal (@length cu)) in E. rewrite !length_app in E.
      simpl in E, Hlen. lia.
Qed.

Lemma stripFences_clean (s : str) :
  noFence (stripFences s) /\ trimmed (stripFences s).
Proof.
  unfold stripFences. split; [|apply trim_trimmed].
  apply trim_no_fence. eapply replaceAll_fence_clean. apply Nat.le_refl.
Qed.

(** ** extractExplanation *)

Lemma fallback_some_iff (s : str) :
  includes fence s = true <-> matchAt fallbackRegex (fence ++ s) <> None.
Proof.
  split.
  - intros H. destruct (findFrom fence s 0) as [j|] eqn:Ej.
    + apply findFrom_some in Ej as (b & rest & -> & _ & Hmin).
      replace (fence ++ b ++ fence ++ rest) with ((fence ++ b ++ fence) ++ rest)
        by (rewrite <- !app_assoc; reflexivity).
      rewrite (fallback_hit b rest Hmin). discriminate.
    + apply findFrom_none in Ej. congruence.
  - intros H. destruct (matchAt fallbackRegex (fence ++ s)) as [[t c]|] eqn:Em;
      [|congruence].
    apply fallback_inv in Em as (b & E). apply app_inv_head in E. subst s.
    apply includes_split, prefixb_app.
Qed.

(** A match somewhere in a stretch of text stays a match when the stretch
    is extended to the right. *)
Lemma fallback_match_extend (q b : str) :
  matchAt fallbackRegex q <> None -> matchAt fallbackRegex (q ++ b) <> None.
Proof.
  intros H. destruct (matchAt fallbackRegex q) as [[t c]|] eqn:Em; [|congruence].
  apply fallback_inv in Em as (l & ->).
  rewrite <- !app_assoc. apply fallback_some_iff.
  apply (includes_split fence l), prefixb_app.
Qed.

Lemma noMatchIn_infix (a s b : str) :
  noMatchIn fallbackRegex (a ++ s ++ b) -> noMatchIn fallbackRegex s.
Proof.
  intros H p q E.
  destruct (matchAt fallbackRegex q) as [[t c]|] eqn:Em; [|reflexivity].
  exfalso. apply (fallback_match_extend q b); [rewrite Em; discriminate|].
  apply (H (a ++ p) (q ++ b)). rewrite E, <- !app_assoc. reflexivity.
Qed.

(** What is left after removing the fenced spans holds no fenced span. *)
Lemma replaceAll_fallback_clean :
  forall (n : nat) (s : str),
    length s <= n -> noMatchIn fallbackRegex (replaceAll fallbackRegex s).
Proof.
  induction n as [|n IH]; intros s Hlen.
  - destruct s; [|simpl in Hlen; lia].
    intros a b E. destruct a, b; try discriminate.
    apply fallback_needs_fence. reflexivity.
  - destruct s as [|x s0].
    { intros a b E. destruct a, b; try discriminate.
      apply fallback_needs_fence. reflexivity. }
    destruct (replaceAll_step fallbackRegex fallbackRegex_fence (x :: s0))
      as [(y & s' & E & Hnone & Eo)|(l & t & E & Eo)]; try discriminate.
    + injection E as <- <-. rewrite Eo.
      assert (IH0 : noMatchIn fallbackRegex (replaceAll fallbackRegex s0))
        by (apply IH; simpl in Hlen; lia).
      intros a b Eab. destruct a as [|z a]; simpl in Eab.
      * subst b.
        destruct (matchAt fallbackRegex (x :: replaceAll fallbackRegex s0))
          as [[t c]|] eqn:Em; [|reflexivity].
        exfalso.
        pose proof Em as Em'. apply fallback_inv in Em' as (l & El).
        simpl in El. injection El as -> El.
        apply (replaceAll_head2 fallbackRegex fallbackRegex_fence) in El
          as (s' & ->).
        (* the text starts with a marker that is never closed *)
        assert (Hno : includes fence s' = false).
        { destruct (includes fence s') eqn:Ei; [|reflexivity].
          apply (fallback_some_iff s') in Ei. exfalso. apply Ei. exact Hnone. }
        assert (Hid : noMatchIn fallbackRegex (96%N :: 96%N :: s')).
        { intros p q Epq.
          destruct (matchAt fallbackRegex q) as [[t' c']|] eqn:Eq; [|reflexivity].
          exfalso. apply fallback_inv in Eq as (l' & ->).
          replace (p ++ fence ++ l' ++ fence ++ t')
            with ((p ++ fence ++ l') ++ fence ++ t') in Epq
            by (rewrite <- !app_assoc; reflexivity).
          change (96%N :: 96%N :: s') with ([96%N; 96%N] ++ s') in Epq.
          apply app_eq_app in Epq as (l0 & [[E1 E2]|[E1 E2]]).
          - apply (f_equal (@length cu)) in E1.
            rewrite !length_app in E1. simpl in E1. lia.
          - rewrite E2 in Hno.
            rewrite (includes_split fence l0 (fence ++ t') (prefixb_app _ _)) in Hno.
            discriminate. }
        rewrite (replaceAll_id _ _ Hid) in Em. congruence.
      * injection Eab as _ Eab. eapply IH0, Eab.
    + rewrite Eo. apply IH.
      apply (f_equal (@length cu)) in E. rewrite !length_app in E.
      simpl in E, Hlen. lia.
Qed.

Lemma defaultExplanation_clean : noMatchIn fallbackRegex defaultExplanation.
Proof. apply (search_none_inv fallbackRegex defaultExplanation 0). reflexivity. Qed.

Lemma extractExplanation_clean (text : str) :
  noMatchIn fallbackRegex (extractExplanation text).
Proof.
  unfold extractExplanation.
  destruct (isEmpty _); [apply defaultExplanation_clean|].
  destruct (trim_infix (replaceAll fallbackRegex text)) as (a & b & E).
  apply (noMatchIn_infix a _ b). rewrite <- E.
  eapply replaceAll_fallback_clean, Nat.le_refl.
Qed.

Lemma extractExplanation_trimmed (text : str) :
  trimmed (extractExplanation text) /\ extractExplanation text <> [].
Proof.
  unfold extractExplanation.
  destruct (trim (replaceAll fallbackRegex text)) as [|x t] eqn:E; simpl.
  - split; [|discriminate]. right. split.
    + exists 67%N. eexists. split; reflexivity.
    + exists (u "Code generated successfully"), 46%N. split; reflexivity.
  - split; [|discriminate]. rewrite <- E. apply trim_trimmed.
Qed.

(** X1.  The explanation computed by [extractExplanation] never holds a
    complete fenced span: the pattern it removes finds nothing in it. *)
Theorem X1_explanation_has_no_fenced_span (text : str) :
  jsMatch fallbackRegex (extractExplanation text) = None.
Proof.
  unfold jsMatch. apply search_none. apply extractExplanation_clean.
Qed.

(** X2.  [extractExplanation] is idempotent. *)
Theorem X2_explanation_idempotent (text : str) :
  extractExplanation (extractExplanation text) = extractExplanation text.
Proof.
  destruct (extractExplanation_trimmed text) as [Ht Hne].
  pose proof (extractExplanation_clean text) as Hc.
  set (e := extractExplanation text) in *.
  unfold extractExplanation at 1.
  rewrite (replaceAll_id _ _ Hc), (trim_of_trimmed _ Ht).
  destruct e; [congruence|reflexivity].
Qed.

(** X3.  The result of [extractExplanation] is never the empty string, and
    for a text without any fence marker it is the text trimmed, or the
    default sentence when the text is blank. *)
Theorem X3_explanation_never_empty (text : str) :
  extractExplanation text <> [] /\
  (includes fence text = false ->
   extractExplanation text =
   if isEmpty (trim text) then defaultExplanation else trim text).
Proof.
  split; [apply extractExplanation_trimmed|].
  intros H. unfold extractExplanation.
  rewrite replaceAll_id; [reflexivity|].
  intros a b E. apply fallback_needs_fence.
  apply (includes_false_split fence a b). rewrite <- E. exact H.
Qed.

Lemma X3_explanation_never_empty_witness :
  extractExplanation (u "   ") = defaultExplanation /\
  extractExplanation (u " done ") = u "done".
Proof.
  split.
  - exact (proj2 (X3_explanation_never_empty (u "   ")) eq_refl).
  - exact (proj2 (X3_explanation_never_empty (u " done ")) eq_refl).
Defined.

(** ** What every artifact satisfies *)

Lemma fallbackBlocks_shape (text : str) (b : Block) :
  In b (fallbackBlocks text []) ->
  b = mkBlock (u "typescript") (u "src/index.ts") (code b) 0 /\
  noFence (code b) /\ trimmed (code b).
Proof.
  unfold fallbackBlocks. destruct (_ && _); [|intros []].
  destruct (jsMatch fallbackRegex text) as [fm|]; [|intros []].
  intros [<-|[]]. simpl. split; [reflexivity|]. apply stripFences_clean.
Qed.

Lemma extractCodeBlocks_cases (text : str) (blocks : list Block) :
  extractCodeBlocks text = Ok blocks ->
  (fenceMatches text = [] /\ blocks = fallbackBlocks text []) \/
  (fenceMatches text <> [] /\ blocksOf text (fenceMatches text) 0 = Ok blocks).
Proof.
  intros H. destruct (extractCodeBlocks_eq text) as (bs & Hbs & Hlen & _ & He).
  rewrite H in He. injection He as ->.
  destruct (fenceMatches text) as [|m ms] eqn:E.
  - left. destruct bs; [auto|discriminate].
  - right. split; [discriminate|].
    rewrite fallbackBlocks_nonempty; [exact Hbs|]. destruct bs; discriminate.
Qed.

(** X4.  Whatever the input, the content of every artifact is trimmed and
    holds no fence marker, and its language tag is a non-empty run of word
    characters. *)
Theorem X4_artifacts_are_clean (text : str) (blocks : list Block) (b : Block) :
  extractCodeBlocks text = Ok blocks -> In b blocks ->
  noFence (code b) /\ trimmed (code b) /\
  language b <> [] /\ forallb Cls.word (language b) = true.
Proof.
  intros He Hin.
  destruct (extractCodeBlocks_cases text blocks He) as [[_ ->]|[_ Hbs]].
  - destruct (fallbackBlocks_shape text b Hin) as (-> & H1 & H2).
    simpl in *. repeat split; auto. discriminate.
  - pose proof (blocksOf_shape text _ 0 0 blocks (fenceMatches_chain text) Hbs) as Hs.
    rewrite Forall_forall in Hs.
    destruct (Hs b Hin) as (H1 & H2 & H3 & H4). auto.
Qed.

Lemma X4_artifacts_are_clean_witness :
  noFence (u "y") /\ trimmed (u "y") /\
  u "js" <> [] /\ forallb Cls.word (u "js") = true.
Proof.
  apply (X4_artifacts_are_clean twoBlocksText twoBlocksBlocks
           (mkBlock (u "js") (u "a.ts") (u "y") 1) eq_refl).
  simpl. auto.
Defined.

(** X5.  The config text, when there is one, is trimmed and holds no fence
    marker. *)
Theorem X5_config_is_clean (text c : str) :
  extractConfig text = Some c -> noFence c /\ trimmed c.
Proof.
  unfold extractConfig.
  destruct (jsMatch configRegex text) as [m|]; [|discriminate].
  intros [= <-]. split; [|apply trim_trimmed].
  apply trim_no_fence. eapply replaceAll_fence_clean, Nat.le_refl.
Qed.

Lemma X5_config_is_clean_witness :
  noFence (u "toml" ++ [nl] ++ nameX) /\ trimmed (u "toml" ++ [nl] ++ nameX).
Proof.
  exact (X5_config_is_clean wranglerText (u "toml" ++ [nl] ++ nameX) eq_refl).
Defined.

Lemma strEqb_eq (a b : str) : strEqb a b = true <-> a = b.
Proof.
  revert b; induction a as [|x a IH]; intros [|y b]; simpl;
    try (split; [discriminate|discriminate]); [split; reflexivity|].
  rewrite andb_true_iff, N.eqb_eq, IH.
  split; [intros [-> ->]; reflexivity|intros [= -> ->]; auto].
Qed.

Lemma inferFrom_empty (w lang : str) :
  inferFrom w lang = [] ->
  lang <> u "typescript" /\ lang <> u "ts" /\ lang <> u "json" /\
  lang <> u "toml" /\
  firstPattern filenamePatterns w = [] /\
  includes (u "wrangler") (toLowerCase w) = false.
Proof.
  unfold inferFrom.
  destruct (firstPattern filenamePatterns w) as [|x f] eqn:Ef; simpl;
    [|discriminate].
  destruct (includes (u "wrangler") (toLowerCase w)); simpl; [discriminate|].
  destruct (strEqb lang (u "toml")) eqn:E1; simpl; [discriminate|].
  destruct (strEqb lang (u "typescript")) eqn:E2; simpl; [discriminate|].
  destruct (strEqb lang (u "ts")) eqn:E3; simpl; [discriminate|].
  destruct (strEqb lang (u "json")) eqn:E4; simpl; [discriminate|].
  intros _. repeat split; auto; intros ->; discriminate.
Qed.

Lemma Chain_exec (text : str) (i : nat) (ms : list MatchResult) (m : MatchResult) :
  Chain text i ms -> In m ms ->
  exists j, exec codeBlockRegex text j = Some m.
Proof.
  induction 1 as [|i m0 ms E Hc IH]; intros Hin; [destruct Hin|].
  destruct Hin as [<-|Hin]; eauto.
Qed.

(** The attribute of a match, when it took part, is not empty. *)
Lemma fenceMatches_group2 (text : str) (m : MatchResult) :
  In m (fenceMatches text) -> group m 2 <> Some [].
Proof.
  intros Hin E2.
  destruct (Chain_exec text 0 _ m (fenceMatches_chain text) Hin) as (j & E).
  apply exec_shape in E as (a & pre & t & olang & ws & oname & body
                              & _ & _ & _ & Hs).
  pose proof (FenceShape_group2 _ _ _ _ _ _ _ Hs) as Hg.
  unfold group in E2. rewrite E2 in Hg. symmetry in Hg.
  destruct (shape_name _ _ _ _ _ _ _ Hs [] Hg) as [Hn _]. congruence.
Qed.

(** X6.  An artifact is left without a filename only when its fence has no
    attribute, no naming rule matches the text before it, that text does
    not mention wrangler, and its language is none of typescript, ts, json
    and toml. *)
Theorem X6_unnamed_artifact (text : str) (blocks : list Block)
        (i : nat) (b : Block) :
  extractCodeBlocks text = Ok blocks ->
  nth_error blocks i = Some b ->
  filename b = [] ->
  exists m,
    nth_error (fenceMatches text) i = Some m /\
    group m 2 = None /\
    firstPattern filenamePatterns (firstn (index m) text) = [] /\
    includes (u "wrangler") (toLowerCase (firstn (index m) text)) = false /\
    language b <> u "typescript" /\ language b <> u "ts" /\
    language b <> u "json" /\ language b <> u "toml".
Proof.
  intros He Hb Hf.
  destruct (extractCodeBlocks_cases text blocks He) as [[_ ->]|[Hne Hbs]].
  - apply nth_error_In in Hb.
    destruct (fallbackBlocks_shape text b Hb) as (E & _). rewrite E in Hf.
    discriminate.
  - destruct (blocksOf_ok text _ 0 0 (fenceMatches_chain text))
      as (bs & Hbs' & Hlen & _).
    rewrite Hbs in Hbs'. injection Hbs' as <-.
    destruct (nth_error (fenceMatches text) i) as [m|] eqn:Em.
    2:{ apply nth_error_None in Em.
        assert (i < length blocks) by (apply nth_error_Some; congruence). lia. }
    exists m. split; [reflexivity|].
    pose proof (blocksOf_nth text _ 0 blocks i m b Hbs Em Hb) as Hblock.
    (* the attribute did not take part *)
    assert (H2 : group m 2 = None).
    { pose proof (fenceMatches_group2 text m (nth_error_In _ _ Em)) as Hg.
      unfold blockOf in Hblock.
      destruct (group m 2) as [[|x n]|] eqn:E2;
        [exfalso; apply Hg; reflexivity| |reflexivity].
      destruct (group m 3); [|discriminate].
      injection Hblock as <-. simpl in Hf. discriminate. }
    split; [exact H2|].
    rewrite (blockOf_inferred text m _ b Hblock H2) in Hf.
    apply inferFrom_empty in Hf as (H3 & H4 & H5 & H6 & H7 & H8).
    repeat split; assumption.
Qed.

Lemma X6_unnamed_artifact_witness :
  exists m,
    nth_error (fenceMatches pythonText) 0 = Some m /\
    group m 2 = None /\
    firstPattern filenamePatterns (firstn (index m) pythonText) = [] /\
    includes (u "wrangler") (toLowerCase (firstn (index m) pythonText)) = false /\
    u "py" <> u "typescript" /\ u "py" <> u "ts" /\
    u "py" <> u "json" /\ u "py" <> u "toml".
Proof.
  exact (X6_unnamed_artifact pythonText pythonBlocks 0
           (mkBlock (u "py") [] (u "print(1)") 0) eq_refl eq_refl eq_refl).
Defined.

(** ** The two versions of the extractor *)

Lemma Basic_blocksLoop_execAll (text : str) :
  forall fuel i acc,
    enough text i fuel ->
    Basic.blocksLoop fuel text i acc =
    (bs <- Basic.blocksOf (execAll fuel codeBlockRegex text i) ;;
     Ok (acc ++ bs)).
Proof.
  induction fuel as [|fuel IH]; intros i acc H.
  - destruct H; lia.
  - simpl. destruct (exec codeBlockRegex text i) as [m|] eqn:E.
    + simpl. destruct (Basic.blockOf m) as [b|e]; simpl; [|reflexivity].
      rewrite IH by (eapply enough_step; eauto).
      destruct (Basic.blocksOf _) as [bs|e]; simpl; [|reflexivity].
      rewrite <- app_assoc. reflexivity.
    + simpl. rewrite app_nil_r. reflexivity.
Qed.

Lemma blockOf_same (text : str) (m : MatchResult) (ord : nat) (b' : Block) :
  blockOf text m ord = Ok b' ->
  exists b, Basic.blockOf m = Ok b /\ sameBlock b b'.
Proof.
  unfold blockOf, Basic.blockOf.
  destruct (group m 3) as [body|]; [|discriminate].
  intros [= <-]. eexists. split; [reflexivity|].
  unfold sameBlock. simpl. repeat split.
  intros Hn. destruct (orElse (group m 2) []); [congruence|reflexivity].
Qed.

Lemma blocksOf_same (text : str) :
  forall ms ord bs',
    blocksOf text ms ord = Ok bs' ->
    exists bs, Basic.blocksOf ms = Ok bs /\ Forall2 sameBlock bs bs'.
Proof.
  induction ms as [|m ms IH]; intros ord bs' H; simpl in H.
  - injection H as <-. exists []. split; [reflexivity|constructor].
  - destruct (blockOf text m ord) as [b'|] eqn:Eb; [|discriminate]. simpl in H.
    destruct (blocksOf text ms (S ord)) as [bs0|] eqn:Ebs; [|discriminate].
    injection H as <-.
    destruct (blockOf_same _ _ _ _ Eb) as (b & Hb & Hs).
    destruct (IH _ _ Ebs) as (bs & Hbs & Hf).
    exists (b :: bs). simpl. rewrite Hb. simpl. rewrite Hbs. simpl.
    split; [reflexivity|constructor; assumption].
Qed.

(** X7.  The first version of the extractor and the one with filename
    inference find the same artifacts: as many, with the same language and
    the same content; and whenever the first version gives a filename (the
    explicit attribute), the second gives the same one. *)
Theorem X7_versions_agree (text : str) :
  exists bs bs',
    Basic.extractCodeBlocks text = Ok bs /\
    extractCodeBlocks text = Ok bs' /\
    Forall2 sameBlock bs bs'.
Proof.
  destruct (extractCodeBlocks_eq text) as (bs' & Hbs' & _ & _ & He').
  destruct (blocksOf_same text _ _ _ Hbs') as (bs & Hbs & Hsame).
  exists (Basic.fallbackBlocks text bs), (fallbackBlocks text bs').
  split; [|split; [exact He'|]].
  - unfold Basic.extractCodeBlocks.
    rewrite Basic_blocksLoop_execAll by apply enough_start.
    fold (fenceMatches text). rewrite Hbs. reflexivity.
  - destruct Hsame as [|b b' bs bs' Hb Hrest].
    + unfold Basic.fallbackBlocks, fallbackBlocks.
      destruct (_ && _); [|constructor].
      destruct (jsMatch fallbackRegex text); repeat constructor.
      simpl. congruence.
    + constructor; assumption.
Qed.

(** ** Truncated context *)

Lemma truncate_long (max : nat) (s : str) :
  max < length s -> truncate max s = firstn max s ++ u "...".
Proof.
  intros H. unfold truncate, substring.
  apply Nat.ltb_lt in H. rewrite H.
  rewrite Nat.sub_0_r. reflexivity.
Qed.

Lemma truncate_short (max : nat) (s : str) :
  length s <= max -> truncate max s = s.
Proof.
  intros H. unfold truncate.
  destruct (Nat.ltb max (length s)) eqn:E; [|reflexivity].
  apply Nat.ltb_lt in E. lia.
Qed.

(** X8.  The truncation applied to the documentation context, to the
    project state and to each search result ([truncate max], with [max]
    1000, 1500, 800 and 500): the result has at most [max + 3] units, it
    starts with the same [max] units as the input, an input of at most
    [max] units is passed on unchanged, and truncating twice is the same
    as truncating once. *)
Theorem X8_truncate_bounded (max : nat) (s : str) :
  length (truncate max s) <= max + 3 /\
  firstn max (truncate max s) = firstn max s /\
  (length s <= max -> truncate max s = s) /\
  truncate max (truncate max s) = truncate max s.
Proof.
  destruct (Nat.le_gt_cases (length s) max) as [Hle|Hgt].
  - rewrite (truncate_short max s Hle).
    split; [lia|]. split; [reflexivity|]. split; [intros _; reflexivity|].
    apply truncate_short; exact Hle.
  - rewrite (truncate_long max s Hgt).
    assert (Hl : length (firstn max s) = max)
      by (rewrite length_firstn; lia).
    split; [rewrite length_app, Hl; cbn [length u]; simpl; lia|].
    split.
    { rewrite firstn_app, Hl, Nat.sub_diag. cbn [firstn].
      rewrite app_nil_r, firstn_firstn, Nat.min_id. reflexivity. }
    split; [intros Hle; lia|].
    rewrite truncate_long.
    + rewrite firstn_app, Hl, Nat.sub_diag. cbn [firstn].
      rewrite app_nil_r, firstn_firstn, Nat.min_id. reflexivity.
    + rewrite length_app, Hl. simpl. lia.
Qed.

Lemma X8_truncate_bounded_witness :
  length (truncate 4 (u "abcdefgh")) <= 4 + 3 /\
  firstn 4 (truncate 4 (u "abcdefgh")) = firstn 4 (u "abcdefgh") /\
  (length (u "abc") <= 4 -> truncate 4 (u "abc") = u "abc") /\
  truncate 4 (truncate 4 (u "abcdefgh")) = truncate 4 (u "abcdefgh").
Proof.
  pose proof (X8_truncate_bounded 4 (u "abcdefgh")) as (H1 & H2 & _ & H4).
  pose proof (X8_truncate_bounded 4 (u "abc")) as (_ & _ & H3 & _).
  repeat split; assumption.
Defined.

(** ** The project state is a single slot *)

Section ProjectStateFacts.
Import ProjectState.

Lemma latest_isLatest : isLatest latest.
Proof.
  intros rs. induction rs as [|r rs IH]; [reflexivity|].
  cbn [latest]. destruct (latest rs) as [r'|].
  - destruct IH as [Hin Hall].
    destruct (Nat.ltb (updated_at r) (updated_at r')) eqn:E.
    + apply Nat.ltb_lt in E. split; [right; exact Hin|].
      constructor; [lia|exact Hall].
    + apply Nat.ltb_ge in E. split; [left; reflexivity|].
      constructor; [lia|].
      eapply Forall_impl; [|exact Hall]. cbn beta. intros a Ha. lia.
  - subst rs. split; [left; reflexivity|]. constructor; [lia|constructor].
Qed.

Variable select : list Row -> option Row.
Hypothesis select_latest : isLatest select.

Lemma select_nil : select [] = None.
Proof.
  pose proof (select_latest []) as H.
  destruct (select []) as [r|]; [destruct H as [[] _]|reflexivity].
Qed.

Lemma select_single (r : Row) : select [r] = Some r.
Proof.
  pose proof (select_latest [r]) as H.
  destruct (select [r]) as [r'|]; [|discriminate].
  destruct H as [[->|[]] _]. reflexivity.
Qed.

Lemma save_first (n : nat) (stateJson : str) (timestamp : nat) :
  saveProjectState select (mkTable [] n) stateJson timestamp
  = mkTable [mkRow n stateJson timestamp] (S n).
Proof.
  unfold saveProjectState. cbn [rows nextId].
  rewrite select_nil. reflexivity.
Qed.

Lemma save_again (r : Row) (n : nat) (stateJson : str) (timestamp : nat) :
  saveProjectState select (mkTable [r] n) stateJson timestamp
  = mkTable [mkRow (id r) stateJson timestamp] n.
Proof.
  unfold saveProjectState. cbn [rows nextId].
  rewrite select_single. cbn [map]. rewrite Nat.eqb_refl. reflexivity.
Qed.

Lemma saveAll_slot (saves : list (str * nat)) :
  saveAll select empty saves = empty \/
  exists stateJson timestamp,
    saveAll select empty saves = mkTable [mkRow 1 stateJson timestamp] 2.
Proof.
  induction saves as [|[s ts] saves IH] using rev_ind; [left; reflexivity|].
  right. unfold saveAll in *. rewrite fold_left_app. cbn [fold_left fst snd].
  destruct IH as [->|(s' & ts' & ->)].
  - exists s, ts. apply save_first.
  - exists s, ts. apply save_again.
Qed.

End ProjectStateFacts.

(** X9.  The project state is a single slot.  Starting from the empty
    table, after any run of saves, whatever their time stamps and
    whichever row the engine selects among equally recent ones, the table
    holds exactly one row, the row holds the state saved last, and
    [getProjectState] reads that state back. *)
Theorem X9_project_state_single_slot
        (select : list ProjectState.Row -> option ProjectState.Row)
        (saves : list (str * nat)) (stateJson : str) (timestamp : nat) :
  ProjectState.isLatest select ->
  let t := ProjectState.saveAll select ProjectState.empty
                                (saves ++ [(stateJson, timestamp)]) in
  ProjectState.rows t = [ProjectState.mkRow 1 stateJson timestamp] /\
  ProjectState.getProjectState select t = Some stateJson.
Proof.
  intros Hsel t.
  assert (Ht : t = ProjectState.mkTable
                     [ProjectState.mkRow 1 stateJson timestamp] 2).
  { unfold t, ProjectState.saveAll. rewrite fold_left_app.
    cbn [fold_left fst snd].
    destruct (saveAll_slot select Hsel saves) as [E|(s' & ts' & E)];
      unfold ProjectState.saveAll in E; rewrite E.
    - apply save_first; exact Hsel.
    - apply (save_again select Hsel). }
  rewrite Ht. split; [reflexivity|].
  unfold ProjectState.getProjectState. cbn [ProjectState.rows].
  rewrite (select_single select Hsel). reflexivity.
Qed.

Lemma X9_project_state_single_slot_witness :
  ProjectState.isLatest ProjectState.latest /\
  let t := ProjectState.saveAll ProjectState.latest ProjectState.empty
             ([(u "{}", 7); (u "x", 3)] ++ [(u "y", 5)]) in
  ProjectState.rows t = [ProjectState.mkRow 1 (u "y") 5] /\
  ProjectState.getProjectState ProjectState.latest t = Some (u "y").
Proof.
  split; [exact latest_isLatest|].
  exact (X9_project_state_single_slot ProjectState.latest
           [(u "{}", 7); (u "x", 3)] (u "y") 5 latest_isLatest).
Defined.

(** ** The Worker: CORS headers and the agent route *)

Section WorkerFacts.
Import Worker.

Lemma sameName_eq (a b : str) :
  sameName a b = true <-> toLowerCase a = toLowerCase b.
Proof. unfold sameName. apply strEqb_eq. Qed.

Lemma sameName_refl (a : str) : sameName a a = true.
Proof. apply sameName_eq. reflexivity. Qed.

Lemma sameName_trans_false (k a b : str) :
  sameName k a = true -> sameName a b = false -> sameName k b = false.
Proof.
  intros H1 H2. destruct (sameName k b) eqn:E; [|reflexivity].
  apply sameName_eq in H1, E.
  assert (H : sameName a b = true) by (apply sameName_eq; congruence).
  congruence.
Qed.

Lemma sameName_trans (k a b : str) :
  sameName k a = true -> sameName a b = true -> sameName k b = true.
Proof.
  intros H1 H2. apply sameName_eq in H1, H2. apply sameName_eq. congruence.
Qed.

Lemma valuesOf_remove (name name' : str) (hs : Headers) :
  valuesOf name (remove name' hs)
  = if sameName name' name then [] else valuesOf name hs.
Proof.
  induction hs as [|[k v] hs IH]; cbn [remove valuesOf].
  - destruct (sameName name' name); reflexivity.
  - destruct (sameName k name') eqn:E1.
    + rewrite IH. destruct (sameName name' name) eqn:E2; [reflexivity|].
      rewrite (sameName_trans_false k name' name E1 E2). reflexivity.
    + cbn [valuesOf]. rewrite IH.
      destruct (sameName name' name) eqn:E2; [|reflexivity].
      destruct (sameName k name) eqn:E3; [|reflexivity].
      exfalso. apply sameName_eq in E2, E3.
      assert (H : sameName k name' = true) by (apply sameName_eq; congruence).
      congruence.
Qed.

Lemma valuesOf_set (name name' value : str) (hs : Headers) :
  valuesOf name (set name' value hs)
  = if sameName name' name then [value] else valuesOf name hs.
Proof.
  induction hs as [|[k v] hs IH]; cbn [set valuesOf].
  - destruct (sameName name' name); reflexivity.
  - destruct (sameName k name') eqn:E1.
    + cbn [valuesOf]. rewrite valuesOf_remove.
      destruct (sameName name' name) eqn:E2.
      * rewrite (sameName_trans k name' name E1 E2). reflexivity.
      * rewrite (sameName_trans_false k name' name E1 E2). reflexivity.
    + cbn [valuesOf]. rewrite IH.
      destruct (sameName name' name) eqn:E2; [|reflexivity].
      destruct (sameName k name) eqn:E3; [|reflexivity].
      exfalso. apply sameName_eq in E2, E3.
      assert (H : sameName k name' = true) by (apply sameName_eq; congruence).
      congruence.
Qed.

Lemma get_set (name name' value : str) (hs : Headers) :
  get name (set name' value hs)
  = if sameName name' name then Some value else get name hs.
Proof.
  unfold get. rewrite valuesOf_set.
  destruct (sameName name' name); reflexivity.
Qed.

Lemma withCors_get (hs : Headers) :
  Forall (fun kv => get (fst kv) (withCors hs) = Some (snd kv)) corsHeaders.
Proof.
  unfold withCors, corsHeaders. cbn [fold_left fst snd].
  repeat constructor; cbn [fst snd]; repeat rewrite get_set; reflexivity.
Qed.

Lemma strEqb_neq (a b : str) : a <> b -> strEqb a b = false.
Proof.
  intros H. destruct (strEqb a b) eqn:E; [|reflexivity].
  apply strEqb_eq in E. contradiction.
Qed.

Lemma findFrom_prefix (p rest : str) (k : nat) :
  p <> [] -> findFrom p (p ++ rest) k = Some k.
Proof.
  intros Hp. destruct p as [|a p]; [contradiction|].
  cbn [app findFrom].
  change (a :: p ++ rest) with ((a :: p) ++ rest).
  rewrite prefixb_app. reflexivity.
Qed.

Lemma agentPath_strip (rest : str) :
  agentPath (u "/agent" ++ rest) = if isEmpty rest then u "/" else rest.
Proof.
  unfold agentPath. destruct rest as [|c rest].
  - reflexivity.
  - rewrite strEqb_neq by (cbn; discriminate).
    unfold replaceFirstStr.
    rewrite findFrom_prefix by discriminate.
    cbn [firstn app Nat.add]. rewrite skipn_app, skipn_all, Nat.sub_diag.
    reflexivity.
Qed.

End WorkerFacts.

(** X10.  Every response the Worker returns carries the three CORS
    headers with their fixed values: the preflight answer, both outcomes
    of [/populate], the health check, the 404, and the answer of the agent
    whatever headers the agent itself had set under those names, in
    whatever case and however many times.  And when the Worker returns no
    response but throws, the request was one for the agent and not a
    preflight. *)
Theorem X10_every_response_has_cors
        (request : Worker.Request) (populate : option str)
        (newURL : str -> str -> option str)
        (agent : Worker.Forwarded -> Worker.Outcome) :
  match Worker.fetch request populate newURL agent with
  | Worker.Returns response =>
      Forall (fun kv =>
                Worker.get (fst kv) (Worker.headers response)
                = Some (snd kv))
             Worker.corsHeaders
  | Worker.Throws _ =>
      Worker.method request <> u "OPTIONS" /\
      (Worker.pathname request = u "/agent" \/
       prefixb (u "/agent/") (Worker.pathname request) = true)
  end.
Proof.
  unfold Worker.fetch.
  destruct (strEqb (Worker.method request) (u "OPTIONS")) eqn:Em.
  { cbn. repeat constructor. }
  destruct (strEqb (Worker.pathname request) (u "/populate")
            && strEqb (Worker.method request) (u "POST")).
  { destruct populate; cbn; repeat constructor. }
  destruct (strEqb (Worker.pathname request) (u "/agent")
            || prefixb (u "/agent/") (Worker.pathname request)) eqn:Ea.
  { assert (Hthrow : Worker.method request <> u "OPTIONS" /\
                     (Worker.pathname request = u "/agent" \/
                      prefixb (u "/agent/") (Worker.pathname request) = true)).
    { split.
      - intros E. apply strEqb_eq in E. congruence.
      - apply orb_true_iff in Ea as [Ea|Ea]; [left|right; exact Ea].
        apply strEqb_eq, Ea. }
    destruct (newURL _ _) as [agentUrl|]; [|exact Hthrow].
    destruct (agent _) as [response|e]; [|exact Hthrow].
    unfold Worker.newResponse.
    destruct (negb _); [exact Hthrow|].
    destruct (_ && _); [exact Hthrow|].
    cbn [Worker.headers]. apply withCors_get. }
  destruct (strEqb (Worker.pathname request) (u "/health"));
    cbn; repeat constructor.
Qed.

(** X11.  The agent route.  For a request other than a preflight whose
    path is [/agent] followed by nothing or by a path starting with a
    slash, the reference resolved against the origin of the request is
    that path with the prefix [/agent] removed once (the bare prefix
    becomes the root path), followed by the query string.  When the
    resolution fails the Worker throws; otherwise the agent is called
    with the method of the request and the resolved URL, and what it
    throws is thrown on.  Its response is built anew with the same status
    and body and with the CORS headers set on its headers, which throws
    for a status outside 200 to 599, such as the 101 of a WebSocket
    upgrade. *)
Theorem X11_agent_prefix_stripped
        (request : Worker.Request) (populate : option str)
        (newURL : str -> str -> option str)
        (agent : Worker.Forwarded -> Worker.Outcome) (rest : str) :
  Worker.method request <> u "OPTIONS" ->
  Worker.pathname request = u "/agent" ++ rest ->
  prefixb (u "/") rest = true \/ rest = [] ->
  Worker.fetch request populate newURL agent
  = match newURL ((if isEmpty rest then u "/" else rest)
                    ++ Worker.query request)
                 (Worker.origin request) with
    | None => Worker.Throws Worker.InvalidURL
    | Some agentUrl =>
        match agent (Worker.mkForwarded (Worker.method request) agentUrl) with
        | Worker.Throws e => Worker.Throws e
        | Worker.Returns response =>
            if Nat.leb 200 (Worker.status response)
               && Nat.leb (Worker.status response) 599
            then
              if Worker.nullBodyStatus (Worker.status response)
                 && negb (Worker.isNull (Worker.body response))
              then Worker.Throws Worker.BodyNotAllowed
              else Worker.Returns
                     (Worker.mkResponse
                        (Worker.status response)
                        (Worker.withCors (Worker.headers response))
                        (Worker.body response))
            else Worker.Throws Worker.StatusOutOfRange
        end
    end.
Proof.
  intros Hm Hp Hrest. unfold Worker.fetch.
  rewrite (strEqb_neq _ _ Hm), Hp.
  assert (E1 : strEqb (u "/agent" ++ rest) (u "/populate") = false)
    by (apply strEqb_neq; cbn; discriminate).
  rewrite E1. cbn [andb].
  assert (E2 : strEqb (u "/agent" ++ rest) (u "/agent")
               || prefixb (u "/agent/") (u "/agent" ++ rest) = true).
  { destruct Hrest as [H| ->]; [|reflexivity].
    destruct rest as [|c rest]; [discriminate|].
    cbn in H. destruct (N.eqb c 47) eqn:Ec; [|discriminate].
    apply N.eqb_eq in Ec. subst c. apply orb_true_r. }
  rewrite E2, agentPath_strip.
  destruct (newURL _ _) as [agentUrl|]; [|reflexivity].
  destruct (agent _) as [response|e]; [|reflexivity].
  unfold Worker.newResponse.
  destruct (Nat.leb 200 (Worker.status response)
            && Nat.leb (Worker.status response) 599); reflexivity.
Qed.

Lemma X11_agent_prefix_stripped_witness :
  let request :=
    Worker.mkRequest (u "POST") (u "https://w.example")
                     (u "/agent/agent/chat") (u "?a=1") in
  let newURL := fun input base : str =>
                  if strEqb input (u "/agent/chat?a=1")
                  then Some (base ++ input) else None in
  let answer := fun (st : nat) (f : Worker.Forwarded) =>
                  Worker.Returns
                    (Worker.mkResponse
                       st [(u "access-control-allow-origin", u "https://a.example");
                           (u "X-Url", Worker.target f)]
                       Worker.NoBody) in
  Worker.fetch request None newURL (answer 201)
  = Worker.Returns
      (Worker.mkResponse
         201 [(u "access-control-allow-origin", u "*");
              (u "X-Url", u "https://w.example/agent/chat?a=1");
              (u "Access-Control-Allow-Methods", u "GET, POST, OPTIONS");
              (u "Access-Control-Allow-Headers", u "Content-Type")]
         Worker.NoBody)
  /\ Worker.fetch request None newURL (answer 101)
     = Worker.Throws Worker.StatusOutOfRange.
Proof.
  intros request newURL answer. split.
  - refine (eq_trans
              (X11_agent_prefix_stripped request None newURL (answer 201)
                 (u "/agent/chat") _ _ _) _).
    + discriminate.
    + reflexivity.
    + left. reflexivity.
    + reflexivity.
  - refine (eq_trans
              (X11_agent_prefix_stripped request None newURL (answer 101)
                 (u "/agent/chat") _ _ _) _).
    + discriminate.
    + reflexivity.
    + left. reflexivity.
    + reflexivity.
Defined.

(** ** The paths of the saved files *)

Lemma u_inj (a b : string) : u a = u b -> a = b.
Proof.
  unfold u. intros H.
  rewrite <- (string_of_list_ascii_of_string a),
          <- (string_of_list_ascii_of_string b).
  f_equal.
  revert H. generalize (list_ascii_of_string a) (list_ascii_of_string b).
  induction l as [|x l IH]; intros [|y l']; cbn [map];
    try discriminate; [reflexivity|].
  intros [= Hx Hl]. f_equal; [|apply IH; exact Hl].
  rewrite <- (ascii_N_embedding x), <- (ascii_N_embedding y), Hx.
  reflexivity.
Qed.

Lemma natToStr_inj (n m : nat) : natToStr n = natToStr m -> n = m.
Proof.
  unfold natToStr. intros H. apply u_inj in H.
  assert (E : Nat.to_uint n = Nat.to_uint m).
  { pose proof (NilEmpty.usu (Nat.to_uint n)) as Hn.
    pose proof (NilEmpty.usu (Nat.to_uint m)) as Hm.
    rewrite H in Hn. congruence. }
  rewrite <- (DecimalNat.Unsigned.of_to n), <- (DecimalNat.Unsigned.of_to m), E.
  reflexivity.
Qed.

Lemma savedFilesFrom_nth (blocks : list Block) :
  forall k i,
    nth_error (savedFilesFrom k blocks) i
    = option_map (fun b => mkFile (filePath b (k + i)) (code b))
                 (nth_error blocks i).
Proof.
  induction blocks as [|b blocks IH]; intros k [|i]; cbn; try reflexivity.
  - rewrite Nat.add_0_r. reflexivity.
  - rewrite IH. replace (S k + i) with (k + S i) by lia. reflexivity.
Qed.

Lemma filePath_nonempty (b : Block) (i : nat) : filePath b i <> [].
Proof.
  unfold filePath. destruct (filename b) as [|c f]; cbn; discriminate.
Qed.

(** X12.  The files saved after a generation: there is one per block, in
    the order of the blocks, holding the code of its block under a path
    that is never empty; a block with a file name is saved under that
    name, and two different blocks without a file name are saved under
    different paths. *)
Theorem X12_saved_files (blocks : list Block) :
  map content (savedFiles blocks) = map code blocks /\
  Forall (fun f => path f <> []) (savedFiles blocks) /\
  (forall i b, nth_error blocks i = Some b -> filename b <> [] ->
               nth_error (map path (savedFiles blocks)) i = Some (filename b)) /\
  (forall i j bi bj,
      nth_error blocks i = Some bi -> nth_error blocks j = Some bj ->
      filename bi = [] -> filename bj = [] -> i <> j ->
      nth_error (map path (savedFiles blocks)) i
      <> nth_error (map path (savedFiles blocks)) j).
Proof.
  unfold savedFiles. split; [|split; [|split]].
  - generalize 0. induction blocks as [|b blocks IH]; intros k;
      cbn [savedFilesFrom map]; [reflexivity|].
    cbn [content]. rewrite IH. reflexivity.
  - generalize 0. induction blocks as [|b blocks IH]; intros k;
      cbn [savedFilesFrom]; constructor; [|apply IH].
    cbn [path]. apply filePath_nonempty.
  - intros i b Hi Hb. rewrite nth_error_map, savedFilesFrom_nth, Hi.
    cbn. unfold filePath.
    destruct (filename b); [contradiction|reflexivity].
  - intros i j bi bj Hi Hj Ei Ej Hij.
    rewrite !nth_error_map, !savedFilesFrom_nth, Hi, Hj.
    cbn [option_map path Nat.add]. unfold filePath. rewrite Ei, Ej.
    cbn [isEmpty]. intros [= H].
    apply app_inv_tail in H. apply natToStr_inj in H. lia.
Qed.

Lemma X12_saved_files_witness :
  nth_error (map path (savedFiles twoBlocksBlocks)) 1 = Some (u "a.ts") /\
  nth_error (map path (savedFiles (pythonBlocks ++ pythonBlocks))) 0
  <> nth_error (map path (savedFiles (pythonBlocks ++ pythonBlocks))) 1.
Proof.
  split.
  - destruct (X12_saved_files twoBlocksBlocks) as (_ & _ & H & _).
    apply (H 1 (mkBlock (u "js") (u "a.ts") (u "y") 1));
      [reflexivity|discriminate].
  - destruct (X12_saved_files (pythonBlocks ++ pythonBlocks))
      as (_ & _ & _ & H).
    apply (H 0 1 (mkBlock (u "py") [] (u "print(1)") 0)
               (mkBlock (u "py") [] (u "print(1)") 0));
      [reflexivity|reflexivity|reflexivity|reflexivity|discriminate].
Defined.

(** ** The chat view: [formatMessage] *)

Lemma Forall_take (A : Type) (P : A -> Prop) (n : nat) (l : list A) :
  Forall P l -> Forall P (firstn n l).
Proof.
  intros H. rewrite <- (firstn_skipn n l) in H.
  apply Forall_app in H as [H _]. exact H.
Qed.

Section CapturesIn.
Variable P : cu -> Prop.
Variable A : Type.

Lemma starG_forall (p : cu -> bool) (s : str) (j : str -> option A) (a : A) :
  Forall P s -> starG p s j = Some a ->
  exists t, Forall P t /\ j t = Some a.
Proof.
  intros Hs H. apply starG_inv in H as (l & t & -> & _ & H).
  apply Forall_app in Hs as [_ Ht]. exists t. auto.
Qed.

Lemma starL_forall (p : cu -> bool) (s : str) (j : str -> option A) (a : A) :
  Forall P s -> starL p s j = Some a ->
  exists t, Forall P t /\ j t = Some a.
Proof.
  intros Hs H. apply starL_inv in H as (l & t & -> & _ & H & _).
  apply Forall_app in Hs as [_ Ht]. exists t. auto.
Qed.

(** A pattern run on a text of units with the property hands on a text
    and captures of such units. *)
Lemma run_forall (r : regex) :
  forall (s : str) (c : captures) (k : str -> captures -> option A) (a : A),
    Forall P s -> capturesIn P c -> run r s c k = Some a ->
    exists t c', Forall P t /\ capturesIn P c' /\ k t c' = Some a.
Proof.
  induction r as [|p|r1 IH1 r2 IH2|r1 IH1 r2 IH2|r1 IH1|p|p|n r1 IH1];
    intros s c k a Hs Hc H; cbn [run] in H.
  - exists s, c. auto.
  - destruct s as [|x s]; [discriminate|].
    destruct (p x); [|discriminate].
    exists s, c. split; [exact (Forall_inv_tail Hs)|auto].
  - apply (IH1 _ _ _ _ Hs Hc) in H as (t1 & c1 & Ht1 & Hc1 & H).
    apply (IH2 _ _ _ _ Ht1 Hc1) in H. exact H.
  - destruct (run r1 s c k) eqn:E.
    + injection H as ->. apply (IH1 _ _ _ _ Hs Hc E).
    + apply (IH2 _ _ _ _ Hs Hc H).
  - destruct (run r1 s c k) eqn:E.
    + injection H as ->. apply (IH1 _ _ _ _ Hs Hc E).
    + exists s, c. auto.
  - apply (starG_forall _ _ _ _ Hs) in H as (t & Ht & H). exists t, c. auto.
  - apply (starL_forall _ _ _ _ Hs) in H as (t & Ht & H). exists t, c. auto.
  - apply (IH1 _ _ _ _ Hs Hc) in H as (t & c' & Ht & Hc' & H).
    exists t, ((n, firstn (length s - length t) s) :: c').
    split; [exact Ht|]. split; [|exact H].
    constructor; [|exact Hc']. cbn [snd]. apply Forall_take, Hs.
Qed.
End CapturesIn.

Lemma matchAt_forall (P : cu -> Prop) (r : regex) (s t : str) (c : captures) :
  Forall P s -> matchAt r s = Some (t, c) -> capturesIn P c.
Proof.
  unfold matchAt. intros Hs H.
  apply (run_forall P _ r s [] _ _ Hs (Forall_nil _)) in H
    as (t' & c' & _ & Hc & H).
  injection H as _ <-. exact Hc.
Qed.

Lemma lookup_forall (P : cu -> Prop) (n : nat) (c : captures) (s : str) :
  capturesIn P c -> lookup n c = Some s -> Forall P s.
Proof.
  induction c as [|[k v] c IH]; cbn [lookup]; intros Hc H; [discriminate|].
  destruct (Nat.eqb k n).
  - injection H as <-. exact (Forall_inv Hc).
  - apply IH; [exact (Forall_inv_tail Hc)|exact H].
Qed.

Lemma replaceWithFrom_forall (P : cu -> Prop) (r : regex)
      (f : captures -> str) :
  (forall c, capturesIn P c -> Forall P (f c)) ->
  forall (s : str) (skip : nat),
    Forall P s -> Forall P (replaceWithFrom r f s skip).
Proof.
  intros Hf. induction s as [|x s IH]; intros skip Hs; cbn [replaceWithFrom].
  - destruct skip; [|constructor].
    destruct (matchAt r []) as [[t c]|] eqn:E; [|constructor].
    apply Hf. exact (matchAt_forall P r [] t c Hs E).
  - pose proof (Forall_inv_tail Hs) as Hs'.
    destruct skip; [|apply IH, Hs'].
    destruct (matchAt r (x :: s)) as [[t c]|] eqn:E.
    + pose proof (Hf c (matchAt_forall P r (x :: s) t c Hs E)) as Hc.
      destruct (length (x :: s) - length t).
      * apply Forall_app. split; [exact Hc|].
        constructor; [exact (Forall_inv Hs)|apply IH, Hs'].
      * apply Forall_app. split; [exact Hc|apply IH, Hs'].
    + constructor; [exact (Forall_inv Hs)|apply IH, Hs'].
Qed.

Lemma trim_forall (P : cu -> Prop) (s : str) : Forall P s -> Forall P (trim s).
Proof.
  intros H. destruct (trim_infix s) as (a & b & E). rewrite E in H.
  apply Forall_app in H as [_ H]. apply Forall_app in H as [H _]. exact H.
Qed.

Lemma lineBreaks_eq (s : str) :
  replaceWith Frontend.lineBreakRegex (fun _ => u "<br>") s = lineBreaks s.
Proof.
  unfold replaceWith.
  induction s as [|x s IH]; [reflexivity|].
  cbn [replaceWithFrom lineBreaks flat_map].
  unfold matchAt, Frontend.lineBreakRegex. cbn [run].
  destruct (Cls.only nl x).
  - replace (length (x :: s) - length s) with 1 by (cbn [length]; lia).
    cbv iota beta. f_equal. exact IH.
  - cbn [app]. f_equal. exact IH.
Qed.

Lemma lineBreaks_no_nl (s : str) : Forall (fun x => x <> nl) (lineBreaks s).
Proof.
  induction s as [|x s IH]; [constructor|].
  cbn [lineBreaks flat_map]. apply Forall_app. split; [|exact IH].
  destruct (Cls.only nl x) eqn:E.
  - repeat constructor; discriminate.
  - constructor; [|constructor]. intros ->. discriminate.
Qed.

Lemma escapeHtml_no_nl (s : str) :
  Forall (fun x => x <> nl) s ->
  Forall (fun x => x <> nl) (Frontend.escapeHtml s).
Proof.
  induction 1 as [|x s Hx Hs IH]; [constructor|].
  cbn [Frontend.escapeHtml flat_map]. apply Forall_app. split; [|exact IH].
  unfold Frontend.escapeUnit.
  repeat (match goal with
          | |- context [if ?b then _ else _] => destruct b
          end);
    repeat constructor; try discriminate; exact Hx.
Qed.

Lemma renderCodeBlock_no_nl (c : captures) :
  capturesIn (fun x => x <> nl) c ->
  Forall (fun x => x <> nl) (Frontend.renderCodeBlock c).
Proof.
  intros Hc. unfold Frontend.renderCodeBlock.
  repeat (apply Forall_app; split);
    try (repeat constructor; discriminate).
  - destruct (lookup 1 c) as [[|x l]|] eqn:E; cbn [orElse];
      try (repeat constructor; discriminate).
    exact (lookup_forall _ 1 c _ Hc E).
  - apply escapeHtml_no_nl, trim_forall.
    destruct (lookup 2 c) as [l|] eqn:E; cbn [optStr]; [|constructor].
    exact (lookup_forall _ 2 c _ Hc E).
Qed.

Lemma renderInlineCode_no_nl (c : captures) :
  capturesIn (fun x => x <> nl) c ->
  Forall (fun x => x <> nl) (Frontend.renderInlineCode c).
Proof.
  intros Hc. unfold Frontend.renderInlineCode.
  repeat (apply Forall_app; split);
    try (repeat constructor; discriminate).
  destruct (lookup 1 c) as [l|] eqn:E; cbn [optStr]; [|constructor].
  exact (lookup_forall _ 1 c _ Hc E).
Qed.

(** X13.  The HTML that [formatMessage] makes of a message holds no line
    feed, whatever the message: outside fenced blocks every line break
    has become a [br] tag, and inside them too, before the block is
    escaped. *)
Theorem X13_formatted_message_is_one_line (content : str) :
  ~ In nl (Frontend.formatMessage content).
Proof.
  assert (H : Forall (fun x => x <> nl) (Frontend.formatMessage content)).
  { unfold Frontend.formatMessage.
    apply Forall_app. split; [repeat constructor; discriminate|].
    apply Forall_app. split; [|repeat constructor; discriminate].
    unfold replaceWith.
    apply replaceWithFrom_forall; [exact renderInlineCode_no_nl|].
    apply replaceWithFrom_forall; [exact renderCodeBlock_no_nl|].
    fold (replaceWith Frontend.lineBreakRegex (fun _ => u "<br>") content).
    rewrite lineBreaks_eq. apply lineBreaks_no_nl. }
  intros Hin. rewrite Forall_forall in H. exact (H nl Hin eq_refl).
Qed.

Lemma replaceWithFrom_skip (r : regex) (f : captures -> str) (a t : str) :
  replaceWithFrom r f (a ++ t) (length a) = replaceWithFrom r f t 0.
Proof.
  induction a as [|x a IH]; [reflexivity|].
  cbn [app length replaceWithFrom]. exact IH.
Qed.

Lemma replaceWith_id (r : regex) (f : captures -> str) (s : str) :
  noMatchIn r s -> replaceWith r f s = s.
Proof.
  unfold replaceWith.
  induction s as [|x s IH]; intros H; cbn [replaceWithFrom].
  - rewrite (H [] [] eq_refl). reflexivity.
  - rewrite (H [] (x :: s) eq_refl). f_equal.
    apply IH. eapply noMatchIn_tail, H.
Qed.

Lemma replaceWith_prefix (r : regex) (f : captures -> str) (a t : str) :
  (forall a1 a2, a = a1 ++ a2 -> a2 <> [] -> matchAt r (a2 ++ t) = None) ->
  replaceWith r f (a ++ t) = a ++ replaceWith r f t.
Proof.
  unfold replaceWith.
  induction a as [|x a IH]; intros H; [reflexivity|].
  cbn [app replaceWithFrom].
  assert (E : matchAt r (x :: a ++ t) = None)
    by (apply (H [] (x :: a) eq_refl); discriminate).
  rewrite E. f_equal. apply IH.
  intros a1 a2 E' Hn.
  apply (H (x :: a1) a2); [rewrite E'; reflexivity|exact Hn].
Qed.

Lemma replaceWith_match (r : regex) (f : captures -> str) (m rest : str)
      (c : captures) :
  m <> [] ->
  matchAt r (m ++ rest) = Some (rest, c) ->
  replaceWith r f (m ++ rest) = f c ++ replaceWith r f rest.
Proof.
  intros Hm H. destruct m as [|x m]; [congruence|].
  unfold replaceWith. cbn [app replaceWithFrom].
  change (x :: m ++ rest) with ((x :: m) ++ rest). rewrite H.
  rewrite length_app.
  replace (length (x :: m) + length rest - length rest) with (S (length m))
    by (cbn [length]; lia).
  rewrite replaceWithFrom_skip. reflexivity.
Qed.

Lemma notBacktick_no_fence (x : cu) (s : str) :
  Frontend.notBacktick x = true -> prefixb fence (x :: s) = false.
Proof.
  unfold Frontend.notBacktick. intros H. apply negb_true_iff in H.
  change fence with [96%N; 96%N; 96%N]. cbn [prefixb]. rewrite H. reflexivity.
Qed.

Lemma front_needs_fence (s : str) :
  prefixb fence s = false -> matchAt Frontend.codeBlockRegex s = None.
Proof.
  intros H. unfold matchAt, Frontend.codeBlockRegex. cbn [seqs].
  rewrite run_Seq, run_Lit, H. reflexivity.
Qed.

Lemma inline_needs_backtick (x : cu) (s : str) :
  Frontend.notBacktick x = true ->
  matchAt Frontend.inlineCodeRegex (x :: s) = None.
Proof.
  unfold Frontend.notBacktick. intros H. apply negb_true_iff in H.
  unfold matchAt, Frontend.inlineCodeRegex. cbn [seqs].
  rewrite run_Seq, run_Chr. unfold Cls.only. rewrite H. reflexivity.
Qed.

Lemma noBacktick_code (s : str) :
  forallb Frontend.notBacktick s = true ->
  noMatchIn Frontend.codeBlockRegex s.
Proof.
  intros H a b ->. rewrite forallb_app in H.
  apply andb_true_iff in H as [_ H]. apply front_needs_fence.
  destruct b as [|x b]; [reflexivity|].
  cbn [forallb] in H. apply andb_true_iff in H as [H _].
  apply notBacktick_no_fence, H.
Qed.

Lemma noBacktick_inline (s : str) :
  forallb Frontend.notBacktick s = true ->
  noMatchIn Frontend.inlineCodeRegex s.
Proof.
  intros H a b ->. rewrite forallb_app in H.
  apply andb_true_iff in H as [_ H].
  destruct b as [|x b]; [reflexivity|].
  cbn [forallb] in H. apply andb_true_iff in H as [H _].
  apply inline_needs_backtick, H.
Qed.

Lemma lineBreaks_app (a b : str) :
  lineBreaks (a ++ b) = lineBreaks a ++ lineBreaks b.
Proof. apply flat_map_app. Qed.

Lemma lineBreaks_noBacktick (s : str) :
  forallb Frontend.notBacktick s = true ->
  forallb Frontend.notBacktick (lineBreaks s) = true.
Proof.
  induction s as [|x s IH]; [reflexivity|].
  change (lineBreaks (x :: s))
    with ((if Cls.only nl x then u "<br>" else [x]) ++ lineBreaks s).
  cbn [forallb]. intros H.
  apply andb_true_iff in H as [Hx Hs].
  rewrite forallb_app, (IH Hs), andb_true_r.
  destruct (Cls.only nl x); [reflexivity|].
  cbn [forallb]. rewrite Hx. reflexivity.
Qed.

Lemma word_not_nl (x : cu) : Cls.word x = true -> Cls.only nl x = false.
Proof.
  intros H. unfold Cls.only. destruct (N.eqb_spec x nl) as [->|]; [|reflexivity].
  discriminate H.
Qed.

Lemma word_notBacktick (x : cu) :
  Cls.word x = true -> Frontend.notBacktick x = true.
Proof.
  intros H. unfold Frontend.notBacktick.
  destruct (N.eqb_spec x 96) as [->|]; [|reflexivity].
  discriminate H.
Qed.

Lemma lineBreaks_word (s : str) :
  forallb Cls.word s = true -> lineBreaks s = s.
Proof.
  induction s as [|x s IH]; [reflexivity|].
  change (lineBreaks (x :: s))
    with ((if Cls.only nl x then u "<br>" else [x]) ++ lineBreaks s).
  cbn [forallb]. intros H.
  apply andb_true_iff in H as [Hx Hs].
  rewrite (word_not_nl x Hx). cbn [app]. f_equal. apply IH, Hs.
Qed.

Lemma word_all_notBacktick (s : str) :
  forallb Cls.word s = true -> forallb Frontend.notBacktick s = true.
Proof.
  induction s as [|x s IH]; [reflexivity|].
  cbn [forallb]. intros H. apply andb_true_iff in H as [Hx Hs].
  rewrite (word_notBacktick x Hx), (IH Hs). reflexivity.
Qed.

Lemma escapeHtml_noBacktick (s : str) :
  forallb Frontend.notBacktick s = true ->
  forallb Frontend.notBacktick (Frontend.escapeHtml s) = true.
Proof.
  induction s as [|x s IH]; [reflexivity|].
  change (Frontend.escapeHtml (x :: s))
    with (Frontend.escapeUnit x ++ Frontend.escapeHtml s).
  cbn [forallb]. intros H.
  apply andb_true_iff in H as [Hx Hs].
  rewrite forallb_app, (IH Hs), andb_true_r.
  unfold Frontend.escapeUnit.
  repeat (match goal with
          | |- context [if ?b then _ else _] => destruct b
          end); try reflexivity.
  cbn [forallb]. rewrite Hx. reflexivity.
Qed.

Lemma trim_noBacktick (s : str) :
  forallb Frontend.notBacktick s = true ->
  forallb Frontend.notBacktick (trim s) = true.
Proof.
  intros H. destruct (trim_infix s) as (a & b & E). rewrite E in H.
  rewrite !forallb_app in H.
  apply andb_true_iff in H as [_ H]. apply andb_true_iff in H as [H _].
  exact H.
Qed.

(** X14.  A message without a backtick is shown as it is, between the
    tags of a paragraph, with a [br] tag for every line break: nothing of
    it is escaped. *)
Theorem X14_plain_message (content : str) :
  forallb Frontend.notBacktick content = true ->
  Frontend.formatMessage content
  = u "<p>" ++ lineBreaks content ++ u "</p>".
Proof.
  intros H. unfold Frontend.formatMessage.
  rewrite lineBreaks_eq.
  pose proof (lineBreaks_noBacktick content H) as H'.
  rewrite (replaceWith_id _ _ _ (noBacktick_code _ H')).
  rewrite (replaceWith_id _ _ _ (noBacktick_inline _ H')).
  reflexivity.
Qed.

Lemma X14_plain_message_witness :
  Frontend.formatMessage (u "<b>a</b>" ++ [nl] ++ u "b & c")
  = u "<p><b>a</b><br>b & c</p>".
Proof.
  exact (X14_plain_message (u "<b>a</b>" ++ [nl] ++ u "b & c") eq_refl).
Defined.

Lemma front_codeBlock_tail (B rest : str) (c : captures) :
  forallb Frontend.notBacktick B = true ->
  run (Seq (Opt (Chr (Cls.only nl)))
           (Seq (Group 2 (StarLazy Cls.any)) (Lit fence)))
      ((60%N :: B) ++ fence ++ rest) c (fun s' c' => Some (s', c'))
  = Some (rest, (2, 60%N :: B) :: c).
Proof.
  intros HB.
  rewrite run_Seq, run_Opt, run_Chr. cbn [app].
  change (Cls.only nl 60%N) with false. cbv iota.
  rewrite run_Seq, run_Group, run_StarLazy.
  change (60%N :: B ++ fence ++ rest) with ((60%N :: B) ++ fence ++ rest).
  apply starL_first.
  - clear. induction B; simpl; auto.
  - rewrite run_Lit_app, firstn_consumed. reflexivity.
  - intros l1 l2 E Hn. rewrite run_Lit.
    assert (Hl2 : forallb Frontend.notBacktick l2 = true).
    { assert (H : forallb Frontend.notBacktick (60%N :: B) = true)
        by (cbn [forallb]; rewrite HB; reflexivity).
      rewrite E, forallb_app in H. apply andb_true_iff in H as [_ H].
      exact H. }
    destruct l2 as [|x l2]; [congruence|].
    cbn [forallb] in Hl2. apply andb_true_iff in Hl2 as [Hx _].
    cbn [app]. rewrite (notBacktick_no_fence x _ Hx). reflexivity.
Qed.

(** An opening marker, a language tag, a body that starts with the tag of
    a line break and holds no backtick, and a closing marker. *)
Lemma front_codeBlock_hit (lang B rest : str) :
  forallb Cls.word lang = true ->
  forallb Frontend.notBacktick B = true ->
  matchAt Frontend.codeBlockRegex
          ((fence ++ lang ++ (60%N :: B) ++ fence) ++ rest)
  = Some (rest, (2, 60%N :: B)
                  :: match lang with [] => [] | _ :: _ => [(1, lang)] end).
Proof.
  intros Hword HB.
  unfold matchAt, Frontend.codeBlockRegex. cbn [seqs].
  rewrite <- !app_assoc.
  rewrite run_Seq, run_Lit_app, run_Seq, run_Opt, run_Group.
  destruct lang as [|x lang].
  - unfold Plus. rewrite run_Seq, run_Chr. cbn [app].
    change (Cls.word 60%N) with false. cbv iota.
    apply (front_codeBlock_tail B rest [] HB).
  - cbn [forallb] in Hword. apply andb_true_iff in Hword as [Hx Hword].
    unfold Plus. rewrite run_Seq, run_Chr. cbn [app]. rewrite Hx.
    rewrite run_Star.
    rewrite (starG_app_some _ Cls.word lang _ _
               (rest, [(2, 60%N :: B); (1, x :: lang)]) Hword);
      [reflexivity|].
    rewrite starG_stop by reflexivity.
    change (x :: lang ++ 60%N :: B ++ fence ++ rest)
      with ((x :: lang) ++ (60%N :: B) ++ fence ++ rest).
    rewrite firstn_consumed.
    apply (front_codeBlock_tail B rest [(1, x :: lang)] HB).
Qed.

(** X15.  A fenced block in a message.  For a message made of a text, an
    opening marker with a language tag (or none) and a line break, a body,
    a closing marker and a text, none of the three texts holding a
    backtick: the block is shown as a [pre] and [code] element whose class
    names the language (typescript when there is none) and whose content
    is the body, escaped; as the line breaks are turned into [br] tags
    before the block is read, the escaped body starts with the text of
    such a tag, and holds one for each of its own line breaks. *)
Theorem X15_fenced_block_in_message (pre lang body post : str) :
  forallb Frontend.notBacktick pre = true ->
  forallb Cls.word lang = true ->
  forallb Frontend.notBacktick body = true ->
  forallb Frontend.notBacktick post = true ->
  Frontend.formatMessage
    (pre ++ fence ++ lang ++ [nl] ++ body ++ fence ++ post)
  = u "<p>" ++ lineBreaks pre
      ++ u "<pre><code class=" ++ [dq] ++ u "language-"
      ++ (if isEmpty lang then u "typescript" else lang) ++ [dq] ++ u ">"
      ++ Frontend.escapeHtml (trim (u "<br>" ++ lineBreaks body))
      ++ u "</code></pre>"
      ++ lineBreaks post ++ u "</p>".
Proof.
  intros Hpre Hlang Hbody Hpost.
  unfold Frontend.formatMessage. rewrite lineBreaks_eq.
  pose proof (lineBreaks_noBacktick pre Hpre) as Hpre'.
  pose proof (lineBreaks_noBacktick body Hbody) as Hbody'.
  pose proof (lineBreaks_noBacktick post Hpost) as Hpost'.
  set (B := u "br>" ++ lineBreaks body).
  assert (HB : forallb Frontend.notBacktick B = true)
    by (unfold B; rewrite forallb_app, Hbody'; reflexivity).
  assert (E1 : lineBreaks (pre ++ fence ++ lang ++ [nl] ++ body ++ fence ++ post)
               = lineBreaks pre
                   ++ (fence ++ lang ++ (60%N :: B) ++ fence)
                   ++ lineBreaks post).
  { rewrite !lineBreaks_app, (lineBreaks_word lang Hlang).
    rewrite <- !app_assoc. reflexivity. }
  rewrite E1.
  rewrite replaceWith_prefix.
  2:{ intros a1 a2 E Hn. apply front_needs_fence.
      rewrite E, forallb_app in Hpre'.
      apply andb_true_iff in Hpre' as [_ H2].
      destruct a2 as [|x a2]; [congruence|].
      cbn [forallb] in H2. apply andb_true_iff in H2 as [Hx _].
      cbn [app]. apply notBacktick_no_fence, Hx. }
  assert (Hm : fence ++ lang ++ (60%N :: B) ++ fence <> [])
    by (cbn; discriminate).
  rewrite (replaceWith_match _ _ _ _ _ Hm
             (front_codeBlock_hit lang B (lineBreaks post) Hlang HB)).
  rewrite (replaceWith_id _ _ _ (noBacktick_code _ Hpost')).
  assert (ER : Frontend.renderCodeBlock
                 ((2, 60%N :: B)
                    :: match lang with [] => [] | _ :: _ => [(1, lang)] end)
               = u "<pre><code class=" ++ [dq] ++ u "language-"
                   ++ (if isEmpty lang then u "typescript" else lang)
                   ++ [dq] ++ u ">"
                   ++ Frontend.escapeHtml (trim (u "<br>" ++ lineBreaks body))
                   ++ u "</code></pre>").
  { unfold Frontend.renderCodeBlock. destruct lang; reflexivity. }
  rewrite ER.
  rewrite replaceWith_id.
  - rewrite <- !app_assoc. reflexivity.
  - apply noBacktick_inline.
    rewrite !forallb_app, Hpre', Hpost'.
    rewrite escapeHtml_noBacktick
      by (apply trim_noBacktick; exact HB).
    destruct lang as [|x lang]; cbn [isEmpty].
    + reflexivity.
    + rewrite (word_all_notBacktick _ Hlang). reflexivity.
Qed.

Lemma X15_fenced_block_in_message_witness :
  Frontend.formatMessage
    (u "See:" ++ fence ++ u "js" ++ [nl] ++ (u "a<b" ++ [nl] ++ u "c ")
       ++ fence ++ u " done")
  = u "<p>See:<pre><code class=" ++ [dq] ++ u "language-js" ++ [dq]
      ++ u ">&lt;br&gt;a&lt;b&lt;br&gt;c</code></pre> done</p>".
Proof.
  exact (X15_fenced_block_in_message
           (u "See:") (u "js") (u "a<b" ++ [nl] ++ u "c ") (u " done")
           eq_refl eq_refl eq_refl eq_refl).
Defined.

Lemma includes_noBacktick (s t : str) :
  forallb Frontend.notBacktick s = true ->
  includes fence (s ++ t) = includes fence t.
Proof.
  induction s as [|x s IH]; [reflexivity|].
  cbn [forallb]. intros H. apply andb_true_iff in H as [Hx Hs].
  cbn [app includes]. rewrite (notBacktick_no_fence x _ Hx), (IH Hs).
  reflexivity.
Qed.

Lemma includes_noBacktick_nil (s : str) :
  forallb Frontend.notBacktick s = true -> includes fence s = false.
Proof.
  intros H. rewrite <- (app_nil_r s), (includes_noBacktick s [] H).
  reflexivity.
Qed.

Lemma includes_cons (p : str) (x : cu) (s : str) :
  includes p (x :: s) = prefixb p (x :: s) || includes p s.
Proof. reflexivity. Qed.

(** One backtick in front of a text without a backtick starts no marker. *)
Lemma one_backtick_no_fence (s : str) :
  forallb Frontend.notBacktick s = true ->
  includes fence (96%N :: s) = false.
Proof.
  intros H. cbn [includes]. rewrite (includes_noBacktick_nil s H).
  destruct s as [|x s]; [reflexivity|].
  cbn [forallb] in H. apply andb_true_iff in H as [Hx _].
  unfold Frontend.notBacktick in Hx. apply negb_true_iff in Hx.
  change fence with [96%N; 96%N; 96%N]. cbn [prefixb].
  rewrite Hx. reflexivity.
Qed.

Lemma noFence_code (s : str) :
  includes fence s = false -> noMatchIn Frontend.codeBlockRegex s.
Proof.
  intros H a b ->. apply front_needs_fence.
  exact (includes_false_split fence a b H).
Qed.

Lemma inlineCode_hit (code rest : str) :
  code <> [] -> forallb Frontend.notBacktick code = true ->
  matchAt Frontend.inlineCodeRegex ((96%N :: code ++ [96%N]) ++ rest)
  = Some (rest, [(1, code)]).
Proof.
  intros Hne Hcode. destruct code as [|x code]; [congruence|].
  cbn [forallb] in Hcode. apply andb_true_iff in Hcode as [Hx Hcode].
  unfold matchAt, Frontend.inlineCodeRegex. cbn [seqs].
  cbn [app]. rewrite <- app_assoc. cbn [app].
  rewrite run_Seq, run_Chr. change (Cls.only 96%N 96%N) with true. cbv iota.
  rewrite run_Seq, run_Group.
  unfold Plus. rewrite run_Seq, run_Chr, Hx, run_Star.
  rewrite (starG_app_some _ Frontend.notBacktick code _ _
             (rest, [(1, x :: code)]) Hcode);
    [reflexivity|].
  rewrite starG_stop by reflexivity.
  change (x :: code ++ 96%N :: rest) with ((x :: code) ++ 96%N :: rest).
  rewrite firstn_consumed. reflexivity.
Qed.

(** X16.  Inline code in a message.  For a message made of a text, a
    backtick, a non-empty code, a backtick and a text, none of the three
    holding a backtick: the code is put between the tags of a [code]
    element, as it is and not escaped, and no fenced block is seen. *)
Theorem X16_inline_code_in_message (pre code post : str) :
  forallb Frontend.notBacktick pre = true ->
  forallb Frontend.notBacktick code = true ->
  forallb Frontend.notBacktick post = true ->
  code <> [] ->
  Frontend.formatMessage (pre ++ [96%N] ++ code ++ [96%N] ++ post)
  = u "<p>" ++ lineBreaks pre
      ++ u "<code>" ++ lineBreaks code ++ u "</code>"
      ++ lineBreaks post ++ u "</p>".
Proof.
  intros Hpre Hcode Hpost Hne.
  unfold Frontend.formatMessage. rewrite lineBreaks_eq.
  pose proof (lineBreaks_noBacktick pre Hpre) as Hpre'.
  pose proof (lineBreaks_noBacktick code Hcode) as Hcode'.
  pose proof (lineBreaks_noBacktick post Hpost) as Hpost'.
  assert (Hne' : lineBreaks code <> []).
  { destruct code as [|x code]; [congruence|].
    change (lineBreaks (x :: code))
      with ((if Cls.only nl x then u "<br>" else [x]) ++ lineBreaks code).
    destruct (Cls.only nl x); discriminate. }
  assert (E1 : lineBreaks (pre ++ [96%N] ++ code ++ [96%N] ++ post)
               = lineBreaks pre
                   ++ (96%N :: lineBreaks code ++ [96%N])
                   ++ lineBreaks post).
  { rewrite !lineBreaks_app. cbn [app]. rewrite <- app_assoc. reflexivity. }
  rewrite E1.
  rewrite (replaceWith_id Frontend.codeBlockRegex).
  2:{ apply noFence_code.
      rewrite (includes_noBacktick _ _ Hpre').
      cbn [app]. rewrite <- app_assoc. cbn [app].
      rewrite includes_cons.
      rewrite (includes_noBacktick _ _ Hcode').
      apply orb_false_iff.
      split; [|exact (one_backtick_no_fence _ Hpost')].
      destruct (lineBreaks code) as [|x l]; [congruence|].
      cbn [forallb] in Hcode'. apply andb_true_iff in Hcode' as [Hx _].
      unfold Frontend.notBacktick in Hx. apply negb_true_iff in Hx.
      change fence with [96%N; 96%N; 96%N]. cbn [app prefixb].
      rewrite Hx. reflexivity. }
  rewrite replaceWith_prefix.
  2:{ intros a1 a2 E Hn.
      rewrite E, forallb_app in Hpre'.
      apply andb_true_iff in Hpre' as [_ H2].
      destruct a2 as [|x a2]; [congruence|].
      cbn [forallb] in H2. apply andb_true_iff in H2 as [Hx _].
      cbn [app]. apply inline_needs_backtick, Hx. }
  assert (Hm : 96%N :: lineBreaks code ++ [96%N] <> []) by discriminate.
  rewrite (replaceWith_match _ _ _ _ _ Hm
             (inlineCode_hit (lineBreaks code) (lineBreaks post) Hne' Hcode')).
  rewrite (replaceWith_id _ _ _ (noBacktick_inline _ Hpost')).
  unfold Frontend.renderInlineCode. cbn [lookup Nat.eqb optStr].
  rewrite <- !app_assoc. reflexivity.
Qed.

Lemma X16_inline_code_in_message_witness :
  Frontend.formatMessage (u "Run " ++ [96%N] ++ u "a<b" ++ [96%N] ++ u " now")
  = u "<p>Run <code>a<b</code> now</p>".
Proof.
  exact (X16_inline_code_in_message (u "Run ") (u "a<b") (u " now")
           eq_refl eq_refl eq_refl ltac:(discriminate)).
Defined.
